(** * ipfs-log: the Log class of [src/log.js]

    A shallow embedding of the in-memory part of the log (indices, heads,
    traversal, append, join) and the properties its specification states
    about it.

    Conventions of the embedding.
    - A JavaScript object used as a map is an association list in the
      property order of [Object.keys]: array-index keys first, ascending,
      then the other string keys in insertion order.  The list holds the
      object's own properties.  What every object inherits from
      [Object.prototype] is not in it, so the embedding is exact for keys
      that are none of the inherited names ([plain_key]).
    - Strings are [string]; [<] and [>] on strings are the lexicographic
      order on characters.
    - Numbers (clock times, lengths, sizes) are integers [Z].  The
      addition that advances the clock rounds as the addition of doubles
      does ([JsNumber.add]): it is exact up to 2^53 and rounds to the
      nearest double, ties to even, above.
    - An [async] method is the sequence of its effects on the log, given as
      a result paired with the log it leaves behind; an exception is the
      result [Threw].
    - [Array.prototype.sort] is the insertion sort that only looks at
      whether [comparefn] is positive; [sort] and [reverse] return the
      changed array.  This is what every engine returns for a consistent
      comparator such as [LastWriteWins].  For [compareIds], which answers
      true or false, the order of the result is the engine's own; only
      which entries the result holds is the same everywhere.
    - The collaborators that live outside [log.js] (block store, signer,
      access controller, verifier) are parameters. *)

From Stdlib Require Import List String Ascii ZArith NArith Bool Lia Arith.
From Stdlib Require Import DecimalString Permutation Sorted.
Import ListNotations.

Local Open Scope string_scope.
Local Open Scope Z_scope.
Local Open Scope list_scope.

(** ** JavaScript objects as ordered maps *)

Module JsObj.

(** [array_index k] is [Some n] when [k] is the canonical decimal spelling
    of an array index [n] (at most 2^32 - 2). *)
Definition array_index (k : string) : option N :=
  match NilEmpty.uint_of_string k with
  | Some d =>
      let n := N.of_uint d in
      if (String.eqb (NilEmpty.string_of_uint (N.to_uint n)) k
          && (n <? 4294967295)%N)%bool
      then Some n else None
  | None => None
  end.

Definition index_key (i : nat) : string :=
  NilEmpty.string_of_uint (N.to_uint (N.of_nat i)).

(** The names every plain object inherits from [Object.prototype].  Under
    one of them [o[k]] answers the inherited value when [o] has no own
    property [k], and [o["__proto__"] = v] sets no own property. *)
Definition inherited_names : list string :=
  [ "constructor"; "__defineGetter__"; "__defineSetter__"; "hasOwnProperty";
    "__lookupGetter__"; "__lookupSetter__"; "isPrototypeOf";
    "propertyIsEnumerable"; "toString"; "valueOf"; "__proto__";
    "toLocaleString" ].

(** A key under which an object shows nothing but what was stored in it. *)
Definition plain_key (k : string) : bool :=
  negb (existsb (String.eqb k) inherited_names).

(** Does a new key [k] come before the existing key [k'] in property order? *)
Definition key_before (k k' : string) : bool :=
  match array_index k, array_index k' with
  | Some n, Some n' => (n <? n')%N
  | Some _, None => true
  | None, _ => false
  end.

Section Obj.
  Context {V : Type}.

Definition obj := list (string * V).

(** [o[k]] for an own property, [None] for [undefined].  Exact when [k]
    is a [plain_key]; under an inherited name the program sees the
    inherited value where this answers [None]. *)
Fixpoint obj_get (o : obj) (k : string) : option V :=
  match o with
  | [] => None
  | (k', v) :: o' => if String.eqb k k' then Some v else obj_get o' k
  end.

Definition obj_has (o : obj) (k : string) : bool :=
  match obj_get o k with Some _ => true | None => false end.

Fixpoint obj_update (o : obj) (k : string) (v : V) : obj :=
  match o with
  | [] => []
  | (k', v') :: o' =>
      if String.eqb k k' then (k', v) :: o' else (k', v') :: obj_update o' k v
  end.

Fixpoint obj_insert (o : obj) (k : string) (v : V) : obj :=
  match o with
  | [] => [(k, v)]
  | (k', v') :: o' =>
      if key_before k k' then (k, v) :: o else (k', v') :: obj_insert o' k v
  end.

(** [o[k] = v].  Exact when [k] is not "__proto__": that assignment
    changes the prototype of [o] and stores no property. *)
Definition obj_set (o : obj) (k : string) (v : V) : obj :=
  if obj_has o k then obj_update o k v else obj_insert o k v.

Definition obj_keys (o : obj) : list string := map fst o.
Definition obj_values (o : obj) : list V := map snd o.

(** [Object.assign(target, source)] *)
Definition obj_assign (target source : obj) : obj :=
  fold_left (fun t kv => obj_set t (fst kv) (snd kv)) source target.

(** An array seen as an object: its elements under the keys "0", "1", ... *)
Definition obj_of_array (l : list V) : obj :=
  combine (map index_key (seq 0 (List.length l))) l.

End Obj.

Arguments obj : clear implicits.

End JsObj.
Import JsObj.

(** ** Arrays *)

Module JsArray.

Section Sort.
  Context {A : Type}.

(** One pass of the insertion sort: [x] moves left past every element
    [t] with [comparefn(t, x) > 0].  The sorted prefix is kept reversed. *)
Fixpoint sort_insert (comparefn : A -> A -> Z) (x : A) (rprefix : list A)
  : list A :=
  match rprefix with
  | [] => [x]
  | t :: r =>
      if comparefn t x >? 0 then t :: sort_insert comparefn x r
      else x :: rprefix
  end.

(** [l.sort(comparefn)].  For a comparator that is a total preorder this
    is the stable sorted array every engine produces.  For a comparator
    that answers only 0 or 1, as [compareIds] of [findHeads] does, the
    language leaves the order to the engine; the model follows the
    insertion sort, which reads such an answer as "greater" or "not
    greater". *)
Definition sort (comparefn : A -> A -> Z) (l : list A) : list A :=
  rev (fold_left (fun acc x => sort_insert comparefn x acc) l []).

(** [l.slice(start)] *)
Definition slice (start : Z) (l : list A) : list A :=
  let len := Z.of_nat (List.length l) in
  let k := if start <? 0 then Z.max (len + start) 0 else Z.min start len in
  skipn (Z.to_nat k) l.

End Sort.

End JsArray.

(** ** Numbers *)

Module JsNumber.

(** The double nearest to the integer [z], ties to the even significand:
    [z] itself up to 2^53 in absolute value, and the nearest multiple of
    2^(e-52) for 2^e <= |z| beyond. *)
Definition round (z : Z) : Z :=
  let a := Z.abs z in
  if a <=? 2 ^ 53 then z
  else
    let q := 2 ^ (Z.log2 a - 52) in
    let m := a / q in
    let r := a mod q in
    let m' :=
      if 2 * r <? q then m
      else if q <? 2 * r then m + 1
      else if Z.even m then m else m + 1 in
    Z.sgn z * (m' * q).

(** [x + y] on numbers that hold integers. *)
Definition add (x y : Z) : Z := round (x + y).

End JsNumber.

(** ** Lamport clock and entries *)

Module Clock.
(** Modelled from the spec: [./lamport-clock] is not among the sources;
    a clock is the pair of a replica id and a time (section 3.1). *)
Record t := mk { id : string; time : Z }.
End Clock.

Record Identity := mkIdentity {
  identity_id : string;
  publicKey : string
}.

Module Entry.

Record t := mk {
  hash : string;
  id : string;
  payload : string;
  next : list string;
  clock : Clock.t;
  identity : Identity;
  sig : string
}.

(** The fields of an entry before it is signed and stored. *)
Record unsigned := mkUnsigned {
  u_id : string;
  u_payload : string;
  u_next : list string;
  u_clock : Clock.t;
  u_identity : Identity
}.

Inductive error := SigningFailed | StorageFailed.

Section Create.
  (** The signer and the block store. *)
  Variable sign : Identity -> unsigned -> option string.
  Variable put : unsigned -> string -> option string.

(** Modelled from the spec: [Entry.create] lives in [./entry], which is
    not among the sources.  Section 4.2: assemble the tuple
    (id, payload, next, clock, identity), sign it, store the object and
    take the content hash it is stored under; a signing error or a
    store error is surfaced. *)
Definition create (ident : Identity) (logId : string) (data : string)
    (nexts : list string) (clk : Clock.t) : t + error :=
  let u := mkUnsigned logId data nexts clk ident in
  match sign ident u with
  | None => inr SigningFailed
  | Some s =>
      match put u s with
      | None => inr StorageFailed
      | Some h => inl (mk h logId data nexts clk ident s)
      end
  end.

End Create.

End Entry.

(** ** Sort order *)

Definition compare_strings (a b : string) : Z :=
  match String.compare a b with
  | Lt => -1
  | Eq => 0
  | Gt => 1
  end.

(** Modelled from the spec: [LastWriteWins] lives in [./log-sorting], which
    is not among the sources.  Section 4.3: compare the clock times; if
    equal the clock ids; if still equal the hashes. *)
Definition LastWriteWins (a b : Entry.t) : Z :=
  let d := Clock.time (Entry.clock a) - Clock.time (Entry.clock b) in
  if d =? 0 then
    let c := compare_strings (Clock.id (Entry.clock a)) (Clock.id (Entry.clock b)) in
    if c =? 0 then compare_strings (Entry.hash a) (Entry.hash b) else c
  else d.

(** [a > b] on strings. *)
Definition string_gt (a b : string) : bool :=
  match String.compare a b with
  | Gt => true
  | _ => false
  end.

(** A boolean handed back by a comparator is read as the number 1 or 0. *)
Definition bool_to_number (b : bool) : Z := if b then 1 else 0.

(** A string is falsy exactly when it is empty. *)
Definition truthy (s : string) : bool := negb (String.eqb s "").

(** ** Results of methods *)

Inductive error :=
| IPFSNotDefinedError
| AccessControllerRequired
| IdentityRequired
| LogNotDefinedError
| NotALogError
| CouldNotAppend (identity_id : string)
| AppendNotPermitted
| CouldNotValidateSignature (sig hash publicKey : string)
| EntryCreateFailed (e : Entry.error).

Inductive outcome (A : Type) :=
| Returned (a : A)
| Threw (e : error).

Arguments Returned {A} a.
Arguments Threw {A} e.

(** A collaborator handle (block store, access controller) is only ever
    tested for being defined. *)
Definition handle := unit.

Definition filter_defined {A : Type} (l : list (option A)) : list A :=
  flat_map (fun o => match o with Some a => [a] | None => [] end) l.

(** ** The log *)

Module Log.

Record t := mk {
  _id : string;
  _identity : Identity;
  _entryIndex : obj Entry.t;
  _headsIndex : obj Entry.t;
  _nextsIndex : obj string;
  _length : Z;
  _clock : Clock.t
}.

Definition getHash (e : Entry.t) : string := Entry.hash e.
Definition flatMap (res acc : list string) : list string := res ++ acc.
Definition getNextPointers (entry : Entry.t) : list string := Entry.next entry.
Definition maxClockTimeReducer (res : Z) (acc : Entry.t) : Z :=
  Z.max res (Clock.time (Entry.clock acc)).
Definition uniqueEntriesReducer (res : obj Entry.t) (acc : Entry.t) : obj Entry.t :=
  obj_set res (Entry.hash acc) acc.

Definition with_clock (this : t) (c : Clock.t) : t :=
  mk (_id this) (_identity this) (_entryIndex this) (_headsIndex this)
     (_nextsIndex this) (_length this) c.

(** *** Static helpers *)

Definition indexReducer (res : obj string) (entry : Entry.t) : obj string :=
  fold_left (fun r e => obj_set r e (Entry.hash entry)) (Entry.next entry) res.

Definition compareIds (a b : Entry.t) : Z :=
  bool_to_number (string_gt (Clock.id (Entry.clock a)) (Clock.id (Entry.clock b))).

(** [Log.findHeads(entries)].  The test [items[e.hash] === undefined] is
    read on the own properties of [items], which is what the program
    sees when the hashes are plain keys.  The order of the result is that
    of [JsArray.sort] under the boolean [compareIds]; which entries the
    result holds does not depend on it. *)
Definition findHeads (entries : list Entry.t) : list Entry.t :=
  let items := fold_left indexReducer entries [] in
  let exists_ := fun e =>
    match obj_get items (Entry.hash e) with None => true | Some _ => false end in
  JsArray.sort compareIds (filter exists_ entries).

(** *** Getters *)

Definition id (this : t) : string := _id this.
Definition clock (this : t) : Clock.t := _clock this.
Definition length (this : t) : Z := _length this.

Definition heads (this : t) : list Entry.t :=
  rev (JsArray.sort LastWriteWins (obj_values (_headsIndex this))).

Definition get (this : t) (hash : string) : option Entry.t :=
  obj_get (_entryIndex this) hash.

Definition has (this : t) (hash : string) : bool :=
  match get this hash with Some _ => true | None => false end.

(** *** traverse *)

Record traversal := mkTraversal {
  stack : list Entry.t;
  traversed : obj bool;
  result : obj Entry.t;
  count : Z
}.

Definition is_traversed (tr : obj bool) (hash : string) : bool :=
  match obj_get tr hash with Some b => b | None => false end.

Definition addToStack (st : traversal) (entry : Entry.t) : traversal :=
  if is_traversed (traversed st) (Entry.hash entry) then st
  else mkTraversal
         (rev (JsArray.sort LastWriteWins (entry :: stack st)))
         (obj_set (traversed st) (Entry.hash entry) true)
         (result st)
         (count st).

(** The body of the [while] loop.  The stack holds entries only, so the
    early [return] on a missing entry is never taken. *)
Definition traverse_body (this : t) (st : traversal) : traversal :=
  match stack st with
  | [] => st
  | entry :: rest =>
      let st1 := mkTraversal rest (traversed st)
                   (obj_set (result st) (Entry.hash entry) entry)
                   (count st + 1) in
      fold_left addToStack
        (filter_defined (map (get this) (Entry.next entry))) st1
  end.

Definition traverse_continue (amount : Z) (st : traversal) : bool :=
  (negb (Nat.eqb (List.length (stack st)) 0)
   && ((amount =? -1) || (count st <? amount)))%bool.

Fixpoint traverse_loop (fuel : nat) (this : t) (amount : Z) (st : traversal)
  : traversal :=
  match fuel with
  | O => st
  | S fuel' =>
      if traverse_continue amount st
      then traverse_loop fuel' this amount (traverse_body this st)
      else st
  end.

(** Every pass takes one entry off the stack and puts back only entries of
    the index that were not marked before, so the loop runs at most this
    many times (see [traverse_loop_exits]). *)
Definition traverse_fuel (this : t) (rootEntries : list Entry.t) : nat :=
  (List.length rootEntries + List.length (_entryIndex this))%nat.

Definition traverse_run (this : t) (rootEntries : list Entry.t) (amount : Z)
  : traversal :=
  traverse_loop (traverse_fuel this rootEntries) this amount
    (mkTraversal (rev (JsArray.sort LastWriteWins rootEntries)) [] [] 0).

Definition traverse (this : t) (rootEntries : list Entry.t) (amount : option Z)
  : obj Entry.t :=
  result (traverse_run this rootEntries (match amount with Some a => a | None => -1 end)).

Definition values (this : t) : list Entry.t :=
  rev (obj_values (traverse this (heads this) None)).

(** *** difference *)

Record walk := mkWalk {
  w_stack : list string;
  w_traversed : obj bool;
  w_res : obj Entry.t
}.

Definition pushToStack (b : t) (st : walk) (hash : string) : walk :=
  if (negb (is_traversed (w_traversed st) hash) && negb (has b hash))%bool
  then mkWalk (w_stack st ++ [hash]) (obj_set (w_traversed st) hash true) (w_res st)
  else st.

Definition difference_body (a b : t) (st : walk) : walk :=
  match w_stack st with
  | [] => st
  | hash :: rest =>
      let st1 := mkWalk rest (w_traversed st) (w_res st) in
      match get a hash with
      | Some entry =>
          if (negb (has b hash) && String.eqb (Entry.id entry) (id b))%bool
          then
            fold_left (pushToStack b) (Entry.next entry)
              (mkWalk rest
                 (obj_set (w_traversed st) (Entry.hash entry) true)
                 (obj_set (w_res st) (Entry.hash entry) entry))
          else st1
      | None => st1
      end
  end.

Fixpoint difference_loop (fuel : nat) (a b : t) (st : walk) : walk :=
  match fuel with
  | O => st
  | S fuel' =>
      match w_stack st with
      | [] => st
      | _ :: _ => difference_loop fuel' a b (difference_body a b st)
      end
  end.

(** A hash is pushed at most once and only from the [next] list of an
    entry of [a], which bounds the passes of the loop (see
    [difference_loop_exits]). *)
Definition difference_fuel (a : t) : nat :=
  (List.length (obj_keys (_headsIndex a))
   + List.length (flat_map Entry.next (obj_values (_entryIndex a))))%nat.

Definition difference (a b : t) : obj Entry.t :=
  w_res (difference_loop (difference_fuel a) a b
           (mkWalk (obj_keys (_headsIndex a)) [] [])).

(** *** Constructor *)

Definition new (ipfs access : option handle) (identity : option Identity)
    (now : string) (logId : option string)
    (entries heads_arg : option (list Entry.t)) (clock_arg : option Clock.t)
  : outcome t :=
  match ipfs, access, identity with
  | None, _, _ => Threw IPFSNotDefinedError
  | Some _, None, _ => Threw AccessControllerRequired
  | Some _, Some _, None => Threw IdentityRequired
  | Some _, Some _, Some ident =>
      let the_id :=
        match logId with
        | Some s => if truthy s then s else now
        | None => now
        end in
      let entries := match entries with Some es => es | None => [] end in
      let entryIndex := fold_left uniqueEntriesReducer entries [] in
      let heads_ := match heads_arg with Some hs => hs | None => findHeads entries end in
      let headsIndex := fold_left uniqueEntriesReducer heads_ [] in
      let addToNextsIndex := fun (nx : obj string) (e : Entry.t) =>
        fold_left (fun n a => obj_set n a (Entry.hash e)) (Entry.next e) nx in
      let nextsIndex := fold_left addToNextsIndex entries [] in
      let len := Z.of_nat (List.length entries) in
      let this0 := mk the_id ident entryIndex headsIndex nextsIndex len
                      (Clock.mk "" 0) in
      let maxTime :=
        Z.max (match clock_arg with Some c => Clock.time c | None => 0 end)
              (fold_left maxClockTimeReducer (heads this0) 0) in
      Returned (with_clock this0 (Clock.mk (publicKey ident) maxTime))
  end.

(** *** append and join *)

Inductive argument :=
| Undefined
| NotALog
| IsLog (log : t).

Definition isLog (a : argument) : bool :=
  match a with IsLog _ => true | _ => false end.

(** The helpers of [join]: the index update for one new entry and the two
    filters on the merged heads. *)
Definition addToNextsIndex (this : t) (acc : Z * obj string) (e : Entry.t)
  : Z * obj string :=
  let len := match get this (Entry.hash e) with
             | Some _ => fst acc
             | None => fst acc + 1
             end in
  (len, fold_left (fun n a => obj_set n a (Entry.hash e)) (Entry.next e) (snd acc)).

Definition notReferencedByNewItems (nextsFromNewItems : list string)
    (e : Entry.t) : bool :=
  match find (fun a => String.eqb a (Entry.hash e)) nextsFromNewItems with
  | Some a => negb (truthy a)
  | None => true
  end.

Definition notInCurrentNexts (nextsIndex : obj string) (e : Entry.t) : bool :=
  match obj_get nextsIndex (Entry.hash e) with
  | Some s => negb (truthy s)
  | None => true
  end.

Section Methods.
(** The collaborators: signer and block store behind [Entry.create], the
    access controller's decision and the signature check. *)
  Variable sign : Identity -> Entry.unsigned -> option string.
  Variable put : Entry.unsigned -> string -> option string.
  Variable canAppend : Entry.t -> bool.
  Variable verify : Entry.t -> bool.

Definition append (this : t) (data : string) (pointerCount : option Z)
  : outcome Entry.t * t :=
  let pointerCount := match pointerCount with Some n => n | None => 1 end in
  let newTime :=
    JsNumber.add
      (Z.max (Clock.time (clock this)) (fold_left maxClockTimeReducer (heads this) 0))
      1 in
  let this := with_clock this (Clock.mk (Clock.id (clock this)) newTime) in
  let references :=
    traverse this (heads this)
      (Some (Z.max pointerCount (Z.of_nat (List.length (heads this))))) in
  let nexts := obj_keys (obj_assign (obj_assign [] (_headsIndex this)) references) in
  match Entry.create sign put (_identity this) (id this) data nexts (clock this) with
  | inr e => (Threw (EntryCreateFailed e), this)
  | inl entry =>
      if negb (canAppend entry)
      then (Threw (CouldNotAppend (identity_id (_identity this))), this)
      else
        let entryIndex := obj_set (_entryIndex this) (Entry.hash entry) entry in
        let nextsIndex :=
          fold_left (fun n e => obj_set n e (Entry.hash entry)) nexts (_nextsIndex this) in
        let headsIndex := obj_set [] (Entry.hash entry) entry in
        (Returned entry,
         mk (_id this) (_identity this) entryIndex headsIndex nextsIndex
            (_length this + 1) (_clock this))
  end.

Definition verify_error (entry : Entry.t) : error :=
  CouldNotValidateSignature (Entry.sig entry) (Entry.hash entry)
    (publicKey (Entry.identity entry)).

(** The part of [join] that runs once both gates have let every new
    entry through. *)
Definition join_commit (this log : t) (size : Z) (newItems : obj Entry.t) : t :=
  let acc :=
    fold_left (addToNextsIndex this) (obj_values newItems)
      (_length this, _nextsIndex this) in
  let len := fst acc in
  let nextsIndex := snd acc in
  let entryIndex := obj_assign (_entryIndex this) newItems in
  let nextsFromNewItems :=
    fold_left flatMap (map getNextPointers (obj_values newItems)) [] in
  let mergedHeads :=
    fold_left uniqueEntriesReducer
      (filter (notInCurrentNexts nextsIndex)
         (filter (notReferencedByNewItems nextsFromNewItems)
            (findHeads
               (obj_values (obj_assign (obj_assign [] (_headsIndex this))
                                       (_headsIndex log))))))
      [] in
  let this1 := mk (_id this) (_identity this) entryIndex mergedHeads nextsIndex
                  len (_clock this) in
  let this2 :=
    if size >? -1 then
      let tmp := JsArray.slice (- size) (values this1) in
      let entryIndex' := fold_left uniqueEntriesReducer tmp [] in
      mk (_id this1) (_identity this1) entryIndex'
         (obj_of_array (findHeads tmp)) nextsIndex
         (Z.of_nat (List.length (obj_values entryIndex'))) (_clock this1)
    else this1 in
  let maxClock := fold_left maxClockTimeReducer (obj_values (_headsIndex this2)) 0 in
  with_clock this2
    (Clock.mk (Clock.id (clock this2)) (Z.max (Clock.time (clock this2)) maxClock)).

Definition join (this : t) (log : argument) (size : option Z)
  : outcome (option t) * t :=
  let size := match size with Some n => n | None => -1 end in
  match log with
  | Undefined => (Threw LogNotDefinedError, this)
  | NotALog => (Threw NotALogError, this)
  | IsLog log =>
      if negb (String.eqb (id this) (id log)) then (Returned None, this)
      else
        let newItems := difference log this in
        let entriesToJoin := obj_values newItems in
        match find (fun e => negb (canAppend e)) entriesToJoin with
        | Some _ => (Threw AppendNotPermitted, this)
        | None =>
            match find (fun e => negb (verify e)) entriesToJoin with
            | Some e => (Threw (verify_error e), this)
            | None =>
                let this' := join_commit this log size newItems in
                (Returned (Some this'), this')
            end
        end
  end.

End Methods.

(** *** has, toJSON, toSnapshot *)

(** [has(entry)] looks up [entry.hash || entry]: the hash of an entry, the
    string itself when it is handed a hash, and the property key of the
    object when the entry's hash is empty. *)
Definition has_key (entry : Entry.t + string) : string :=
  match entry with
  | inl e => if truthy (Entry.hash e) then Entry.hash e else "[object Object]"
  | inr hash => hash
  end.

Definition has_entry (this : t) (entry : Entry.t + string) : bool :=
  match obj_get (_entryIndex this) (has_key entry) with
  | Some _ => true
  | None => false
  end.

Record json := mkJson {
  json_id : string;
  json_heads : list string
}.

Definition toJSON (this : t) : json :=
  mkJson (id this)
    (map getHash (rev (JsArray.sort LastWriteWins (heads this)))).

Record snapshot := mkSnapshot {
  snapshot_id : string;
  snapshot_heads : list Entry.t;
  snapshot_values : list Entry.t
}.

Definition toSnapshot (this : t) : snapshot :=
  mkSnapshot (id this) (heads this) (values this).

(** *** findTailHashes *)

Definition with_next (e : Entry.t) (next : list string) : Entry.t :=
  Entry.mk (Entry.hash e) (Entry.id e) (Entry.payload e) next
    (Entry.clock e) (Entry.identity e) (Entry.sig e).

(** [entry.next.reverse()] reverses the [next] array of the entry in
    place, so the function hands back, beside its result, the entries as
    it leaves them.  The entries of the array are taken to be distinct
    objects. *)
Definition reduceTailHashes (hashes : obj bool)
    (acc : list string * list Entry.t) (entry : Entry.t)
  : list string * list Entry.t :=
  let reversed := rev (Entry.next entry) in
  let addToResult := fun (res : list string) (e : string) =>
    match obj_get hashes e with
    | None => e :: res
    | Some _ => res
    end in
  (fold_left addToResult reversed (fst acc),
   snd acc ++ [with_next entry reversed]).

Definition findTailHashes (entries : list Entry.t)
  : list string * list Entry.t :=
  let hashes :=
    fold_left (fun hs e => obj_set hs (Entry.hash e) true) entries [] in
  fold_left (reduceTailHashes hashes) entries ([], []).

End Log.

(** ** Vocabulary of the specification *)

Definition clock_id (e : Entry.t) : string := Clock.id (Entry.clock e).
Definition clock_time (e : Entry.t) : Z := Clock.time (Entry.clock e).

(** [e] is an entry that no entry of [entries] names in its [next]. *)
Definition unreferenced (entries : list Entry.t) (e : Entry.t) : bool :=
  forallb (fun f => negb (existsb (String.eqb (Entry.hash e)) (Entry.next f)))
    entries.

Definition descending_ids (l : list Entry.t) : Prop :=
  Sorted (fun a b => String.leb (clock_id b) (clock_id a) = true) l.

(** The clock time append moves the log to. *)
Definition append_time (this : Log.t) : Z :=
  JsNumber.add
    (Z.max (Clock.time (Log.clock this))
           (fold_left Log.maxClockTimeReducer (Log.heads this) 0))
    1.

Definition append_clock (this : Log.t) : Clock.t :=
  Clock.mk (Clock.id (Log.clock this)) (append_time this).

(** Two objects are equal as maps when they hold the same value, or none,
    under every key. *)
Definition obj_equiv {V : Type} (o1 o2 : obj V) : Prop :=
  forall k, obj_get o1 k = obj_get o2 k.

(** [nextsIndex] names a successor for [p]. *)
Definition referenced_in (nextsIndex : obj string) (p : string) : bool :=
  match obj_get nextsIndex p with
  | Some s => truthy s
  | None => false
  end.

(** [reach l x y]: [y] can be reached from [x] along the [next] pointers
    of entries of [l]. *)
Inductive reach (l : Log.t) (x : string) : string -> Prop :=
| reach_here : reach l x x
| reach_next y e z :
    reach l x y -> Log.get l y = Some e -> In z (Entry.next e) -> reach l x z.

(** A log whose indices describe one complete graph of entries. *)
Record complete (l : Log.t) : Prop := {
  entry_keys_unique : NoDup (obj_keys (Log._entryIndex l));
  head_keys_unique : NoDup (obj_keys (Log._headsIndex l));
  next_keys_unique : NoDup (obj_keys (Log._nextsIndex l));
  keys_are_hashes :
    forall h e, Log.get l h = Some e -> Entry.hash e = h;
  hashes_not_empty :
    forall h e, Log.get l h = Some e -> truthy h = true;
  entries_carry_id :
    forall h e, Log.get l h = Some e -> Entry.id e = Log.id l;
  no_tails :
    forall h e p, Log.get l h = Some e -> In p (Entry.next e) ->
                  Log.get l p <> None;
  heads_are_unreferenced :
    forall h e, obj_get (Log._headsIndex l) h = Some e <->
                Log.get l h = Some e /\
                forall k f, Log.get l k = Some f -> ~ In h (Entry.next f);
  nexts_are_referenced :
    forall p, referenced_in (Log._nextsIndex l) p = true <->
              exists k f, Log.get l k = Some f /\ In p (Entry.next f)
}.

(** A log whose indices fit the entries it holds, whether or not it holds
    every entry these refer to: the entries are kept under their hashes,
    which are non-empty plain keys, and carry the id of the log; the
    heads are the entries that no entry of the log names in its [next];
    the nextsIndex knows exactly the hashes that entries of the log name
    in their [next]. *)
Record indexed (l : Log.t) : Prop := {
  ix_entry_keys : NoDup (obj_keys (Log._entryIndex l));
  ix_head_keys : NoDup (obj_keys (Log._headsIndex l));
  ix_next_keys : NoDup (obj_keys (Log._nextsIndex l));
  ix_hashes :
    forall h e, Log.get l h = Some e -> Entry.hash e = h;
  ix_not_empty :
    forall h e, Log.get l h = Some e -> truthy h = true;
  ix_plain :
    forall h e, Log.get l h = Some e -> plain_key h = true;
  ix_ids :
    forall h e, Log.get l h = Some e -> Entry.id e = Log.id l;
  ix_heads :
    forall h e, obj_get (Log._headsIndex l) h = Some e <->
                Log.get l h = Some e /\
                forall k f, Log.get l k = Some f -> ~ In h (Entry.next f);
  ix_nexts :
    forall p, referenced_in (Log._nextsIndex l) p = true <->
              exists k f, Log.get l k = Some f /\ In p (Entry.next f)
}.

(** Whenever an entry of [l] that [base] does not hold names in its
    [next] an entry that [m] holds, [l] or [base] holds that entry too:
    beyond [base], [l] lacks no predecessor of its entries that [m] could
    supply. *)
Definition closed_within (base l m : Log.t) : Prop :=
  forall h e p, Log.get l h = Some e -> Log.get base h = None ->
                In p (Entry.next e) -> Log.get m p <> None ->
                Log.get l p <> None \/ Log.get base p <> None.

(** [reach_outside a b x y]: [y] can be reached from [x] along the [next]
    pointers of entries of [a], through entries of [a] that [b] does not
    hold, [x] and [y] among them. *)
Inductive reach_outside (a b : Log.t) (x : string) : string -> Prop :=
| outside_here e :
    Log.get a x = Some e -> Log.get b x = None -> reach_outside a b x x
| outside_next y e z f :
    reach_outside a b x y -> Log.get a y = Some e -> In z (Entry.next e) ->
    Log.get a z = Some f -> Log.get b z = None -> reach_outside a b x z.

(** Every entry of the log can be reached from one of its heads. *)
Definition covered (l : Log.t) : Prop :=
  forall h e, Log.get l h = Some e ->
    exists h0, In h0 (obj_keys (Log._headsIndex l)) /\ reach l h0 h.

(** Two logs hold the same entry under every hash they share. *)
Definition agree (l1 l2 : Log.t) : Prop :=
  forall h e1 e2, Log.get l1 h = Some e1 -> Log.get l2 h = Some e2 -> e1 = e2.

(** Every entry of the log passes both gates of join. *)
Definition admitted (canAppend verify : Entry.t -> bool) (l : Log.t) : Prop :=
  forall h e, Log.get l h = Some e -> canAppend e = true /\ verify e = true.

(** The log that [this.join(other)] leaves behind. *)
Definition joined (canAppend verify : Entry.t -> bool) (this other : Log.t)
  : Log.t :=
  snd (Log.join canAppend verify this (Log.IsLog other) None).

(** *** Checking the conditions on a given log *)

Fixpoint hashes_eqb (l1 l2 : list string) : bool :=
  match l1, l2 with
  | [], [] => true
  | x :: r1, y :: r2 => (String.eqb x y && hashes_eqb r1 r2)%bool
  | _, _ => false
  end.

Definition clock_eqb (c1 c2 : Clock.t) : bool :=
  (String.eqb (Clock.id c1) (Clock.id c2)
   && (Clock.time c1 =? Clock.time c2))%bool.

Definition identity_eqb (i1 i2 : Identity) : bool :=
  (String.eqb (identity_id i1) (identity_id i2)
   && String.eqb (publicKey i1) (publicKey i2))%bool.

Definition entry_eqb (e1 e2 : Entry.t) : bool :=
  (String.eqb (Entry.hash e1) (Entry.hash e2)
   && String.eqb (Entry.id e1) (Entry.id e2)
   && String.eqb (Entry.payload e1) (Entry.payload e2)
   && hashes_eqb (Entry.next e1) (Entry.next e2)
   && clock_eqb (Entry.clock e1) (Entry.clock e2)
   && identity_eqb (Entry.identity e1) (Entry.identity e2)
   && String.eqb (Entry.sig e1) (Entry.sig e2))%bool.

Definition holds (o : option Entry.t) (e : Entry.t) : bool :=
  match o with
  | Some e' => entry_eqb e' e
  | None => false
  end.

Fixpoint distinct (l : list string) : bool :=
  match l with
  | [] => true
  | x :: r => (negb (existsb (String.eqb x) r) && distinct r)%bool
  end.

Definition unique_keys {V : Type} (o : obj V) : bool := distinct (obj_keys o).

Definition entry_ok (l : Log.t) (ke : string * Entry.t) : bool :=
  (String.eqb (Entry.hash (snd ke)) (fst ke)
   && truthy (fst ke)
   && String.eqb (Entry.id (snd ke)) (Log.id l)
   && forallb (Log.has l) (Entry.next (snd ke)))%bool.

Definition unreferenced_hash (l : Log.t) (h : string) : bool :=
  forallb (fun kf => negb (existsb (String.eqb h) (Entry.next (snd kf))))
    (Log._entryIndex l).

Definition referenced_hash (l : Log.t) (p : string) : bool :=
  existsb (fun kf => existsb (String.eqb p) (Entry.next (snd kf)))
    (Log._entryIndex l).

Definition heads_ok (l : Log.t) : bool :=
  (forallb (fun ke => holds (Log.get l (fst ke)) (snd ke)
                      && unreferenced_hash l (fst ke))
     (Log._headsIndex l)
   && forallb (fun ke => negb (unreferenced_hash l (fst ke))
                         || holds (obj_get (Log._headsIndex l) (fst ke)) (snd ke))
        (Log._entryIndex l))%bool.

Definition nexts_ok (l : Log.t) : bool :=
  (forallb (fun ps => negb (truthy (snd ps)) || referenced_hash l (fst ps))
     (Log._nextsIndex l)
   && forallb (fun ke => forallb (referenced_in (Log._nextsIndex l))
                           (Entry.next (snd ke)))
        (Log._entryIndex l))%bool.

Definition complete_check (l : Log.t) : bool :=
  (unique_keys (Log._entryIndex l) && unique_keys (Log._headsIndex l)
   && unique_keys (Log._nextsIndex l)
   && forallb (entry_ok l) (Log._entryIndex l)
   && heads_ok l && nexts_ok l)%bool.

Definition entry_indexed (l : Log.t) (ke : string * Entry.t) : bool :=
  (String.eqb (Entry.hash (snd ke)) (fst ke)
   && truthy (fst ke)
   && plain_key (fst ke)
   && String.eqb (Entry.id (snd ke)) (Log.id l))%bool.

Definition indexed_check (l : Log.t) : bool :=
  (unique_keys (Log._entryIndex l) && unique_keys (Log._headsIndex l)
   && unique_keys (Log._nextsIndex l)
   && forallb (entry_indexed l) (Log._entryIndex l)
   && heads_ok l && nexts_ok l)%bool.

Definition closed_within_check (base l m : Log.t) : bool :=
  forallb (fun ke =>
             Log.has base (fst ke)
             || forallb (fun p => negb (Log.has m p) || Log.has l p
                                  || Log.has base p)
                  (Entry.next (snd ke)))
    (Log._entryIndex l).

(** [y] is [x], or an entry within reach of [x] names [y] in its [next]. *)
Fixpoint reach_check (fuel : nat) (l : Log.t) (x y : string) : bool :=
  (String.eqb x y
   || match fuel with
      | O => false
      | S fuel' =>
          existsb (fun kf => existsb (String.eqb y) (Entry.next (snd kf))
                             && reach_check fuel' l x (fst kf))
            (Log._entryIndex l)
      end)%bool.

Definition covered_check (l : Log.t) : bool :=
  forallb (fun ke =>
             existsb (fun h0 => reach_check (List.length (Log._entryIndex l)) l
                                  h0 (fst ke))
               (obj_keys (Log._headsIndex l)))
    (Log._entryIndex l).

Definition agree_check (l1 l2 : Log.t) : bool :=
  forallb (fun ke => match Log.get l2 (fst ke) with
                     | Some e' => entry_eqb (snd ke) e'
                     | None => true
                     end)
    (Log._entryIndex l1).

(** During the walk of [difference a b], a hash is accounted for when [b]
    has it, or it waits on the work list, or [a] has no entry for it, or
    its entry is in the result. *)
Definition accounted (a b : Log.t) (st : Log.walk) (p : string) : Prop :=
  Log.has b p = true \/ In p (Log.w_stack st) \/ Log.get a p = None
  \/ obj_get (Log.w_res st) p <> None.

Definition marks_accounted (a b : Log.t) (st : Log.walk) : Prop :=
  forall p, Log.is_traversed (Log.w_traversed st) p = true -> accounted a b st p.

Record walk_invariant (a b : Log.t) (st : Log.walk) : Prop := {
  res_sound :
    forall h e, obj_get (Log.w_res st) h = Some e ->
                Log.get a h = Some e /\ Log.get b h = None;
  res_next_accounted :
    forall h e p, obj_get (Log.w_res st) h = Some e -> In p (Entry.next e) ->
                  accounted a b st p;
  marks_are_accounted : marks_accounted a b st;
  heads_accounted :
    forall h, In h (obj_keys (Log._headsIndex a)) -> accounted a b st h;
  res_keys_unique : NoDup (obj_keys (Log.w_res st))
}.

(** During the walk of [difference a b], every entry of the result was
    reached from a head of [a] through entries that [b] does not hold,
    and every hash on the work list is a head of [a] or named in the
    [next] of an entry of the result. *)
Record walk_traced (a b : Log.t) (st : Log.walk) : Prop := {
  res_traced :
    forall h e, obj_get (Log.w_res st) h = Some e ->
      exists h0, In h0 (obj_keys (Log._headsIndex a))
                 /\ reach_outside a b h0 h;
  stack_traced :
    forall h, In h (Log.w_stack st) ->
      In h (obj_keys (Log._headsIndex a))
      \/ exists k e, obj_get (Log.w_res st) k = Some e /\ In h (Entry.next e)
}.

(** The log that [this.join(first).join(second)] leaves behind. *)
Definition joined_twice (canAppend verify : Entry.t -> bool)
    (this first second : Log.t) : Log.t :=
  joined canAppend verify (joined canAppend verify this first) second.

(** [this.join(other)] returns this log, as the join leaves it. *)
Definition join_returns (canAppend verify : Entry.t -> bool)
    (this other : Log.t) : Prop :=
  Log.join canAppend verify this (Log.IsLog other) None
  = (Returned (Some (joined canAppend verify this other)),
     joined canAppend verify this other).

(** What is left to mark during a walk. *)
Definition unmarked (pool : list string) (tr : obj bool) : nat :=
  List.length (filter (fun h => negb (Log.is_traversed tr h)) pool).

Definition index_hashes (this : Log.t) : list string :=
  nodup string_dec (map Entry.hash (obj_values (Log._entryIndex this))).

Definition traverse_measure (this : Log.t) (st : Log.traversal) : nat :=
  (List.length (Log.stack st) + unmarked (index_hashes this) (Log.traversed st))%nat.

Definition next_hashes (a : Log.t) : list string :=
  nodup string_dec (flat_map Entry.next (obj_values (Log._entryIndex a))).

Definition walk_measure (a : Log.t) (st : Log.walk) : nat :=
  (List.length (Log.w_stack st) + unmarked (next_hashes a) (Log.w_traversed st))%nat.

(** The next pointers append hands to [Entry.create]. *)
Definition append_nexts (this : Log.t) (pointerCount : option Z) : list string :=
  let this1 := Log.with_clock this (append_clock this) in
  obj_keys
    (obj_assign (obj_assign [] (Log._headsIndex this1))
       (Log.traverse this1 (Log.heads this1)
          (Some (Z.max (match pointerCount with Some n => n | None => 1 end)
                       (Z.of_nat (List.length (Log.heads this1))))))).

(** What the walk of [difference a b] has collected at any time: entries
    of [a], under their own hashes, that carry [b]'s id and that [b] does
    not have under the hash [a] holds them by. *)
Record walk_sound (a b : Log.t) (st : Log.walk) : Prop := {
  sound_keys_unique : NoDup (obj_keys (Log.w_res st));
  sound_entries :
    forall k e, obj_get (Log.w_res st) k = Some e ->
      Entry.hash e = k /\ Entry.id e = Log.id b
      /\ exists h, Log.get a h = Some e /\ Log.get b h = None
}.

(** The size argument of join, with its default. *)
Definition join_size (size : option Z) : Z :=
  match size with Some n => n | None => -1 end.

(** [h] is the hash of no entry of [entries]. *)
Definition dangling (entries : list Entry.t) (h : string) : bool :=
  negb (existsb (fun e => String.eqb (Entry.hash e) h) entries).

(** The entry with its [next] array reversed. *)
Definition next_reversed (e : Entry.t) : Entry.t :=
  Log.with_next e (rev (Entry.next e)).

(** ** Invariants of the traversal *)

(** An entry the traversal may meet: a root, or an entry of the index. *)
Definition known (this : Log.t) (roots : list Entry.t) (e : Entry.t) : Prop :=
  In e roots \/ exists h, Log.get this h = Some e.

Record traversal_invariant (this : Log.t) (roots : list Entry.t)
    (st : Log.traversal) : Prop := {
  result_keys_unique : NoDup (obj_keys (Log.result st));
  result_keyed :
    forall k e, obj_get (Log.result st) k = Some e ->
                Entry.hash e = k /\ known this roots e;
  stack_known : forall e, In e (Log.stack st) -> known this roots e;
  result_counted : Z.of_nat (List.length (Log.result st)) <= Log.count st
}.

(** A hash is settled when an entry is recorded under it or an entry with
    that hash waits on the stack. *)
Definition hash_settled (st : Log.traversal) (h : string) : Prop :=
  In h (obj_keys (Log.result st))
  \/ exists s, In s (Log.stack st) /\ Entry.hash s = h.

Definition marks_settled (st : Log.traversal) : Prop :=
  forall h, Log.is_traversed (Log.traversed st) h = true -> hash_settled st h.

Record traversal_progress (this : Log.t) (roots : list Entry.t)
    (st : Log.traversal) : Prop := {
  result_next_settled :
    forall k e p f, obj_get (Log.result st) k = Some e ->
                    In p (Entry.next e) -> Log.get this p = Some f ->
                    hash_settled st (Entry.hash f);
  traversed_settled : marks_settled st;
  roots_settled : forall r, In r roots -> hash_settled st (Entry.hash r)
}.

(** ** Sample logs *)

Module Examples.

Definition identA : Identity := mkIdentity "userA" "A".
Definition identB : Identity := mkIdentity "userB" "B".

Definition entry (ident : Identity) (hash : string) (nexts : list string)
    (time : Z) : Entry.t :=
  Entry.mk hash "X" (String.append "payload of " hash) nexts
    (Clock.mk (publicKey ident) time) ident (String.append "sig of " hash).

(** A chain written by A: a1 <- a2 <- a3. *)
Definition a1 := entry identA "Qma1" [] 1.
Definition a2 := entry identA "Qma2" ["Qma1"] 2.
Definition a3 := entry identA "Qma3" ["Qma2"] 3.

(** A chain written by B: b1 <- b2 <- b3. *)
Definition b1 := entry identB "Qmb1" [] 1.
Definition b2 := entry identB "Qmb2" ["Qmb1"] 2.
Definition b3 := entry identB "Qmb3" ["Qmb2"] 3.

Definition empty (ident : Identity) (logId : string) : Log.t :=
  Log.mk logId ident [] [] [] 0 (Clock.mk (publicKey ident) 0).

(** [new Log(ipfs, access, ident, logId, entries)] *)
Definition log_of (ident : Identity) (logId : string) (entries : list Entry.t)
  : Log.t :=
  match Log.new (Some tt) (Some tt) (Some ident) "1541203200000"
          (Some logId) (Some entries) None None with
  | Returned l => l
  | Threw _ => empty ident logId
  end.

Definition logA : Log.t := log_of identA "X" [a1; a2; a3].
Definition logB : Log.t := log_of identB "X" [b1; b2; b3].
(** A log that was loaded with only the entry b2 of B's chain. *)
Definition logB_partial : Log.t := log_of identB "X" [b2].
Definition logB_other_id : Log.t := log_of identB "Y" [b1; b2; b3].
Definition logEmpty : Log.t := log_of identA "X" [].
(** An older copy of B's log, complete up to b2. *)
Definition logB_old : Log.t := log_of identB "X" [b1; b2].
(** Logs loaded with the latest two entries of a chain; the first entry
    of the chain is in none of them. *)
Definition logB_recent : Log.t := log_of identB "X" [b2; b3].
Definition logA_recent : Log.t := log_of identA "X" [a2; a3].

(** [new Log(ipfs, access, identA, "X", [a1, a2, a3], undefined,
    new Clock("A", 2 ** 53))]: A's log with its clock at 2^53. *)
Definition logA_at_limit : Log.t :=
  match Log.new (Some tt) (Some tt) (Some identA) "1541203200000"
          (Some "X") (Some [a1; a2; a3]) None
          (Some (Clock.mk "A" (2 ^ 53))) with
  | Returned l => l
  | Threw _ => empty identA "X"
  end.

(** A chain c1 <- c2 <- c3, and a log that was handed c2 and c3 as its
    heads without any entries:
    [new Log(ipfs, access, identA, "X", [], [c2, c3])]. *)
Definition c1 := entry identB "Qmc1" [] 1.
Definition c2 := entry identA "Qmc2" ["Qmc1"] 2.
Definition c3 := entry identA "Qmc3" ["Qmc2"] 3.
Definition log_heads_only : Log.t :=
  match Log.new (Some tt) (Some tt) (Some identA) "1541203200000"
          (Some "X") (Some []) (Some [c2; c3]) None with
  | Returned l => l
  | Threw _ => empty identA "X"
  end.
Definition logC : Log.t := log_of identB "X" [c1].

(** Collaborators that always succeed; the block store addresses an entry
    by its payload. *)
Definition sign_ok (_ : Identity) (_ : Entry.unsigned) : option string :=
  Some "sig".
Definition put_ok (u : Entry.unsigned) (_ : string) : option string :=
  Some (String.append "Qm" (Entry.u_payload u)).
Definition allow_all (_ : Entry.t) : bool := true.
Definition deny_all (_ : Entry.t) : bool := false.
Definition deny_B (e : Entry.t) : bool :=
  negb (String.eqb (publicKey (Entry.identity e)) "B").


(** The entry that appending "hello" to [logA] creates. *)
Definition hello : Entry.t :=
  Entry.mk "Qmhello" "X" "hello" ["Qma3"] (Clock.mk "A" 4) identA "sig".

End Examples.

(** * Properties *)

(** ** Objects *)

Section ObjFacts.
  Context {V : Type}.
  Implicit Types (o : obj V) (k : string) (v : V).

Lemma obj_has_true o k : obj_has o k = true <-> obj_get o k <> None.
Proof. unfold obj_has. destruct (obj_get o k); split; congruence. Qed.

Lemma obj_has_false o k : obj_has o k = false <-> obj_get o k = None.
Proof. unfold obj_has. destruct (obj_get o k); split; congruence. Qed.

Lemma obj_get_update o k v k' :
  obj_get (obj_update o k v) k' =
  if (String.eqb k' k && obj_has o k)%bool then Some v else obj_get o k'.
Proof.
  unfold obj_has.
  induction o as [|[k0 v0] o IH]; simpl.
  - now rewrite andb_false_r.
  - destruct (String.eqb_spec k k0) as [->|Hk]; simpl.
    + destruct (String.eqb_spec k' k0); reflexivity.
    + rewrite IH.
      destruct (String.eqb_spec k' k0) as [->|Hk'].
      * destruct (String.eqb_spec k0 k); [congruence|reflexivity].
      * reflexivity.
Qed.

Lemma obj_get_insert o k v k' :
  obj_get o k = None ->
  obj_get (obj_insert o k v) k' =
  if String.eqb k' k then Some v else obj_get o k'.
Proof.
  induction o as [|[k0 v0] o IH]; simpl; intros Hk.
  - reflexivity.
  - destruct (String.eqb_spec k k0) as [->|Hkk0]; [discriminate|].
    destruct (key_before k k0); simpl.
    + reflexivity.
    + rewrite (IH Hk).
      destruct (String.eqb_spec k' k0) as [->|]; [|reflexivity].
      destruct (String.eqb_spec k0 k); [congruence|reflexivity].
Qed.

Lemma obj_get_set o k v k' :
  obj_get (obj_set o k v) k' =
  if String.eqb k' k then Some v else obj_get o k'.
Proof.
  unfold obj_set. destruct (obj_has o k) eqn:Hh.
  - rewrite obj_get_update, Hh, andb_true_r. reflexivity.
  - apply obj_get_insert. now apply obj_has_false.
Qed.

Lemma obj_get_set_same o k v : obj_get (obj_set o k v) k = Some v.
Proof. now rewrite obj_get_set, String.eqb_refl. Qed.

Lemma obj_get_set_other o k v k' :
  k' <> k -> obj_get (obj_set o k v) k' = obj_get o k'.
Proof.
  intros H. rewrite obj_get_set.
  destruct (String.eqb_spec k' k); [contradiction|reflexivity].
Qed.

Lemma obj_get_In o k v : obj_get o k = Some v -> In (k, v) o.
Proof.
  induction o as [|[k0 v0] o IH]; simpl; [discriminate|].
  destruct (String.eqb_spec k k0) as [->|].
  - intros [= ->]. now left.
  - intros H. right. now apply IH.
Qed.

Lemma obj_get_In_values o k v : obj_get o k = Some v -> In v (obj_values o).
Proof.
  intros H. apply obj_get_In in H.
  unfold obj_values. change v with (snd (k, v)). now apply in_map.
Qed.

Lemma obj_get_None_keys o k : obj_get o k = None <-> ~ In k (obj_keys o).
Proof.
  induction o as [|[k0 v0] o IH]; simpl.
  - tauto.
  - destruct (String.eqb_spec k k0) as [->|Hk].
    + split; [discriminate|]. intros H. exfalso. apply H. now left.
    + rewrite IH. split.
      * intros H [E|E]; [congruence|contradiction].
      * intros H E. apply H. now right.
Qed.

Lemma obj_In_get o k v :
  NoDup (obj_keys o) -> In (k, v) o -> obj_get o k = Some v.
Proof.
  induction o as [|[k0 v0] o IH]; simpl; [contradiction|].
  intros Hnd [E|Hin]; inversion Hnd as [|? ? Hnotin Hnd']; subst.
  - injection E as -> ->. now rewrite String.eqb_refl.
  - destruct (String.eqb_spec k k0) as [->|].
    + exfalso. apply Hnotin. unfold obj_keys.
      change k0 with (fst (k0, v)). now apply in_map.
    + now apply IH.
Qed.

End ObjFacts.

(** ** Sorting *)

Section SortFacts.
  Context {A : Type}.
  Variable comparefn : A -> A -> Z.

Lemma sort_insert_perm x l :
  Permutation (JsArray.sort_insert comparefn x l) (x :: l).
Proof.
  induction l as [|t r IH]; simpl.
  - apply Permutation_refl.
  - destruct (comparefn t x >? 0).
    + eapply Permutation_trans; [apply perm_skip, IH | apply perm_swap].
    + apply Permutation_refl.
Qed.

Lemma sort_fold_perm l acc :
  Permutation
    (fold_left (fun acc x => JsArray.sort_insert comparefn x acc) l acc)
    (l ++ acc).
Proof.
  revert acc. induction l as [|x l IH]; intros acc; simpl.
  - apply Permutation_refl.
  - eapply Permutation_trans; [apply IH|].
    eapply Permutation_trans;
      [apply Permutation_app_head, sort_insert_perm|].
    apply Permutation_sym, Permutation_middle.
Qed.

Lemma sort_perm l : Permutation (JsArray.sort comparefn l) l.
Proof.
  unfold JsArray.sort.
  eapply Permutation_trans; [apply Permutation_sym, Permutation_rev|].
  eapply Permutation_trans; [apply sort_fold_perm|].
  now rewrite app_nil_r.
Qed.

Lemma sort_In l x : In x (JsArray.sort comparefn l) <-> In x l.
Proof.
  split; apply Permutation_in;
    [apply sort_perm | apply Permutation_sym, sort_perm].
Qed.

Lemma sort_length l : List.length (JsArray.sort comparefn l) = List.length l.
Proof. apply Permutation_length, sort_perm. Qed.

(** When only positive answers move an element, the array ends up with
    no neighbours [t], [x] for which [comparefn(t, x) > 0]. *)
  Variable le : A -> A -> Prop.
  Hypothesis not_gt_le : forall t x, (comparefn t x >? 0) = false -> le t x.
  Hypothesis gt_le : forall t x, (comparefn t x >? 0) = true -> le x t.

Lemma sort_insert_HdRel a x l :
  le x a -> HdRel (fun u v => le v u) a l ->
  HdRel (fun u v => le v u) a (JsArray.sort_insert comparefn x l).
Proof.
  intros Hxa Hhd. destruct l as [|t r]; simpl.
  - now constructor.
  - destruct (comparefn t x >? 0); constructor; auto.
    now inversion Hhd.
Qed.

Lemma sort_insert_sorted x l :
  Sorted (fun u v => le v u) l ->
  Sorted (fun u v => le v u) (JsArray.sort_insert comparefn x l).
Proof.
  induction l as [|t r IH]; simpl; intros Hs.
  - repeat constructor.
  - inversion Hs as [|? ? Hr Hhd]; subst.
    destruct (comparefn t x >? 0) eqn:E.
    + constructor; [now apply IH|].
      apply sort_insert_HdRel; auto.
    + constructor; [assumption|]. constructor. now apply not_gt_le.
Qed.

Lemma sort_fold_sorted l acc :
  Sorted (fun u v => le v u) acc ->
  Sorted (fun u v => le v u)
    (fold_left (fun acc x => JsArray.sort_insert comparefn x acc) l acc).
Proof.
  revert acc. induction l as [|x l IH]; intros acc Hs; simpl; auto.
  apply IH. now apply sort_insert_sorted.
Qed.

Lemma Sorted_snoc (R : A -> A -> Prop) l a :
  Sorted R l -> (forall b, last l a = b -> l <> [] -> R b a) ->
  Sorted R (l ++ [a]).
Proof.
  induction l as [|b l IH]; simpl; intros Hs Hlast.
  - repeat constructor.
  - inversion Hs as [|? ? Hl Hhd]; subst.
    constructor.
    + apply IH; auto. intros c Hc Hne. apply Hlast; [|discriminate].
      destruct l; [contradiction|exact Hc].
    + destruct l as [|c l]; simpl.
      * constructor. apply Hlast; [reflexivity|discriminate].
      * constructor. now inversion Hhd.
Qed.

Lemma Sorted_rev (R : A -> A -> Prop) l :
  Sorted (fun u v => R v u) l -> Sorted R (rev l).
Proof.
  induction l as [|a l IH]; simpl; intros Hs.
  - constructor.
  - inversion Hs as [|? ? Hl Hhd]; subst.
    apply Sorted_snoc; [now apply IH|].
    intros b Hb Hne. destruct l as [|c l]; [contradiction|].
    inversion Hhd; subst. simpl.
    rewrite last_last. assumption.
Qed.

Lemma sort_sorted l : Sorted le (JsArray.sort comparefn l).
Proof.
  unfold JsArray.sort. apply Sorted_rev, sort_fold_sorted. constructor.
Qed.

End SortFacts.

(** ** findHeads *)

Lemma unreferenced_spec entries e :
  unreferenced entries e = true <->
  forall f, In f entries -> ~ In (Entry.hash e) (Entry.next f).
Proof.
  unfold unreferenced. rewrite forallb_forall.
  split; intros H f Hf.
  - specialize (H f Hf). apply negb_true_iff in H.
    intros Hin. apply not_true_iff_false in H. apply H.
    apply existsb_exists. exists (Entry.hash e). split; [assumption|].
    apply String.eqb_refl.
  - apply negb_true_iff, not_true_iff_false. intros Hex.
    apply existsb_exists in Hex. destruct Hex as [p [Hp Heq]].
    apply String.eqb_eq in Heq. subst p. now apply (H f Hf).
Qed.

Lemma set_all_get {V : Type} (v : V) (ks : list string) (o : obj V) k :
  obj_get (fold_left (fun r e => obj_set r e v) ks o) k <> None <->
  obj_get o k <> None \/ In k ks.
Proof.
  revert o. induction ks as [|k0 ks IH]; intros o; simpl.
  - tauto.
  - rewrite IH, obj_get_set.
    destruct (String.eqb_spec k k0) as [->|Hne].
    + split; [intros _; right; now left | intros _; left; discriminate].
    + split; [intros [H|H]; auto | intros [H|[H|H]]; auto; congruence].
Qed.

Lemma indexReducer_get entries (o : obj string) k :
  obj_get (fold_left Log.indexReducer entries o) k <> None <->
  obj_get o k <> None \/ exists f, In f entries /\ In k (Entry.next f).
Proof.
  revert o. induction entries as [|f entries IH]; intros o; simpl.
  - split; [auto | intros [H|[f [[] _]]]; exact H].
  - rewrite IH. unfold Log.indexReducer. rewrite set_all_get.
    split.
    + intros [[H|H]|[g [Hg Hk]]]; eauto.
    + intros [H|[g [[->|Hg] Hk]]]; eauto.
Qed.

Lemma findHeads_filter entries :
  Log.findHeads entries =
  JsArray.sort Log.compareIds (filter (unreferenced entries) entries).
Proof.
  unfold Log.findHeads. f_equal. apply filter_ext. intros e.
  destruct (unreferenced entries e) eqn:U.
  - destruct (obj_get _ _) eqn:G; [|reflexivity].
    exfalso.
    assert (H : obj_get (fold_left Log.indexReducer entries []) (Entry.hash e) <> None)
      by congruence.
    apply indexReducer_get in H. destruct H as [H|[f [Hf Hk]]].
    + now apply H.
    + rewrite unreferenced_spec in U. exact (U f Hf Hk).
  - destruct (obj_get _ _) eqn:G; [reflexivity|].
    exfalso. apply not_true_iff_false in U. apply U.
    apply unreferenced_spec. intros f Hf Hk.
    assert (H : obj_get (fold_left Log.indexReducer entries []) (Entry.hash e) <> None).
    { apply indexReducer_get. right. eauto. }
    congruence.
Qed.

Lemma findHeads_In entries e :
  In e (Log.findHeads entries) <->
  In e entries /\ forall f, In f entries -> ~ In (Entry.hash e) (Entry.next f).
Proof.
  rewrite findHeads_filter, sort_In, filter_In, unreferenced_spec. tauto.
Qed.

(** C7: [findHeads] does not sort its result by [clock.id] in descending
    order.  Handed two entries that no entry refers to, with clock ids "A"
    and "B" in that order, it returns them as A, B.  [compareIds] answers
    true or false where [sort] expects a negative, zero or positive
    number, so no pair is ever reported as being in the wrong order the
    other way round. *)
Theorem findHeads_not_descending :
  clock_id Examples.a1 = "A" /\ clock_id Examples.b1 = "B"
  /\ Log.compareIds Examples.a1 Examples.b1 = 0
  /\ Log.compareIds Examples.b1 Examples.a1 = 1
  /\ Log.findHeads [Examples.a1; Examples.b1] = [Examples.a1; Examples.b1]
  /\ ~ descending_ids (Log.findHeads [Examples.a1; Examples.b1]).
Proof.
  do 5 (split; [reflexivity|]).
  intros H. change (Log.findHeads [Examples.a1; Examples.b1])
    with [Examples.a1; Examples.b1] in H.
  inversion H as [|? ? _ Hhd]; subst.
  inversion Hhd as [|? ? Hle]; subst.
  discriminate Hle.
Qed.

(** ** join: the id check and the two gates *)

(** C5: joining a log whose id differs returns without an error and
    leaves every part of this log as it was. *)
Theorem join_other_id_returns_silently
    (canAppend verify : Entry.t -> bool) (this other : Log.t) (size : option Z) :
  Log.id other <> Log.id this ->
  Log.join canAppend verify this (Log.IsLog other) size = (Returned None, this).
Proof.
  intros Hid. unfold Log.join.
  destruct (String.eqb_spec (Log.id this) (Log.id other)) as [E|E].
  - congruence.
  - reflexivity.
Qed.

Lemma join_other_id_returns_silently_witness :
  Log.join Examples.allow_all Examples.allow_all Examples.logA
    (Log.IsLog Examples.logB_other_id) (Some 2)
  = (Returned None, Examples.logA).
Proof.
  apply (join_other_id_returns_silently Examples.allow_all Examples.allow_all
           Examples.logA Examples.logB_other_id (Some 2)).
  discriminate.
Defined.

(** C1: when the access controller denies an entry of the difference, or
    an entry of the difference has an invalid signature, join throws and
    the log, with all its indices, its length and its clock, is the log
    from before the call. *)
Theorem join_gate_failure_leaves_log_unchanged
    (canAppend verify : Entry.t -> bool) (this other : Log.t) (size : option Z) :
  Log.id other = Log.id this ->
  (exists E, In E (obj_values (Log.difference other this))
             /\ (canAppend E = false \/ verify E = false)) ->
  exists err,
    Log.join canAppend verify this (Log.IsLog other) size = (Threw err, this).
Proof.
  intros Hid [E [HE Hbad]]. unfold Log.join.
  rewrite Hid, String.eqb_refl. simpl.
  destruct (find (fun e => negb (canAppend e)) _) eqn:F1.
  - eexists. reflexivity.
  - destruct (find (fun e => negb (verify e)) _) eqn:F2.
    + eexists. reflexivity.
    + exfalso.
      pose proof (find_none _ _ F1 E HE) as H1.
      pose proof (find_none _ _ F2 E HE) as H2.
      simpl in H1, H2. apply negb_false_iff in H1, H2.
      destruct Hbad; congruence.
Qed.

Lemma join_gate_failure_leaves_log_unchanged_witness :
  exists err,
    Log.join Examples.deny_B Examples.allow_all Examples.logA
      (Log.IsLog Examples.logB) None = (Threw err, Examples.logA).
Proof.
  apply (join_gate_failure_leaves_log_unchanged Examples.deny_B
           Examples.allow_all Examples.logA Examples.logB None).
  - reflexivity.
  - exists Examples.b3. split.
    + vm_compute. tauto.
    + left. reflexivity.
Defined.

(** ** append *)

Lemma maxClockTimeReducer_ge_init l z :
  z <= fold_left Log.maxClockTimeReducer l z.
Proof.
  revert z. induction l as [|e l IH]; intros z; simpl; [lia|].
  specialize (IH (Log.maxClockTimeReducer z e)).
  unfold Log.maxClockTimeReducer in *. lia.
Qed.

Lemma maxClockTimeReducer_ge l z e :
  In e l -> clock_time e <= fold_left Log.maxClockTimeReducer l z.
Proof.
  revert z. induction l as [|x l IH]; intros z; simpl; [contradiction|].
  intros [->|Hin].
  - pose proof (maxClockTimeReducer_ge_init l (Log.maxClockTimeReducer z e)) as H.
    unfold Log.maxClockTimeReducer, clock_time in *. lia.
  - now apply IH.
Qed.

Lemma heads_In this e :
  In e (Log.heads this) <-> In e (obj_values (Log._headsIndex this)).
Proof. unfold Log.heads. rewrite <- in_rev. apply sort_In. Qed.

(** Adding 1 is exact while the sum stays within 2^53. *)
Lemma add_one_exact x :
  0 <= x < 2 ^ 53 -> JsNumber.add x 1 = x + 1.
Proof.
  intros Hx. unfold JsNumber.add, JsNumber.round.
  destruct (Z.leb_spec (Z.abs (x + 1)) (2 ^ 53)); [reflexivity|lia].
Qed.

(** At 2^53 adding 1 changes nothing. *)
Lemma add_one_at_limit : JsNumber.add (2 ^ 53) 1 = 2 ^ 53.
Proof. reflexivity. Qed.

Lemma maxClockTimeReducer_lt l z bound :
  z < bound -> (forall e, In e l -> clock_time e < bound) ->
  fold_left Log.maxClockTimeReducer l z < bound.
Proof.
  revert z. induction l as [|e l IH]; intros z Hz Hl; simpl; [exact Hz|].
  apply IH.
  - specialize (Hl e (or_introl eq_refl)).
    unfold Log.maxClockTimeReducer, clock_time in *. lia.
  - intros x Hx. apply Hl. now right.
Qed.

Lemma append_inv sign put canAppend this data pointerCount r this' :
  Log.append sign put canAppend this data pointerCount = (r, this') ->
  exists nexts,
    match Entry.create sign put (Log._identity this) (Log.id this) data nexts
            (append_clock this) with
    | inr e => r = Threw (EntryCreateFailed e)
               /\ this' = Log.with_clock this (append_clock this)
    | inl entry =>
        if canAppend entry then
          r = Returned entry
          /\ this' = Log.mk (Log._id this) (Log._identity this)
                       (obj_set (Log._entryIndex this) (Entry.hash entry) entry)
                       (obj_set [] (Entry.hash entry) entry)
                       (fold_left (fun n e => obj_set n e (Entry.hash entry))
                          nexts (Log._nextsIndex this))
                       (Log._length this + 1) (append_clock this)
        else
          r = Threw (CouldNotAppend (identity_id (Log._identity this)))
          /\ this' = Log.with_clock this (append_clock this)
    end.
Proof.
  unfold Log.append. cbv zeta.
  match goal with
  | |- context [Entry.create _ _ _ _ _ ?n _] => intros H; exists n
  end.
  change (Log.with_clock this
            (Clock.mk (Clock.id (Log.clock this))
               (JsNumber.add
                  (Z.max (Clock.time (Log.clock this))
                     (fold_left Log.maxClockTimeReducer (Log.heads this) 0))
                  1)))
    with (Log.with_clock this (append_clock this)) in *.
  change (Log.clock (Log.with_clock this (append_clock this)))
    with (append_clock this) in *.
  change (Log.id (Log.with_clock this (append_clock this)))
    with (Log.id this) in *.
  change (Log._identity (Log.with_clock this (append_clock this)))
    with (Log._identity this) in *.
  destruct (Entry.create _ _ _ _ _ _ _) as [entry|e].
  - destruct (canAppend entry); simpl in H; injection H as <- <-; auto.
  - injection H as <- <-; auto.
Qed.

(** C2, as the code has it: when append fails (entry creation fails at
    signing or at the block store, or the access controller refuses the
    entry), entryIndex, headsIndex, nextsIndex and length are what they
    were before the call; the clock keeps its id, and its time has been
    moved to the greatest of the old clock time and the head times plus 1
    as numbers add, which is one more than that greatest time whenever it
    is below 2^53. *)
Theorem append_failure_keeps_indices
    (sign : Identity -> Entry.unsigned -> option string)
    (put : Entry.unsigned -> string -> option string)
    (canAppend : Entry.t -> bool)
    (this : Log.t) (data : string) (pointerCount : option Z)
    (err : error) (this' : Log.t) :
  Log.append sign put canAppend this data pointerCount = (Threw err, this') ->
  Log._entryIndex this' = Log._entryIndex this
  /\ Log._headsIndex this' = Log._headsIndex this
  /\ Log._nextsIndex this' = Log._nextsIndex this
  /\ Log._length this' = Log._length this
  /\ Clock.id (Log._clock this') = Clock.id (Log._clock this)
  /\ Clock.time (Log._clock this') =
       JsNumber.add
         (Z.max (Clock.time (Log._clock this))
                (fold_left Log.maxClockTimeReducer (Log.heads this) 0))
         1
  /\ (Z.max (Clock.time (Log._clock this))
            (fold_left Log.maxClockTimeReducer (Log.heads this) 0) < 2 ^ 53 ->
      Clock.time (Log._clock this') =
        Z.max (Clock.time (Log._clock this))
              (fold_left Log.maxClockTimeReducer (Log.heads this) 0) + 1)
  /\ (err = EntryCreateFailed Entry.SigningFailed
      \/ err = EntryCreateFailed Entry.StorageFailed
      \/ err = CouldNotAppend (identity_id (Log._identity this))).
Proof.
  intros H. apply append_inv in H. destruct H as [nexts H].
  assert (Hexact :
    Z.max (Clock.time (Log._clock this))
          (fold_left Log.maxClockTimeReducer (Log.heads this) 0) < 2 ^ 53 ->
    Clock.time (Log._clock (Log.with_clock this (append_clock this))) =
      Z.max (Clock.time (Log._clock this))
            (fold_left Log.maxClockTimeReducer (Log.heads this) 0) + 1).
  { intros Hlt. simpl. unfold append_time, Log.clock.
    apply add_one_exact.
    pose proof (maxClockTimeReducer_ge_init (Log.heads this) 0). lia. }
  destruct (Entry.create _ _ _ _ _ _ _) as [entry|e].
  - destruct (canAppend entry); destruct H as [Hr ->]; [discriminate|].
    injection Hr as ->.
    do 6 (split; [reflexivity|]). split; [exact Hexact|]. auto.
  - destruct H as [Hr ->]. injection Hr as ->.
    do 6 (split; [reflexivity|]). split; [exact Hexact|].
    destruct e; auto.
Qed.

Lemma append_failure_keeps_indices_witness :
  Log._entryIndex (snd (Log.append Examples.sign_ok Examples.put_ok
                          Examples.deny_all Examples.logA "hello" None))
  = Log._entryIndex Examples.logA.
Proof.
  refine (proj1 (append_failure_keeps_indices Examples.sign_ok Examples.put_ok
                   Examples.deny_all Examples.logA "hello" None
                   (CouldNotAppend "userA") _ _)).
  reflexivity.
Defined.

(** C2, as the specification words it, fails: a refused append leaves the
    clock of the sample log at time 4, where it was 3 before the call. *)
Lemma append_denied_advances_clock :
  fst (Log.append Examples.sign_ok Examples.put_ok Examples.deny_all
         Examples.logA "hello" None) = Threw (CouldNotAppend "userA")
  /\ Log._clock Examples.logA = Clock.mk "A" 3
  /\ Log._clock (snd (Log.append Examples.sign_ok Examples.put_ok
                        Examples.deny_all Examples.logA "hello" None))
     = Clock.mk "A" 4
  /\ Log._clock (snd (Log.append Examples.sign_ok Examples.put_ok
                        Examples.deny_all Examples.logA "hello" None))
     <> Log._clock Examples.logA.
Proof.
  repeat split; try reflexivity. vm_compute. discriminate.
Qed.




(** C10: a successful append returns the entry that was created for the
    payload, with the log's new clock, and [get] finds that entry under
    its hash in the log. *)
Theorem append_returns_created_entry
    (sign : Identity -> Entry.unsigned -> option string)
    (put : Entry.unsigned -> string -> option string)
    (canAppend : Entry.t -> bool)
    (this : Log.t) (data : string) (pointerCount : option Z)
    (entry : Entry.t) (this' : Log.t) :
  Log.append sign put canAppend this data pointerCount = (Returned entry, this') ->
  Entry.create sign put (Log._identity this) (Log.id this) data
    (Entry.next entry) (Log.clock this') = inl entry
  /\ Entry.payload entry = data
  /\ Entry.clock entry = Log.clock this'
  /\ Log.get this' (Entry.hash entry) = Some entry.
Proof.
  intros H. apply append_inv in H. destruct H as [nexts H].
  destruct (Entry.create _ _ _ _ _ _ _) as [e|e] eqn:C;
    [|destruct H; discriminate].
  destruct (canAppend e); destruct H as [Hr ->]; [|discriminate].
  injection Hr as Hr. subst e.
  assert (Hfields : Entry.next entry = nexts /\ Entry.payload entry = data
                    /\ Entry.clock entry = append_clock this).
  { unfold Entry.create in C.
    destruct (sign _ _); [|discriminate].
    destruct (put _ _); [|discriminate].
    injection C as <-. auto. }
  destruct Hfields as [-> [-> ->]].
  unfold Log.get, Log.clock. simpl.
  rewrite obj_get_set_same. auto.
Qed.

Lemma append_returns_created_entry_witness :
  Log.get (snd (Log.append Examples.sign_ok Examples.put_ok
                  Examples.allow_all Examples.logA "hello" None))
    (Entry.hash Examples.hello)
  = Some Examples.hello.
Proof.
  refine (proj2 (proj2 (proj2
           (append_returns_created_entry Examples.sign_ok
              Examples.put_ok Examples.allow_all Examples.logA "hello"
              None Examples.hello _ _)))).
  reflexivity.
Defined.

(** ** The loops run to their exit *)

Section Marks.
  Variable pool : list string.
  Hypothesis pool_nodup : NoDup pool.

Lemma is_traversed_set tr h k :
  Log.is_traversed (obj_set tr h true) k =
  if String.eqb k h then true else Log.is_traversed tr k.
Proof.
  unfold Log.is_traversed. rewrite obj_get_set.
  now destruct (String.eqb k h).
Qed.

Lemma filter_drop_one (f g : string -> bool) (l : list string) h :
  NoDup l -> In h l -> f h = true -> g h = false ->
  (forall k, k <> h -> g k = f k) ->
  (List.length (filter g l) + 1 = List.length (filter f l))%nat.
Proof.
  intros Hnd Hin Hf Hg Hext.
  induction l as [|x l IH]; [contradiction|].
  inversion Hnd as [|? ? Hx Hnd']; subst. simpl.
  destruct Hin as [->|Hin].
  - rewrite Hf, Hg. simpl.
    rewrite (filter_ext_in g f l); [lia|].
    intros k Hk. apply Hext. intros ->. contradiction.
  - assert (x <> h) by (intros ->; contradiction).
    rewrite (Hext x) by assumption.
    destruct (f x); simpl; rewrite <- (IH Hnd' Hin); lia.
Qed.

Lemma filter_shrinks (f g : string -> bool) (l : list string) :
  (forall k, g k = true -> f k = true) ->
  (List.length (filter g l) <= List.length (filter f l))%nat.
Proof.
  intros Himp. induction l as [|x l IH]; simpl; [lia|].
  destruct (g x) eqn:G.
  - rewrite (Himp x G). simpl. lia.
  - destruct (f x); simpl; lia.
Qed.

Lemma unmarked_set_new tr h :
  In h pool -> Log.is_traversed tr h = false ->
  (unmarked pool (obj_set tr h true) + 1 = unmarked pool tr)%nat.
Proof.
  intros Hin Hnot. unfold unmarked.
  apply filter_drop_one with (h := h); auto.
  - now rewrite Hnot.
  - now rewrite is_traversed_set, String.eqb_refl.
  - intros k Hk. rewrite is_traversed_set.
    destruct (String.eqb_spec k h); [contradiction|reflexivity].
Qed.

Lemma unmarked_set_le tr h :
  (unmarked pool (obj_set tr h true) <= unmarked pool tr)%nat.
Proof.
  unfold unmarked. apply filter_shrinks. intros k.
  rewrite is_traversed_set. destruct (String.eqb k h); [discriminate|auto].
Qed.

Lemma unmarked_le_pool tr : (unmarked pool tr <= List.length pool)%nat.
Proof. unfold unmarked. apply filter_length_le. Qed.

End Marks.

Lemma get_index_hashes this h e :
  Log.get this h = Some e -> In (Entry.hash e) (index_hashes this).
Proof.
  intros H. apply nodup_In, in_map. eapply obj_get_In_values, H.
Qed.

Lemma filter_defined_In {A : Type} (l : list (option A)) a :
  In a (filter_defined l) <-> In (Some a) l.
Proof.
  unfold filter_defined. rewrite in_flat_map. split.
  - intros [[x|] [Hin Hx]]; simpl in Hx; [|contradiction].
    destruct Hx as [->|[]]. assumption.
  - intros H. exists (Some a). split; [assumption|now left].
Qed.

Lemma addToStack_measure this st e :
  In (Entry.hash e) (index_hashes this) ->
  traverse_measure this (Log.addToStack st e) = traverse_measure this st.
Proof.
  intros Hin. unfold Log.addToStack, traverse_measure.
  destruct (Log.is_traversed _ _) eqn:T; [reflexivity|]. simpl.
  rewrite length_rev, sort_length. simpl.
  pose proof (unmarked_set_new (index_hashes this)
                (NoDup_nodup _ _) (Log.traversed st) (Entry.hash e) Hin T).
  lia.
Qed.

Lemma addToStack_fold_measure this es st :
  (forall e, In e es -> In (Entry.hash e) (index_hashes this)) ->
  traverse_measure this (fold_left Log.addToStack es st) = traverse_measure this st.
Proof.
  revert st. induction es as [|e es IH]; intros st Hes; simpl; [reflexivity|].
  rewrite IH by (intros; apply Hes; now right).
  apply addToStack_measure, Hes. now left.
Qed.

Lemma traverse_body_measure this st :
  Log.stack st <> [] ->
  (traverse_measure this (Log.traverse_body this st) + 1 = traverse_measure this st)%nat.
Proof.
  intros Hne. unfold Log.traverse_body.
  destruct (Log.stack st) as [|e rest] eqn:S; [contradiction|].
  rewrite addToStack_fold_measure.
  - unfold traverse_measure. simpl. rewrite S. simpl. lia.
  - intros x Hx. apply filter_defined_In, in_map_iff in Hx.
    destruct Hx as [h [Hh _]]. eapply get_index_hashes, Hh.
Qed.

Lemma traverse_loop_measure this amount fuel st :
  (traverse_measure this st <= fuel)%nat ->
  Log.traverse_continue amount (Log.traverse_loop fuel this amount st) = false.
Proof.
  revert st. induction fuel as [|fuel IH]; intros st Hm; simpl.
  - unfold Log.traverse_continue. unfold traverse_measure in Hm.
    destruct (Log.stack st); simpl in *; [reflexivity|lia].
  - destruct (Log.traverse_continue amount st) eqn:C; [|exact C].
    apply IH.
    assert (Hne : Log.stack st <> []).
    { unfold Log.traverse_continue in C. destruct (Log.stack st); [discriminate|discriminate]. }
    pose proof (traverse_body_measure this st Hne). lia.
Qed.

(** The traversal never runs out of passes: the state [traverse] reads its
    result from is one in which the condition of the [while] loop is false. *)
Lemma traverse_loop_exits this rootEntries amount :
  Log.traverse_continue amount (Log.traverse_run this rootEntries amount) = false.
Proof.
  unfold Log.traverse_run. apply traverse_loop_measure.
  unfold traverse_measure, Log.traverse_fuel. simpl.
  rewrite length_rev, sort_length.
  pose proof (unmarked_le_pool (index_hashes this) []) as H1.
  assert (H2 : (List.length (index_hashes this) <= List.length (Log._entryIndex this))%nat).
  { unfold index_hashes.
    eapply Nat.le_trans; [apply NoDup_incl_length|].
    - apply NoDup_nodup.
    - intros x Hx. apply nodup_In in Hx. exact Hx.
    - unfold obj_values. now rewrite !length_map. }
  lia.
Qed.

Lemma pushToStack_measure a b st h :
  In h (next_hashes a) ->
  walk_measure a (Log.pushToStack b st h) = walk_measure a st.
Proof.
  intros Hin. unfold Log.pushToStack, walk_measure.
  destruct (Log.is_traversed _ _) eqn:T; simpl; [reflexivity|].
  destruct (Log.has b h); simpl; [reflexivity|].
  rewrite length_app. simpl.
  pose proof (unmarked_set_new (next_hashes a) (NoDup_nodup _ _)
                (Log.w_traversed st) h Hin T).
  lia.
Qed.

Lemma pushToStack_fold_measure a b hs st :
  (forall h, In h hs -> In h (next_hashes a)) ->
  walk_measure a (fold_left (Log.pushToStack b) hs st) = walk_measure a st.
Proof.
  revert st. induction hs as [|h hs IH]; intros st Hhs; simpl; [reflexivity|].
  rewrite IH by (intros; apply Hhs; now right).
  apply pushToStack_measure, Hhs. now left.
Qed.

Lemma difference_body_measure a b st :
  Log.w_stack st <> [] ->
  (walk_measure a (Log.difference_body a b st) + 1 <= walk_measure a st)%nat.
Proof.
  intros Hne. unfold Log.difference_body.
  destruct (Log.w_stack st) as [|h rest] eqn:S; [contradiction|].
  assert (Hpop : (walk_measure a (Log.mkWalk rest (Log.w_traversed st) (Log.w_res st)) + 1
                  = walk_measure a st)%nat).
  { unfold walk_measure. simpl. rewrite S. simpl. lia. }
  destruct (Log.get a h) as [entry|] eqn:G; [|lia].
  destruct (negb (Log.has b h) && String.eqb (Entry.id entry) (Log.id b))%bool; [|lia].
  rewrite pushToStack_fold_measure.
  - unfold walk_measure in *. simpl in *.
    pose proof (unmarked_set_le (next_hashes a) (Log.w_traversed st) (Entry.hash entry)).
    lia.
  - intros p Hp. apply nodup_In, in_flat_map. exists entry.
    split; [eapply obj_get_In_values, G | exact Hp].
Qed.

Lemma difference_loop_measure a b fuel st :
  (walk_measure a st <= fuel)%nat ->
  Log.w_stack (Log.difference_loop fuel a b st) = [].
Proof.
  revert st. induction fuel as [|fuel IH]; intros st Hm; simpl.
  - unfold walk_measure in Hm.
    destruct (Log.w_stack st); simpl in *; [reflexivity|lia].
  - destruct (Log.w_stack st) as [|h rest] eqn:S; [exact S|].
    apply IH.
    assert (Hne : Log.w_stack st <> []) by (rewrite S; discriminate).
    pose proof (difference_body_measure a b st Hne). lia.
Qed.

Lemma difference_fuel_enough a :
  (walk_measure a (Log.mkWalk (obj_keys (Log._headsIndex a)) [] [])
   <= Log.difference_fuel a)%nat.
Proof.
  unfold walk_measure, Log.difference_fuel. simpl.
  pose proof (unmarked_le_pool (next_hashes a) []) as H1.
  assert (H2 : (List.length (next_hashes a)
                <= List.length (flat_map Entry.next (obj_values (Log._entryIndex a))))%nat).
  { unfold next_hashes. apply NoDup_incl_length; [apply NoDup_nodup|].
    intros x Hx. now apply nodup_In in Hx. }
  lia.
Qed.

(** The walk of [difference] never runs out of passes: it ends with an
    empty work list. *)
Lemma difference_loop_exits a b :
  Log.w_stack (Log.difference_loop (Log.difference_fuel a) a b
                 (Log.mkWalk (obj_keys (Log._headsIndex a)) [] [])) = [].
Proof. apply difference_loop_measure, difference_fuel_enough. Qed.

(** ** Inputs on which the code departs from its specification *)

(** C4: [join(other, 0)] keeps all six entries of the merged log, because
    [slice(-0)] is [slice(0)]; the specification asks for the last zero
    entries. With size 2 the last two entries are kept. *)
Lemma join_size_zero_keeps_every_entry :
  obj_keys (Log._entryIndex
              (snd (Log.join Examples.allow_all Examples.allow_all Examples.logA
                      (Log.IsLog Examples.logB) (Some 0))))
  = ["Qma1"; "Qmb1"; "Qma2"; "Qmb2"; "Qma3"; "Qmb3"]
  /\ Log._length
       (snd (Log.join Examples.allow_all Examples.allow_all Examples.logA
               (Log.IsLog Examples.logB) (Some 0))) = 6
  /\ obj_keys (Log._entryIndex
                 (snd (Log.join Examples.allow_all Examples.allow_all Examples.logA
                         (Log.IsLog Examples.logB) (Some 2))))
     = ["Qma3"; "Qmb3"].
Proof. repeat split; reflexivity. Qed.

(** C8: started from the roots a2 and a1, where a2 names a1 in its [next],
    the walk takes three entries off the stack although only two entries
    can be reached, so a1 is counted twice; and with the roots a3 and a2
    and amount 3 the result holds two entries although three can be
    reached. *)
Lemma traverse_counts_root_twice :
  Log.count (Log.traverse_run Examples.logA [Examples.a2; Examples.a1] (-1)) = 3
  /\ obj_keys (Log.traverse Examples.logA [Examples.a2; Examples.a1] None)
     = ["Qma2"; "Qma1"]
  /\ obj_keys (Log.traverse Examples.logA [Examples.a3; Examples.a2] (Some 3))
     = ["Qma3"; "Qma2"]
  /\ Log.get Examples.logA "Qma1" = Some Examples.a1.
Proof. repeat split; reflexivity. Qed.

(** C9: a log constructed from the array [a1, a1] has length 2 while its
    entryIndex has the single key of a1. *)
Lemma constructor_length_counts_duplicates :
  Log.new (Some tt) (Some tt) (Some Examples.identA) "1541203200000" (Some "X")
    (Some [Examples.a1; Examples.a1]) None None
  = Returned (Examples.log_of Examples.identA "X" [Examples.a1; Examples.a1])
  /\ Log.length (Examples.log_of Examples.identA "X" [Examples.a1; Examples.a1]) = 2
  /\ obj_keys (Log._entryIndex
                 (Examples.log_of Examples.identA "X" [Examples.a1; Examples.a1]))
     = ["Qma1"].
Proof. repeat split; reflexivity. Qed.

(** ** Objects as maps: keys, assign, values *)

Section ObjMapFacts.
  Context {V : Type}.
  Implicit Types (o s t : obj V) (k : string) (v : V).

Lemma obj_keys_update o k v : obj_keys (obj_update o k v) = obj_keys o.
Proof.
  induction o as [|[k0 v0] o IH]; simpl; [reflexivity|].
  destruct (String.eqb k k0); simpl; [reflexivity|]. now rewrite IH.
Qed.

Lemma obj_keys_insert o k v :
  Permutation (obj_keys (obj_insert o k v)) (k :: obj_keys o).
Proof.
  induction o as [|[k0 v0] o IH]; simpl; [apply Permutation_refl|].
  destruct (key_before k k0); simpl.
  - apply Permutation_refl.
  - eapply Permutation_trans; [apply perm_skip, IH|apply perm_swap].
Qed.

Lemma obj_set_NoDup o k v :
  NoDup (obj_keys o) -> NoDup (obj_keys (obj_set o k v)).
Proof.
  intros Hnd. unfold obj_set. destruct (obj_has o k) eqn:Hh.
  - now rewrite obj_keys_update.
  - eapply Permutation_NoDup; [apply Permutation_sym, obj_keys_insert|].
    constructor; [|assumption].
    apply obj_get_None_keys. now apply obj_has_false.
Qed.

Lemma obj_assign_NoDup t s :
  NoDup (obj_keys t) -> NoDup (obj_keys (obj_assign t s)).
Proof.
  unfold obj_assign. revert t.
  induction s as [|[k0 v0] s IH]; intros t Hnd; simpl; [assumption|].
  apply IH. now apply obj_set_NoDup.
Qed.

Lemma obj_get_assign t s k :
  NoDup (obj_keys s) ->
  obj_get (obj_assign t s) k =
  match obj_get s k with Some v => Some v | None => obj_get t k end.
Proof.
  unfold obj_assign. revert t.
  induction s as [|[k0 v0] s IH]; intros t Hnd; simpl; [reflexivity|].
  inversion Hnd as [|? ? Hnotin Hnd']; subst.
  rewrite (IH _ Hnd'), obj_get_set.
  destruct (String.eqb_spec k k0) as [->|Hne]; [|reflexivity].
  apply obj_get_None_keys in Hnotin. now rewrite Hnotin.
Qed.

Lemma obj_values_In o v :
  NoDup (obj_keys o) ->
  (In v (obj_values o) <-> exists k, obj_get o k = Some v).
Proof.
  intros Hnd. split.
  - intros H. apply in_map_iff in H. destruct H as [[k v'] [E Hin]].
    simpl in E. subst v'. exists k. now apply obj_In_get.
  - intros [k H]. eapply obj_get_In_values, H.
Qed.

Lemma obj_get_keys o k : obj_get o k <> None <-> In k (obj_keys o).
Proof.
  pose proof (obj_get_None_keys o k) as H.
  destruct (obj_get o k); split; intros H1.
  - destruct (in_dec string_dec k (obj_keys o)) as [Hin|Hin]; [assumption|].
    apply H in Hin. discriminate.
  - discriminate.
  - contradiction.
  - intros _. apply H in H1; [assumption|reflexivity].
Qed.

End ObjMapFacts.

Lemma uniqueEntries_get l (o : obj Entry.t) h e :
  obj_get (fold_left Log.uniqueEntriesReducer l o) h = Some e ->
  obj_get o h = Some e \/ (In e l /\ Entry.hash e = h).
Proof.
  revert o. induction l as [|x l IH]; intros o H; simpl in *; [now left|].
  apply IH in H. destruct H as [H|[H1 H2]]; [|right; auto].
  unfold Log.uniqueEntriesReducer in H. rewrite obj_get_set in H.
  destruct (String.eqb_spec h (Entry.hash x)) as [->|Hne]; [|now left].
  injection H as <-. right. auto.
Qed.

Lemma uniqueEntries_keeps l (o : obj Entry.t) k :
  obj_get o k <> None ->
  obj_get (fold_left Log.uniqueEntriesReducer l o) k <> None.
Proof.
  revert o. induction l as [|y l IH]; intros o Hk; simpl; [assumption|].
  apply IH. unfold Log.uniqueEntriesReducer. rewrite obj_get_set.
  destruct (String.eqb k (Entry.hash y)); [discriminate|assumption].
Qed.

Lemma uniqueEntries_has l (o : obj Entry.t) e :
  In e l -> obj_get (fold_left Log.uniqueEntriesReducer l o) (Entry.hash e) <> None.
Proof.
  revert o. induction l as [|x l IH]; intros o Hin; simpl in *; [contradiction|].
  destruct Hin as [->|Hin]; [|now apply IH].
  apply uniqueEntries_keeps. unfold Log.uniqueEntriesReducer.
  rewrite obj_get_set_same. discriminate.
Qed.

Lemma uniqueEntries_NoDup l (o : obj Entry.t) :
  NoDup (obj_keys o) -> NoDup (obj_keys (fold_left Log.uniqueEntriesReducer l o)).
Proof.
  revert o. induction l as [|x l IH]; intros o H; simpl; [assumption|].
  apply IH, obj_set_NoDup, H.
Qed.

(** ** difference *)

Section Difference.
  Variables a b : Log.t.
  Hypothesis a_keys : forall h e, Log.get a h = Some e -> Entry.hash e = h.
  Hypothesis a_ids : forall h e, Log.get a h = Some e -> Entry.id e = Log.id b.

Lemma pushToStack_res st h : Log.w_res (Log.pushToStack b st h) = Log.w_res st.
Proof.
  unfold Log.pushToStack.
  destruct (negb (Log.is_traversed _ _) && negb (Log.has b h))%bool; reflexivity.
Qed.

Lemma pushToStack_accounted st h x :
  accounted a b st x -> accounted a b (Log.pushToStack b st h) x.
Proof.
  unfold accounted. rewrite pushToStack_res. unfold Log.pushToStack.
  destruct (negb (Log.is_traversed _ _) && negb (Log.has b h))%bool; simpl; auto.
  intros [H|[H|[H|H]]]; auto. right. left. apply in_or_app. now left.
Qed.

Lemma pushToStack_marks st h :
  marks_accounted a b st -> marks_accounted a b (Log.pushToStack b st h).
Proof.
  intros Hm p Hp.
  destruct (Log.is_traversed (Log.w_traversed st) p) eqn:T.
  - apply pushToStack_accounted, Hm, T.
  - unfold Log.pushToStack in *.
    destruct (negb (Log.is_traversed _ h) && negb (Log.has b h))%bool; simpl in *.
    + rewrite is_traversed_set in Hp.
      destruct (String.eqb_spec p h) as [E|]; [subst p|congruence].
      right. left. simpl. apply in_or_app. right. now left.
    + congruence.
Qed.

Lemma pushToStack_self st h :
  marks_accounted a b st -> accounted a b (Log.pushToStack b st h) h.
Proof.
  intros Hm.
  destruct (Log.is_traversed (Log.w_traversed st) h) eqn:T.
  - apply pushToStack_accounted, Hm, T.
  - unfold Log.pushToStack. rewrite T. simpl.
    destruct (Log.has b h) eqn:Hb; simpl.
    + now left.
    + right. left. simpl. apply in_or_app. right. now left.
Qed.

Lemma pushToStack_fold ps st :
  marks_accounted a b st ->
  Log.w_res (fold_left (Log.pushToStack b) ps st) = Log.w_res st
  /\ (forall x, accounted a b st x ->
                accounted a b (fold_left (Log.pushToStack b) ps st) x)
  /\ marks_accounted a b (fold_left (Log.pushToStack b) ps st)
  /\ (forall p, In p ps -> accounted a b (fold_left (Log.pushToStack b) ps st) p).
Proof.
  revert st. induction ps as [|p ps IH]; intros st Hm; simpl.
  - repeat split; auto.
  - destruct (IH (Log.pushToStack b st p) (pushToStack_marks st p Hm))
      as [Hres [Hacc [Hmarks Hps]]].
    repeat split.
    + now rewrite Hres, pushToStack_res.
    + intros x Hx. now apply Hacc, pushToStack_accounted.
    + assumption.
    + intros q [->|Hq]; [|now apply Hps].
      now apply Hacc, pushToStack_self.
Qed.

Lemma difference_body_invariant st :
  walk_invariant a b st -> walk_invariant a b (Log.difference_body a b st).
Proof.
  intros [Hsound Hnext Hmarks Hheads Hnd]. unfold Log.difference_body.
  destruct (Log.w_stack st) as [|h rest] eqn:S.
  { constructor; assumption. }
  (* the entry is skipped *)
  assert (Hskip :
    (Log.get a h = None \/ Log.has b h = true) ->
    walk_invariant a b (Log.mkWalk rest (Log.w_traversed st) (Log.w_res st))).
  { intros Hwhy.
    assert (Hacc : forall x, accounted a b st x ->
              accounted a b (Log.mkWalk rest (Log.w_traversed st) (Log.w_res st)) x).
    { unfold accounted. simpl. rewrite S. simpl.
      intros x [H|[[<-|H]|[H|H]]]; auto. destruct Hwhy; auto. }
    constructor; simpl; auto.
    - intros k e p Hk Hp. eapply Hacc, Hnext; eauto.
    - intros p Hp. apply Hacc, Hmarks, Hp. }
  destruct (Log.get a h) as [entry|] eqn:G; [|apply Hskip; now left].
  rewrite (a_ids h entry G), String.eqb_refl, andb_true_r.
  destruct (Log.has b h) eqn:Hb; simpl; [apply Hskip; now right|].
  clear Hskip. pose proof (a_keys h entry G) as Hhash. rewrite Hhash.
  set (st2 := Log.mkWalk rest (obj_set (Log.w_traversed st) h true)
                (obj_set (Log.w_res st) h entry)).
  assert (Hacc2 : forall x, accounted a b st x -> accounted a b st2 x).
  { unfold accounted. simpl. rewrite S. simpl.
    intros x [H|[[<-|H]|[H|H]]]; auto.
    - right. right. right. rewrite obj_get_set_same. discriminate.
    - right. right. right. rewrite obj_get_set.
      destruct (String.eqb x h); [discriminate|assumption]. }
  assert (Hmarks2 : marks_accounted a b st2).
  { intros p Hp. simpl in Hp. rewrite is_traversed_set in Hp.
    destruct (String.eqb_spec p h) as [E|]; [subst p|].
    - right. right. right. simpl. rewrite obj_get_set_same. discriminate.
    - apply Hacc2, Hmarks, Hp. }
  destruct (pushToStack_fold (Entry.next entry) st2 Hmarks2)
    as [Hres [Hacc [Hmarks' Hps]]].
  constructor.
  - intros k e Hk. rewrite Hres in Hk. simpl in Hk. rewrite obj_get_set in Hk.
    destruct (String.eqb_spec k h) as [E|]; [subst k|now apply Hsound].
    injection Hk as <-. split; [assumption|].
    unfold Log.has in Hb. destruct (Log.get b h); [discriminate|reflexivity].
  - intros k e p Hk Hp. rewrite Hres in Hk. simpl in Hk. rewrite obj_get_set in Hk.
    destruct (String.eqb_spec k h) as [E|]; [subst k|].
    + injection Hk as <-. now apply Hps.
    + eapply Hacc, Hacc2, Hnext; eauto.
  - assumption.
  - intros k Hk. now apply Hacc, Hacc2, Hheads.
  - rewrite Hres. simpl. now apply obj_set_NoDup.
Qed.

Lemma difference_loop_invariant fuel st :
  walk_invariant a b st -> walk_invariant a b (Log.difference_loop fuel a b st).
Proof.
  revert st. induction fuel as [|fuel IH]; intros st Hinv; simpl; [assumption|].
  destruct (Log.w_stack st) eqn:S; [assumption|].
  apply IH. now apply difference_body_invariant.
Qed.

Lemma difference_start_invariant :
  walk_invariant a b (Log.mkWalk (obj_keys (Log._headsIndex a)) [] []).
Proof.
  constructor; simpl.
  - discriminate.
  - discriminate.
  - intros p Hp. discriminate.
  - intros h Hh. right. now left.
  - constructor.
Qed.

Lemma difference_sound h e :
  obj_get (Log.difference a b) h = Some e ->
  Log.get a h = Some e /\ Log.get b h = None.
Proof.
  unfold Log.difference.
  apply (res_sound _ _ _
           (difference_loop_invariant _ _ difference_start_invariant)).
Qed.

Lemma difference_keys_unique : NoDup (obj_keys (Log.difference a b)).
Proof.
  unfold Log.difference.
  apply (res_keys_unique _ _ _
           (difference_loop_invariant _ _ difference_start_invariant)).
Qed.

  Hypothesis b_closed :
    forall h e p, Log.get b h = Some e -> In p (Entry.next e) -> Log.get b p <> None.
  Hypothesis ab_agree : agree a b.
  Hypothesis a_covered : covered a.

Lemma difference_reaches h0 y :
  In h0 (obj_keys (Log._headsIndex a)) -> reach a h0 y ->
  Log.get a y = None \/ Log.get b y <> None
  \/ obj_get (Log.difference a b) y <> None.
Proof.
  intros Hh0 Hreach.
  pose proof (difference_loop_invariant (Log.difference_fuel a) _
                difference_start_invariant) as Hinv.
  pose proof (difference_loop_exits a b) as Hexit.
  assert (Hfin : forall p,
            accounted a b (Log.difference_loop (Log.difference_fuel a) a b
                             (Log.mkWalk (obj_keys (Log._headsIndex a)) [] [])) p ->
            Log.get a p = None \/ Log.get b p <> None
            \/ obj_get (Log.difference a b) p <> None).
  { unfold accounted, Log.difference. rewrite Hexit.
    intros p [H|[[]|[H|H]]]; auto.
    right. left. unfold Log.has in H. destruct (Log.get b p); [discriminate|discriminate]. }
  induction Hreach as [|y e z Hr IH Hy Hz].
  - apply Hfin. now apply (heads_accounted _ _ _ Hinv).
  - destruct IH as [IH|[IH|IH]].
    + congruence.
    + right. left. destruct (Log.get b y) as [e'|] eqn:Gb; [|contradiction].
      pose proof (ab_agree y e e' Hy Gb) as <-.
      eapply b_closed; eauto.
    + destruct (obj_get (Log.difference a b) y) as [e'|] eqn:Gd; [|contradiction].
      pose proof (difference_sound y e' Gd) as [Ha _].
      assert (e' = e) by congruence. subst e'.
      apply Hfin. eapply (res_next_accounted _ _ _ Hinv); eauto.
Qed.

(** On a covered log [a] and a log [b] without tails that agrees with it,
    [difference a b] is the part of [a] that [b] does not have. *)
Lemma difference_spec h e :
  obj_get (Log.difference a b) h = Some e <->
  Log.get a h = Some e /\ Log.get b h = None.
Proof.
  split; [apply difference_sound|].
  intros [Ha Hb].
  destruct (a_covered h e Ha) as [h0 [Hh0 Hreach]].
  destruct (difference_reaches h0 h Hh0 Hreach) as [H|[H|H]]; try congruence.
  destruct (obj_get (Log.difference a b) h) as [e'|] eqn:Gd; [|contradiction].
  apply difference_sound in Gd. destruct Gd. congruence.
Qed.

End Difference.

(** ** join of complete logs *)

Lemma find_all_false {X : Type} (f : X -> bool) (l : list X) :
  (forall x, In x l -> f x = false) -> find f l = None.
Proof.
  induction l as [|x l IH]; simpl; intros H; [reflexivity|].
  rewrite (H x) by now left. apply IH. intros y Hy. apply H. now right.
Qed.

Lemma flatMap_fold_In (ls : list (list string)) (acc : list string) p :
  In p (fold_left Log.flatMap ls acc) <-> In p acc \/ exists l, In l ls /\ In p l.
Proof.
  revert acc. induction ls as [|l ls IH]; intros acc; simpl.
  - split; [auto|]. intros [H|[l [[] _]]]. exact H.
  - rewrite IH. unfold Log.flatMap. rewrite in_app_iff. split.
    + intros [[H|H]|[l' [H1 H2]]]; eauto.
    + intros [H|[l' [[->|H1] H2]]]; eauto.
Qed.

Lemma set_all_referenced (h : string) (ps : list string) (nx : obj string) p :
  truthy h = true ->
  (referenced_in (fold_left (fun n a => obj_set n a h) ps nx) p = true <->
   referenced_in nx p = true \/ In p ps).
Proof.
  intros Hh. revert nx. induction ps as [|q ps IH]; intros nx; simpl.
  - tauto.
  - rewrite IH. unfold referenced_in at 1. rewrite obj_get_set.
    destruct (String.eqb_spec p q) as [E|E].
    + subst q. rewrite Hh. tauto.
    + fold (referenced_in nx p). split.
      * intros [H|H]; auto.
      * intros [H|[H|H]]; auto; try (symmetry in H; contradiction).
Qed.

Lemma set_all_NoDup {V : Type} (v : V) (ps : list string) (o : obj V) :
  NoDup (obj_keys o) ->
  NoDup (obj_keys (fold_left (fun n a => obj_set n a v) ps o)).
Proof.
  revert o. induction ps as [|q ps IH]; intros o H; simpl; [assumption|].
  apply IH, obj_set_NoDup, H.
Qed.

Lemma addToNextsIndex_referenced this es acc p :
  (forall e, In e es -> truthy (Entry.hash e) = true) ->
  (referenced_in (snd (fold_left (Log.addToNextsIndex this) es acc)) p = true <->
   referenced_in (snd acc) p = true \/ exists e, In e es /\ In p (Entry.next e)).
Proof.
  revert acc. induction es as [|x es IH]; intros acc Hes; simpl.
  - split; [auto|]. intros [H|[e [[] _]]]. exact H.
  - rewrite IH by (intros; apply Hes; now right).
    unfold Log.addToNextsIndex. simpl.
    rewrite set_all_referenced by (apply Hes; now left).
    split.
    + intros [[H|H]|[e [H1 H2]]]; eauto.
    + intros [H|[e [[->|H1] H2]]]; eauto.
Qed.

Lemma addToNextsIndex_NoDup this es acc :
  NoDup (obj_keys (snd acc)) ->
  NoDup (obj_keys (snd (fold_left (Log.addToNextsIndex this) es acc))).
Proof.
  revert acc. induction es as [|x es IH]; intros acc H; simpl; [assumption|].
  apply IH. unfold Log.addToNextsIndex. simpl. now apply set_all_NoDup.
Qed.

Lemma notInCurrentNexts_referenced nx e :
  Log.notInCurrentNexts nx e = negb (referenced_in nx (Entry.hash e)).
Proof.
  unfold Log.notInCurrentNexts, referenced_in.
  destruct (obj_get nx (Entry.hash e)); reflexivity.
Qed.

Lemma option_iff_eq {X : Type} (o1 o2 : option X) :
  (forall x, o1 = Some x <-> o2 = Some x) -> o1 = o2.
Proof.
  intros H. destruct o1 as [x|], o2 as [y|]; auto.
  - apply H. reflexivity.
  - symmetry. apply H. reflexivity.
  - apply H. reflexivity.
Qed.

Section JoinComplete.
  Variables canAppend verify : Entry.t -> bool.
  Variables L A : Log.t.
  Hypothesis L_complete : complete L.
  Hypothesis A_complete : complete A.
  Hypothesis A_covered : covered A.
  Hypothesis LA_agree : agree L A.
  Hypothesis A_id : Log.id A = Log.id L.
  Hypothesis A_admitted : admitted canAppend verify A.

Lemma new_items_get h e :
  obj_get (Log.difference A L) h = Some e <->
  Log.get A h = Some e /\ Log.get L h = None.
Proof.
  apply difference_spec.
  - apply (keys_are_hashes A A_complete).
  - intros k f Hk. rewrite <- A_id. eapply (entries_carry_id A A_complete), Hk.
  - apply (no_tails L L_complete).
  - intros k e1 e2 H1 H2. symmetry. eapply LA_agree; eauto.
  - exact A_covered.
Qed.

Lemma new_items_unique : NoDup (obj_keys (Log.difference A L)).
Proof.
  apply difference_keys_unique.
  - apply (keys_are_hashes A A_complete).
  - intros k f Hk. rewrite <- A_id. eapply (entries_carry_id A A_complete), Hk.
Qed.

Lemma new_items_values e :
  In e (obj_values (Log.difference A L)) <->
  Log.get A (Entry.hash e) = Some e /\ Log.get L (Entry.hash e) = None.
Proof.
  rewrite (obj_values_In _ _ new_items_unique). split.
  - intros [k Hk]. apply new_items_get in Hk.
    rewrite (keys_are_hashes A A_complete k e (proj1 Hk)). exact Hk.
  - intros H. exists (Entry.hash e). now apply new_items_get.
Qed.

Lemma join_complete_commits :
  Log.join canAppend verify L (Log.IsLog A) None
  = (Returned (Some (Log.join_commit L A (-1) (Log.difference A L))),
     Log.join_commit L A (-1) (Log.difference A L)).
Proof.
  unfold Log.join. rewrite A_id, String.eqb_refl. simpl.
  rewrite find_all_false, find_all_false; [reflexivity| |].
  - intros e He. apply new_items_values in He.
    destruct (A_admitted _ _ (proj1 He)) as [_ Hv]. now rewrite Hv.
  - intros e He. apply new_items_values in He.
    destruct (A_admitted _ _ (proj1 He)) as [Hc _]. now rewrite Hc.
Qed.

Lemma joined_commit :
  joined canAppend verify L A = Log.join_commit L A (-1) (Log.difference A L).
Proof. unfold joined. now rewrite join_complete_commits. Qed.

Lemma join_complete_returns :
  Log.join canAppend verify L (Log.IsLog A) None
  = (Returned (Some (joined canAppend verify L A)), joined canAppend verify L A).
Proof. rewrite joined_commit. apply join_complete_commits. Qed.

Lemma joined_id : Log.id (joined canAppend verify L A) = Log.id L.
Proof. rewrite joined_commit. reflexivity. Qed.

Lemma joined_entryIndex :
  Log._entryIndex (joined canAppend verify L A)
  = obj_assign (Log._entryIndex L) (Log.difference A L).
Proof. rewrite joined_commit. reflexivity. Qed.

Lemma joined_nextsIndex :
  Log._nextsIndex (joined canAppend verify L A)
  = snd (fold_left (Log.addToNextsIndex L) (obj_values (Log.difference A L))
           (Log._length L, Log._nextsIndex L)).
Proof. rewrite joined_commit. reflexivity. Qed.

Lemma joined_headsIndex :
  Log._headsIndex (joined canAppend verify L A)
  = fold_left Log.uniqueEntriesReducer
      (filter (Log.notInCurrentNexts (Log._nextsIndex (joined canAppend verify L A)))
         (filter (Log.notReferencedByNewItems
                    (fold_left Log.flatMap
                       (map Log.getNextPointers (obj_values (Log.difference A L))) []))
            (Log.findHeads
               (obj_values (obj_assign (obj_assign [] (Log._headsIndex L))
                                       (Log._headsIndex A))))))
      [].
Proof. rewrite joined_commit. reflexivity. Qed.

(** The joined log holds the entries of both logs. *)
Lemma joined_get h e :
  Log.get (joined canAppend verify L A) h = Some e <->
  Log.get L h = Some e \/ Log.get A h = Some e.
Proof.
  unfold Log.get at 1. rewrite joined_entryIndex.
  rewrite (obj_get_assign _ _ _ new_items_unique).
  destruct (obj_get (Log.difference A L) h) as [d|] eqn:Gd.
  - apply new_items_get in Gd. destruct Gd as [Ha Hl]. split.
    + intros [= <-]. now right.
    + intros [H|H]; congruence.
  - fold (Log.get L h). split; [now left|].
    intros [H|H]; [assumption|].
    destruct (Log.get L h) as [e'|] eqn:Gl.
    + f_equal. eapply LA_agree; eauto.
    + assert (Hd : obj_get (Log.difference A L) h = Some e)
        by now apply new_items_get.
      congruence.
Qed.

Lemma joined_referenced p :
  referenced_in (Log._nextsIndex (joined canAppend verify L A)) p = true <->
  exists k f, Log.get (joined canAppend verify L A) k = Some f
              /\ In p (Entry.next f).
Proof.
  rewrite joined_nextsIndex, addToNextsIndex_referenced.
  - simpl. rewrite (nexts_are_referenced L L_complete). split.
    + intros [[k [f [Hk Hp]]]|[f [Hf Hp]]].
      * exists k, f. split; [|assumption]. apply joined_get. now left.
      * exists (Entry.hash f), f. split; [|assumption].
        apply joined_get. right. now apply new_items_values.
    + intros [k [f [Hk Hp]]]. apply joined_get in Hk.
      destruct Hk as [Hk|Hk]; [left; eauto|].
      destruct (Log.get L k) as [f'|] eqn:Gl.
      * left. exists k, f'. split; [assumption|].
        now rewrite (LA_agree k f' f Gl Hk).
      * right. exists f. split; [|assumption].
        apply new_items_values.
        rewrite (keys_are_hashes A A_complete k f Hk). auto.
  - intros e He. apply new_items_values in He. destruct He as [He _].
    eapply (hashes_not_empty A A_complete), He.
Qed.

Lemma head_candidates_get h :
  obj_get (obj_assign (obj_assign [] (Log._headsIndex L)) (Log._headsIndex A)) h
  = match obj_get (Log._headsIndex A) h with
    | Some v => Some v
    | None => obj_get (Log._headsIndex L) h
    end.
Proof.
  rewrite (obj_get_assign _ _ _ (head_keys_unique A A_complete)).
  rewrite (obj_get_assign _ _ _ (head_keys_unique L L_complete)).
  simpl. now destruct (obj_get (Log._headsIndex L) h).
Qed.

Lemma head_candidates_unique :
  NoDup (obj_keys (obj_assign (obj_assign [] (Log._headsIndex L))
                              (Log._headsIndex A))).
Proof. apply obj_assign_NoDup, obj_assign_NoDup. constructor. Qed.

Lemma head_candidate e :
  In e (obj_values (obj_assign (obj_assign [] (Log._headsIndex L))
                               (Log._headsIndex A))) ->
  Log.get (joined canAppend verify L A) (Entry.hash e) = Some e
  /\ obj_get (obj_assign (obj_assign [] (Log._headsIndex L))
                         (Log._headsIndex A)) (Entry.hash e) = Some e.
Proof.
  intros He. apply (obj_values_In _ _ head_candidates_unique) in He.
  destruct He as [h Hh]. pose proof Hh as Hh'.
  rewrite head_candidates_get in Hh.
  destruct (obj_get (Log._headsIndex A) h) as [v|] eqn:Ga.
  - injection Hh as ->.
    apply (heads_are_unreferenced A A_complete) in Ga. destruct Ga as [Ga _].
    rewrite (keys_are_hashes A A_complete h e Ga). split; [|assumption].
    apply joined_get. now right.
  - apply (heads_are_unreferenced L L_complete) in Hh. destruct Hh as [Gl _].
    rewrite (keys_are_hashes L L_complete h e Gl). split; [|assumption].
    apply joined_get. now left.
Qed.

Lemma joined_keys_are_hashes h e :
  Log.get (joined canAppend verify L A) h = Some e -> Entry.hash e = h.
Proof.
  intros H. apply joined_get in H. destruct H as [H|H].
  - eapply (keys_are_hashes L L_complete), H.
  - eapply (keys_are_hashes A A_complete), H.
Qed.

Lemma joined_heads h e :
  obj_get (Log._headsIndex (joined canAppend verify L A)) h = Some e <->
  Log.get (joined canAppend verify L A) h = Some e
  /\ forall k f, Log.get (joined canAppend verify L A) k = Some f ->
                 ~ In h (Entry.next f).
Proof.
  rewrite joined_headsIndex. split.
  - intros H. apply uniqueEntries_get in H.
    destruct H as [H|[Hin Hh]]; [discriminate|]. subst h.
    apply filter_In in Hin. destruct Hin as [Hin Hcur].
    apply filter_In in Hin. destruct Hin as [Hin _].
    apply findHeads_In in Hin. destruct Hin as [Hin _].
    split; [apply head_candidate, Hin|].
    intros k f Hk Hp.
    rewrite notInCurrentNexts_referenced in Hcur.
    apply negb_true_iff, not_true_iff_false in Hcur. apply Hcur.
    apply joined_referenced. eauto.
  - intros [Hg Hun].
    pose proof (joined_keys_are_hashes h e Hg) as Hh.
    assert (Hcand : obj_get (obj_assign (obj_assign [] (Log._headsIndex L))
                                        (Log._headsIndex A)) h = Some e).
    { rewrite head_candidates_get.
      apply joined_get in Hg. destruct Hg as [Hl|Ha].
      - assert (HL : obj_get (Log._headsIndex L) h = Some e).
        { apply (heads_are_unreferenced L L_complete). split; [assumption|].
          intros k f Hk. apply (Hun k). apply joined_get. now left. }
        destruct (obj_get (Log._headsIndex A) h) as [v|] eqn:Ga; [|assumption].
        apply (heads_are_unreferenced A A_complete) in Ga. destruct Ga as [Ga _].
        f_equal. symmetry. eapply LA_agree; eauto.
      - assert (HA : obj_get (Log._headsIndex A) h = Some e).
        { apply (heads_are_unreferenced A A_complete). split; [assumption|].
          intros k f Hk. apply (Hun k). apply joined_get. now right. }
        now rewrite HA. }
    assert (Hin : In e
      (filter (Log.notInCurrentNexts (Log._nextsIndex (joined canAppend verify L A)))
         (filter (Log.notReferencedByNewItems
                    (fold_left Log.flatMap
                       (map Log.getNextPointers (obj_values (Log.difference A L))) []))
            (Log.findHeads
               (obj_values (obj_assign (obj_assign [] (Log._headsIndex L))
                                       (Log._headsIndex A))))))).
    { apply filter_In. split; [apply filter_In; split|].
      - apply findHeads_In. split.
        + eapply obj_get_In_values, Hcand.
        + intros f Hf. rewrite Hh. apply head_candidate in Hf.
          eapply Hun, (proj1 Hf).
      - unfold Log.notReferencedByNewItems.
        destruct (find _ _) as [a0|] eqn:F; [|reflexivity].
        exfalso. apply find_some in F. destruct F as [Hin Heq].
        apply String.eqb_eq in Heq. subst a0. rewrite Hh in Hin.
        apply flatMap_fold_In in Hin. destruct Hin as [[]|[l [Hl Hp]]].
        apply in_map_iff in Hl. destruct Hl as [f [<- Hf]].
        apply new_items_values in Hf. destruct Hf as [Hf _].
        eapply (Hun (Entry.hash f) f); [|exact Hp].
        apply joined_get. now right.
      - rewrite notInCurrentNexts_referenced, Hh.
        apply negb_true_iff, not_true_iff_false. intros Href.
        apply joined_referenced in Href. destruct Href as [k [f [Hk Hp]]].
        exact (Hun k f Hk Hp). }
    pose proof (uniqueEntries_has _ [] e Hin) as Hsome.
    destruct (obj_get _ (Entry.hash e)) as [e'|] eqn:G; [|contradiction].
    rewrite <- Hh, G. f_equal.
    apply uniqueEntries_get in G. destruct G as [G|[Hin' Hh']]; [discriminate|].
    apply filter_In in Hin'. destruct Hin' as [Hin' _].
    apply filter_In in Hin'. destruct Hin' as [Hin' _].
    apply findHeads_In in Hin'. destruct Hin' as [Hin' _].
    apply head_candidate in Hin'. destruct Hin' as [_ Hc'].
    rewrite Hh', Hh in Hc'. congruence.
Qed.

(** Joining two complete logs gives a complete log. *)
Lemma joined_complete : complete (joined canAppend verify L A).
Proof.
  constructor.
  - rewrite joined_entryIndex. apply obj_assign_NoDup, (entry_keys_unique L L_complete).
  - rewrite joined_headsIndex. apply uniqueEntries_NoDup. constructor.
  - rewrite joined_nextsIndex. apply addToNextsIndex_NoDup.
    apply (next_keys_unique L L_complete).
  - apply joined_keys_are_hashes.
  - intros h e H. apply joined_get in H. destruct H as [H|H].
    + eapply (hashes_not_empty L L_complete), H.
    + eapply (hashes_not_empty A A_complete), H.
  - intros h e H. rewrite joined_id. apply joined_get in H. destruct H as [H|H].
    + eapply (entries_carry_id L L_complete), H.
    + rewrite <- A_id. eapply (entries_carry_id A A_complete), H.
  - intros h e p H Hp. apply joined_get in H. destruct H as [H|H].
    + pose proof (no_tails L L_complete h e p H Hp) as Hn.
      destruct (Log.get L p) as [f|] eqn:G; [|contradiction].
      assert (Hj : Log.get (joined canAppend verify L A) p = Some f)
        by (apply joined_get; now left).
      congruence.
    + pose proof (no_tails A A_complete h e p H Hp) as Hn.
      destruct (Log.get A p) as [f|] eqn:G; [|contradiction].
      assert (Hj : Log.get (joined canAppend verify L A) p = Some f)
        by (apply joined_get; now right).
      congruence.
  - apply joined_heads.
  - apply joined_referenced.
Qed.

Lemma joined_agree B :
  agree L B -> agree A B -> agree (joined canAppend verify L A) B.
Proof.
  intros HL HA h e1 e2 H1 H2. apply joined_get in H1. destruct H1 as [H1|H1].
  - eapply HL; eauto.
  - eapply HA; eauto.
Qed.

End JoinComplete.

(** ** The checks decide the conditions *)

Lemma distinct_NoDup (l : list string) : distinct l = true -> NoDup l.
Proof.
  induction l as [|x r IH]; simpl; intros H; constructor.
  - apply andb_true_iff in H. destruct H as [H _].
    apply negb_true_iff in H. intros Hin.
    apply not_true_iff_false in H. apply H.
    apply existsb_exists. exists x. split; [assumption|apply String.eqb_refl].
  - apply andb_true_iff in H. apply IH, H.
Qed.

Lemma hashes_eqb_eq l1 l2 : hashes_eqb l1 l2 = true -> l1 = l2.
Proof.
  revert l2. induction l1 as [|x r1 IH]; intros [|y r2]; simpl;
    try discriminate; [reflexivity|].
  intros H. apply andb_true_iff in H. destruct H as [H1 H2].
  apply String.eqb_eq in H1. subst y. f_equal. now apply IH.
Qed.

Lemma entry_eqb_eq e1 e2 : entry_eqb e1 e2 = true -> e1 = e2.
Proof.
  destruct e1 as [h1 i1 p1 n1 [ci1 ct1] [ii1 pk1] s1].
  destruct e2 as [h2 i2 p2 n2 [ci2 ct2] [ii2 pk2] s2].
  unfold entry_eqb, clock_eqb, identity_eqb. simpl. intros H.
  repeat match goal with
         | E : (_ && _)%bool = true |- _ =>
             apply andb_true_iff in E; destruct E
         end.
  repeat match goal with
         | E : String.eqb _ _ = true |- _ => apply String.eqb_eq in E
         | E : (_ =? _) = true |- _ => apply Z.eqb_eq in E
         | E : hashes_eqb _ _ = true |- _ => apply hashes_eqb_eq in E
         end.
  subst. reflexivity.
Qed.

Lemma holds_eq o e : holds o e = true -> o = Some e.
Proof.
  destruct o as [e'|]; simpl; [|discriminate].
  intros H. f_equal. now apply entry_eqb_eq.
Qed.

Lemma forallb_get {V : Type} (c : string * V -> bool) (o : obj V) k v :
  forallb c o = true -> obj_get o k = Some v -> c (k, v) = true.
Proof.
  intros H G. rewrite forallb_forall in H. apply H. now apply obj_get_In.
Qed.

Lemma unreferenced_hash_spec l h :
  NoDup (obj_keys (Log._entryIndex l)) ->
  (unreferenced_hash l h = true <->
   forall k f, Log.get l k = Some f -> ~ In h (Entry.next f)).
Proof.
  intros Hnd. unfold unreferenced_hash. rewrite forallb_forall. split.
  - intros H k f Hk Hin. apply obj_get_In in Hk. specialize (H _ Hk).
    simpl in H. apply negb_true_iff, not_true_iff_false in H. apply H.
    apply existsb_exists. exists h. split; [assumption|apply String.eqb_refl].
  - intros H [k f] Hin. simpl.
    apply negb_true_iff, not_true_iff_false. intros Hex.
    apply existsb_exists in Hex. destruct Hex as [p [Hp Heq]].
    apply String.eqb_eq in Heq. subst p.
    apply (H k f); [|assumption]. now apply obj_In_get.
Qed.

Lemma referenced_hash_spec l p :
  NoDup (obj_keys (Log._entryIndex l)) ->
  (referenced_hash l p = true ->
   exists k f, Log.get l k = Some f /\ In p (Entry.next f)).
Proof.
  intros Hnd H. unfold referenced_hash in H. apply existsb_exists in H.
  destruct H as [[k f] [Hin Hex]]. simpl in Hex.
  apply existsb_exists in Hex. destruct Hex as [q [Hq Heq]].
  apply String.eqb_eq in Heq. subst q.
  exists k, f. split; [now apply obj_In_get|assumption].
Qed.

Lemma complete_check_sound l : complete_check l = true -> complete l.
Proof.
  unfold complete_check. intros H.
  repeat (apply andb_true_iff in H; destruct H as [H ?]).
  match goal with
  | U1 : unique_keys (Log._headsIndex l) = true,
    U2 : unique_keys (Log._nextsIndex l) = true,
    E : forallb (entry_ok l) _ = true,
    Hh : heads_ok l = true, Hn : nexts_ok l = true |- _ =>
      rename H into U0; apply distinct_NoDup in U0, U1, U2;
      apply andb_true_iff in Hh; destruct Hh as [Hh1 Hh2];
      apply andb_true_iff in Hn; destruct Hn as [Hn1 Hn2]
  end.
  assert (Hentry : forall h e, Log.get l h = Some e -> entry_ok l (h, e) = true).
  { intros h e G. eapply forallb_get; eauto. }
  constructor; try assumption.
  - intros h e G. specialize (Hentry h e G). unfold entry_ok in Hentry. simpl in Hentry.
    repeat (apply andb_true_iff in Hentry; destruct Hentry as [Hentry ?]).
    now apply String.eqb_eq.
  - intros h e G. specialize (Hentry h e G). unfold entry_ok in Hentry. simpl in Hentry.
    repeat (apply andb_true_iff in Hentry; destruct Hentry as [Hentry ?]).
    assumption.
  - intros h e G. specialize (Hentry h e G). unfold entry_ok in Hentry. simpl in Hentry.
    repeat (apply andb_true_iff in Hentry; destruct Hentry as [Hentry ?]).
    now apply String.eqb_eq.
  - intros h e p G Hp. specialize (Hentry h e G). unfold entry_ok in Hentry.
    simpl in Hentry.
    repeat (apply andb_true_iff in Hentry; destruct Hentry as [Hentry ?]).
    match goal with
    | F : forallb (Log.has l) _ = true |- _ =>
        rewrite forallb_forall in F; specialize (F p Hp); unfold Log.has in F
    end.
    destruct (Log.get l p); [discriminate|discriminate].
  - intros h e. rewrite <- (unreferenced_hash_spec l h U0). split.
    + intros G. pose proof (forallb_get _ _ _ _ Hh1 G) as C. simpl in C.
      apply andb_true_iff in C. destruct C as [C1 C2].
      split; [now apply holds_eq|assumption].
    + intros [G Hun]. pose proof (forallb_get _ _ _ _ Hh2 G) as C. simpl in C.
      rewrite Hun in C. simpl in C. now apply holds_eq.
  - intros p. split.
    + intros R. unfold referenced_in in R.
      destruct (obj_get (Log._nextsIndex l) p) as [s|] eqn:G; [|discriminate].
      pose proof (forallb_get _ _ _ _ Hn1 G) as C. simpl in C.
      rewrite R in C. simpl in C. now apply referenced_hash_spec.
    + intros [k [f [G Hp]]].
      pose proof (forallb_get _ _ _ _ Hn2 G) as C. simpl in C.
      rewrite forallb_forall in C. now apply C.
Qed.

Lemma reach_check_sound fuel l x y :
  NoDup (obj_keys (Log._entryIndex l)) ->
  reach_check fuel l x y = true -> reach l x y.
Proof.
  intros Hnd. revert y. induction fuel as [|fuel IH]; intros y H; simpl in H.
  - rewrite orb_false_r in H. apply String.eqb_eq in H. subst y. constructor.
  - apply orb_true_iff in H. destruct H as [H|H].
    + apply String.eqb_eq in H. subst y. constructor.
    + apply existsb_exists in H. destruct H as [[k f] [Hin H]]. simpl in H.
      apply andb_true_iff in H. destruct H as [Hex Hr].
      apply existsb_exists in Hex. destruct Hex as [q [Hq Heq]].
      apply String.eqb_eq in Heq. subst q.
      apply (reach_next l x k f y);
        [apply IH, Hr | unfold Log.get; now apply obj_In_get | assumption].
Qed.

Lemma covered_check_sound l :
  NoDup (obj_keys (Log._entryIndex l)) ->
  covered_check l = true -> covered l.
Proof.
  intros Hnd H h e G. pose proof (forallb_get _ _ _ _ H G) as C. simpl in C.
  apply existsb_exists in C. destruct C as [h0 [Hh0 Hr]].
  exists h0. split; [assumption|]. eapply reach_check_sound; eauto.
Qed.

Lemma agree_check_sound l1 l2 : agree_check l1 l2 = true -> agree l1 l2.
Proof.
  intros H h e1 e2 G1 G2. pose proof (forallb_get _ _ _ _ H G1) as C.
  simpl in C. unfold Log.get in G2. unfold Log.get in C.
  rewrite G2 in C. now apply entry_eqb_eq.
Qed.

Lemma agree_sym l1 l2 : agree l1 l2 -> agree l2 l1.
Proof. intros H h e1 e2 H1 H2. symmetry. eapply H; eauto. Qed.

Lemma agree_self l :
  agree l l.
Proof. intros h e1 e2 H1 H2. congruence. Qed.

(** * Further properties of the code *)

(** ** Objects: sizes and keys *)

Lemma obj_update_length {V : Type} (o : obj V) k v :
  List.length (obj_update o k v) = List.length o.
Proof.
  induction o as [|[k0 v0] o IH]; simpl; [reflexivity|].
  destruct (String.eqb k k0); simpl; [reflexivity|]. now rewrite IH.
Qed.

Lemma obj_insert_length {V : Type} (o : obj V) k v :
  List.length (obj_insert o k v) = S (List.length o).
Proof.
  induction o as [|[k0 v0] o IH]; simpl; [reflexivity|].
  destruct (key_before k k0); simpl; [reflexivity|]. now rewrite IH.
Qed.

Lemma obj_set_length {V : Type} (o : obj V) k v :
  List.length (obj_set o k v)
  = (List.length o + if obj_has o k then 0 else 1)%nat.
Proof.
  unfold obj_set. destruct (obj_has o k).
  - rewrite obj_update_length. lia.
  - rewrite obj_insert_length. lia.
Qed.

Lemma obj_has_set {V : Type} (o : obj V) k v k' :
  obj_has (obj_set o k v) k' = (String.eqb k' k || obj_has o k')%bool.
Proof.
  unfold obj_has. rewrite obj_get_set. now destruct (String.eqb k' k).
Qed.

Lemma obj_keys_length {V : Type} (o : obj V) :
  List.length (obj_keys o) = List.length o.
Proof. unfold obj_keys. apply length_map. Qed.

Lemma obj_values_length {V : Type} (o : obj V) :
  List.length (obj_values o) = List.length o.
Proof. unfold obj_values. apply length_map. Qed.

Lemma obj_set_keys_In {V : Type} (o : obj V) k v k' :
  In k' (obj_keys (obj_set o k v)) <-> k' = k \/ In k' (obj_keys o).
Proof.
  rewrite <- !obj_get_keys, obj_get_set.
  destruct (String.eqb_spec k' k) as [E|E].
  - split; [now left|discriminate].
  - split; [now right|]. intros [H|H]; [contradiction|assumption].
Qed.

Lemma obj_assign_keys_In {V : Type} (t s : obj V) k :
  In k (obj_keys (obj_assign t s)) <-> In k (obj_keys t) \/ In k (obj_keys s).
Proof.
  unfold obj_assign. revert t.
  induction s as [|[k0 v0] s IH]; intros t; simpl.
  - tauto.
  - rewrite IH, obj_set_keys_In. simpl. split.
    + intros [[H|H]|H]; auto.
    + intros [H|[H|H]]; auto.
Qed.

Lemma obj_keys_values_hash (o : obj Entry.t) :
  (forall k e, In (k, e) o -> Entry.hash e = k) ->
  map Entry.hash (obj_values o) = obj_keys o.
Proof.
  induction o as [|[k e] o IH]; simpl; intros H; [reflexivity|].
  rewrite (H k e) by now left. f_equal. apply IH.
  intros k' e' Hin. apply H. now right.
Qed.

Lemma NoDup_map_eq {X Y : Type} (f : X -> Y) (l : list X) x y :
  NoDup (map f l) -> In x l -> In y l -> f x = f y -> x = y.
Proof.
  induction l as [|a l IH]; simpl; intros Hnd Hx Hy Hf; [contradiction|].
  inversion Hnd as [|? ? Hnotin Hnd']; subst.
  destruct Hx as [->|Hx], Hy as [->|Hy]; auto.
  - exfalso. apply Hnotin. rewrite Hf. now apply in_map.
  - exfalso. apply Hnotin. rewrite <- Hf. now apply in_map.
Qed.

(** ** The constructor *)

Lemma uniqueEntries_get_iff l (o : obj Entry.t) k :
  obj_get (fold_left Log.uniqueEntriesReducer l o) k <> None <->
  obj_get o k <> None \/ In k (map Entry.hash l).
Proof.
  revert o. induction l as [|x l IH]; intros o; simpl.
  - tauto.
  - rewrite IH. unfold Log.uniqueEntriesReducer. rewrite obj_get_set.
    destruct (String.eqb_spec k (Entry.hash x)) as [E|E].
    + split; [intros _; right; left; now symmetry|intros _; left; discriminate].
    + split; [intros [H|H]; auto|].
      intros [H|[H|H]]; auto; try (symmetry in H; contradiction).
Qed.

Lemma uniqueEntries_length l (o : obj Entry.t) :
  NoDup (map Entry.hash l) ->
  (forall e, In e l -> obj_get o (Entry.hash e) = None) ->
  List.length (fold_left Log.uniqueEntriesReducer l o)
  = (List.length o + List.length l)%nat.
Proof.
  revert o. induction l as [|x l IH]; intros o Hnd Hfresh; simpl; [lia|].
  inversion Hnd as [|? ? Hnotin Hnd']; subst.
  rewrite IH; auto.
  - unfold Log.uniqueEntriesReducer. rewrite obj_set_length.
    unfold obj_has. rewrite (Hfresh x) by now left. lia.
  - intros e He. unfold Log.uniqueEntriesReducer. rewrite obj_get_set.
    destruct (String.eqb_spec (Entry.hash e) (Entry.hash x)) as [E|E].
    + exfalso. apply Hnotin. rewrite <- E. now apply in_map.
    + apply Hfresh. now right.
Qed.

Lemma uniqueEntries_length_le l (o : obj Entry.t) :
  (List.length (fold_left Log.uniqueEntriesReducer l o)
   <= List.length o + List.length l)%nat.
Proof.
  revert o. induction l as [|x l IH]; intros o; simpl; [lia|].
  eapply Nat.le_trans; [apply IH|].
  unfold Log.uniqueEntriesReducer. rewrite obj_set_length.
  destruct (obj_has o (Entry.hash x)); lia.
Qed.

Lemma uniqueEntries_keyed l (o : obj Entry.t) :
  (forall k e, obj_get o k = Some e -> Entry.hash e = k) ->
  forall k e, obj_get (fold_left Log.uniqueEntriesReducer l o) k = Some e ->
              Entry.hash e = k.
Proof.
  intros Ho k e H. apply uniqueEntries_get in H.
  destruct H as [H|[_ H]]; [now apply Ho|assumption].
Qed.

Lemma uniqueEntries_get_distinct l e :
  NoDup (map Entry.hash l) -> In e l ->
  obj_get (fold_left Log.uniqueEntriesReducer l []) (Entry.hash e) = Some e.
Proof.
  intros Hnd Hin. pose proof (uniqueEntries_has l [] e Hin) as Hsome.
  destruct (obj_get _ _) as [e'|] eqn:G; [|contradiction].
  apply uniqueEntries_get in G. destruct G as [G|[Hin' Hh]]; [discriminate|].
  f_equal. eapply NoDup_map_eq; eauto.
Qed.

(** The log the constructor builds from defined collaborators. *)
Lemma new_returns s a ident now logId entries heads_arg clock_arg :
  exists l,
    Log.new (Some s) (Some a) (Some ident) now logId (Some entries)
      heads_arg clock_arg = Returned l
    /\ Log._entryIndex l = fold_left Log.uniqueEntriesReducer entries []
    /\ Log._headsIndex l
       = fold_left Log.uniqueEntriesReducer
           (match heads_arg with
            | Some hs => hs
            | None => Log.findHeads entries
            end) []
    /\ Log._nextsIndex l
       = fold_left (fun nx e =>
                      fold_left (fun n p => obj_set n p (Entry.hash e))
                        (Entry.next e) nx) entries []
    /\ Log._length l = Z.of_nat (List.length entries)
    /\ Log._identity l = ident
    /\ Clock.id (Log._clock l) = publicKey ident
    /\ Clock.time (Log._clock l)
       = Z.max (match clock_arg with Some c => Clock.time c | None => 0 end)
               (fold_left Log.maxClockTimeReducer (Log.heads l) 0).
Proof. eexists. split; [reflexivity|]. repeat split. Qed.

(** X1: when no two entries of the array share a hash and every hash is
    a plain key, the constructed log's length is the number of keys of
    its entryIndex, which is the number of entries given. *)
Theorem constructor_length_of_distinct_entries
    (s a : handle) (ident : Identity) (now : string) (logId : option string)
    (entries : list Entry.t) (heads_arg : option (list Entry.t))
    (clock_arg : option Clock.t) :
  NoDup (map Entry.hash entries) ->
  (forall e, In e entries -> plain_key (Entry.hash e) = true) ->
  exists l,
    Log.new (Some s) (Some a) (Some ident) now logId (Some entries)
      heads_arg clock_arg = Returned l
    /\ Log.length l = Z.of_nat (List.length (obj_keys (Log._entryIndex l)))
    /\ Log.length l = Z.of_nat (List.length entries).
Proof.
  intros Hnd _.
  destruct (new_returns s a ident now logId entries heads_arg clock_arg)
    as [l [Hnew [He [_ [_ [Hl _]]]]]].
  exists l. split; [assumption|]. unfold Log.length. rewrite Hl.
  split; [|reflexivity].
  rewrite obj_keys_length, He, uniqueEntries_length; auto.
Qed.

Lemma constructor_length_of_distinct_entries_witness :
  exists l,
    Log.new (Some tt) (Some tt) (Some Examples.identA) "1541203200000"
      (Some "X") (Some [Examples.a1; Examples.a2; Examples.a3]) None None
    = Returned l
    /\ Log.length l = Z.of_nat (List.length (obj_keys (Log._entryIndex l)))
    /\ Log.length l = 3.
Proof.
  apply (constructor_length_of_distinct_entries tt tt Examples.identA
           "1541203200000" (Some "X")
           [Examples.a1; Examples.a2; Examples.a3] None None).
  - apply distinct_NoDup. reflexivity.
  - intros e [<-|[<-|[<-|[]]]]; reflexivity.
Defined.

(** X2: when the hash of every entry of the array is a plain key, the
    constructed log has every entry of the array under its hash ([has]
    answers true for the hash, and for the entry itself when its hash is
    not empty), and whatever [get] finds under a plain key is an entry of
    the array with that hash. *)
Theorem constructor_indexes_entries
    (s a : handle) (ident : Identity) (now : string) (logId : option string)
    (entries : list Entry.t) (heads_arg : option (list Entry.t))
    (clock_arg : option Clock.t) :
  (forall e, In e entries -> plain_key (Entry.hash e) = true) ->
  exists l,
    Log.new (Some s) (Some a) (Some ident) now logId (Some entries)
      heads_arg clock_arg = Returned l
    /\ (forall e, In e entries ->
          Log.has_entry l (inr (Entry.hash e)) = true
          /\ (truthy (Entry.hash e) = true -> Log.has_entry l (inl e) = true))
    /\ (forall h e, plain_key h = true -> Log.get l h = Some e ->
          In e entries /\ Entry.hash e = h).
Proof.
  intros _.
  destruct (new_returns s a ident now logId entries heads_arg clock_arg)
    as [l [Hnew [He _]]].
  exists l. split; [assumption|]. split.
  - intros e Hin.
    assert (Hhas : Log.has_entry l (inr (Entry.hash e)) = true).
    { unfold Log.has_entry. simpl. rewrite He.
      pose proof (uniqueEntries_has entries [] e Hin) as H.
      destruct (obj_get _ _); [reflexivity|contradiction]. }
    split; [assumption|].
    intros Ht. unfold Log.has_entry in *. simpl in *. now rewrite Ht.
  - intros h e _ G. unfold Log.get in G. rewrite He in G.
    apply uniqueEntries_get in G. destruct G as [G|G]; [discriminate|assumption].
Qed.

Lemma constructor_indexes_entries_witness :
  exists l,
    Log.new (Some tt) (Some tt) (Some Examples.identA) "1541203200000"
      (Some "X") (Some [Examples.a1; Examples.a2; Examples.a3]) None None
    = Returned l
    /\ (forall e, In e [Examples.a1; Examples.a2; Examples.a3] ->
          Log.has_entry l (inr (Entry.hash e)) = true
          /\ (truthy (Entry.hash e) = true -> Log.has_entry l (inl e) = true))
    /\ (forall h e, plain_key h = true -> Log.get l h = Some e ->
          In e [Examples.a1; Examples.a2; Examples.a3] /\ Entry.hash e = h).
Proof.
  apply (constructor_indexes_entries tt tt Examples.identA
           "1541203200000" (Some "X")
           [Examples.a1; Examples.a2; Examples.a3] None None).
  intros e [<-|[<-|[<-|[]]]]; reflexivity.
Defined.

(** X3: the constructed log's clock carries the identity's public key, and
    its time is not negative, not below the time of the clock handed in,
    and not below the clock time of any head. *)
Theorem constructor_clock_covers_heads
    (s a : handle) (ident : Identity) (now : string) (logId : option string)
    (entries : list Entry.t) (heads_arg : option (list Entry.t))
    (clock_arg : option Clock.t) :
  exists l,
    Log.new (Some s) (Some a) (Some ident) now logId (Some entries)
      heads_arg clock_arg = Returned l
    /\ Clock.id (Log.clock l) = publicKey ident
    /\ 0 <= Clock.time (Log.clock l)
    /\ (forall c, clock_arg = Some c -> Clock.time c <= Clock.time (Log.clock l))
    /\ (forall h, In h (obj_values (Log._headsIndex l)) ->
          clock_time h <= Clock.time (Log.clock l)).
Proof.
  destruct (new_returns s a ident now logId entries heads_arg clock_arg)
    as [l [Hnew [_ [_ [_ [_ [_ [Hid Ht]]]]]]]].
  exists l. split; [assumption|]. unfold Log.clock. rewrite Ht.
  split; [assumption|].
  pose proof (maxClockTimeReducer_ge_init (Log.heads l) 0) as H0.
  split; [lia|]. split.
  - intros c ->. lia.
  - intros h Hh. apply heads_In in Hh.
    pose proof (maxClockTimeReducer_ge _ 0 h Hh). lia.
Qed.

Lemma constructor_nexts_referenced (es : list Entry.t) (nx : obj string) p :
  (forall e, In e es -> truthy (Entry.hash e) = true) ->
  (referenced_in
     (fold_left (fun nx e =>
                   fold_left (fun n q => obj_set n q (Entry.hash e))
                     (Entry.next e) nx) es nx) p = true <->
   referenced_in nx p = true \/ exists e, In e es /\ In p (Entry.next e)).
Proof.
  revert nx. induction es as [|x es IH]; intros nx Hes; simpl.
  - split; [auto|]. intros [H|[e [[] _]]]. exact H.
  - rewrite IH by (intros; apply Hes; now right).
    rewrite set_all_referenced by (apply Hes; now left).
    split.
    + intros [[H|H]|[e [H1 H2]]]; eauto.
    + intros [H|[e [[->|H1] H2]]]; eauto.
Qed.

(** X4: built without a heads argument from entries whose hashes are
    distinct, non-empty plain keys, the log has every entry under its
    hash; under a plain key its headsIndex holds exactly the entry with
    that hash that no entry of the array names in its next; and for a
    plain key its nextsIndex names a successor exactly when some entry of
    the array has the key in its next. *)
Theorem constructor_builds_consistent_indices
    (s a : handle) (ident : Identity) (now : string) (logId : option string)
    (entries : list Entry.t) (clock_arg : option Clock.t) :
  NoDup (map Entry.hash entries) ->
  (forall e, In e entries -> truthy (Entry.hash e) = true) ->
  (forall e, In e entries -> plain_key (Entry.hash e) = true) ->
  exists l,
    Log.new (Some s) (Some a) (Some ident) now logId (Some entries)
      None clock_arg = Returned l
    /\ (forall e, In e entries -> Log.get l (Entry.hash e) = Some e)
    /\ (forall h e, plain_key h = true ->
          (obj_get (Log._headsIndex l) h = Some e <->
           (In e entries /\ Entry.hash e = h) /\
           forall f, In f entries -> ~ In h (Entry.next f)))
    /\ (forall p, plain_key p = true ->
          (referenced_in (Log._nextsIndex l) p = true <->
           exists f, In f entries /\ In p (Entry.next f))).
Proof.
  intros Hnd Htruthy _.
  destruct (new_returns s a ident now logId entries None clock_arg)
    as [l [Hnew [He [Hh [Hn _]]]]].
  exists l. split; [assumption|].
  assert (Hget : forall e, In e entries -> Log.get l (Entry.hash e) = Some e).
  { intros e Hin. unfold Log.get. rewrite He.
    now apply uniqueEntries_get_distinct. }
  assert (Hin : forall k f, Log.get l k = Some f -> In f entries /\ Entry.hash f = k).
  { intros k f G. unfold Log.get in G. rewrite He in G.
    apply uniqueEntries_get in G. destruct G as [G|G]; [discriminate|assumption]. }
  split; [assumption|]. split.
  - intros h e _. rewrite Hh. split.
    + intros G. apply uniqueEntries_get in G.
      destruct G as [G|[Hf Hhash]]; [discriminate|]. subst h.
      apply findHeads_In in Hf. destruct Hf as [Hf Hun]. auto.
    + intros [[Hf Hhash] Hun]. subst h.
      assert (Hhead : In e (Log.findHeads entries)).
      { apply findHeads_In. split; assumption. }
      pose proof (uniqueEntries_has _ [] e Hhead) as Hsome.
      destruct (obj_get _ (Entry.hash e)) as [e'|] eqn:G'; [|contradiction].
      f_equal. apply uniqueEntries_get in G'.
      destruct G' as [G'|[Hf' Hhash']]; [discriminate|].
      apply findHeads_In in Hf'. destruct Hf' as [Hf' _].
      eapply NoDup_map_eq; eauto.
  - intros p _. rewrite Hn, constructor_nexts_referenced by assumption.
    unfold referenced_in at 1. simpl. split.
    + intros [H|H]; [discriminate|assumption].
    + intros H. now right.
Qed.

Lemma constructor_builds_consistent_indices_witness :
  exists l,
    Log.new (Some tt) (Some tt) (Some Examples.identA) "1541203200000"
      (Some "X") (Some [Examples.a1; Examples.a2; Examples.a3]) None None
    = Returned l
    /\ (forall e, In e [Examples.a1; Examples.a2; Examples.a3] ->
          Log.get l (Entry.hash e) = Some e)
    /\ (forall h e, plain_key h = true ->
          (obj_get (Log._headsIndex l) h = Some e <->
           (In e [Examples.a1; Examples.a2; Examples.a3] /\ Entry.hash e = h) /\
           forall f, In f [Examples.a1; Examples.a2; Examples.a3] ->
                     ~ In h (Entry.next f)))
    /\ (forall p, plain_key p = true ->
          (referenced_in (Log._nextsIndex l) p = true <->
           exists f, In f [Examples.a1; Examples.a2; Examples.a3]
                     /\ In p (Entry.next f))).
Proof.
  apply (constructor_builds_consistent_indices tt tt Examples.identA
           "1541203200000" (Some "X")
           [Examples.a1; Examples.a2; Examples.a3] None).
  - apply distinct_NoDup. reflexivity.
  - intros e [<-|[<-|[<-|[]]]]; reflexivity.
  - intros e [<-|[<-|[<-|[]]]]; reflexivity.
Defined.

(** ** traverse and values *)

Lemma addToStack_result st e : Log.result (Log.addToStack st e) = Log.result st.
Proof. unfold Log.addToStack. now destruct (Log.is_traversed _ _). Qed.

Lemma addToStack_count st e : Log.count (Log.addToStack st e) = Log.count st.
Proof. unfold Log.addToStack. now destruct (Log.is_traversed _ _). Qed.

Lemma addToStack_stack_In st e x :
  In x (Log.stack (Log.addToStack st e)) ->
  x = e \/ In x (Log.stack st).
Proof.
  unfold Log.addToStack. destruct (Log.is_traversed _ _); simpl; [now right|].
  rewrite <- in_rev, sort_In. simpl. intros [H|H]; auto.
Qed.

Lemma addToStack_stack_keeps st e x :
  In x (Log.stack st) -> In x (Log.stack (Log.addToStack st e)).
Proof.
  unfold Log.addToStack. destruct (Log.is_traversed _ _); simpl; [auto|].
  rewrite <- in_rev, sort_In. simpl. auto.
Qed.

Lemma addToStack_fold_result es st :
  Log.result (fold_left Log.addToStack es st) = Log.result st.
Proof.
  revert st. induction es as [|e es IH]; intros st; simpl; [reflexivity|].
  now rewrite IH, addToStack_result.
Qed.

Lemma addToStack_fold_count es st :
  Log.count (fold_left Log.addToStack es st) = Log.count st.
Proof.
  revert st. induction es as [|e es IH]; intros st; simpl; [reflexivity|].
  now rewrite IH, addToStack_count.
Qed.

Lemma addToStack_fold_stack_In es st x :
  In x (Log.stack (fold_left Log.addToStack es st)) ->
  In x es \/ In x (Log.stack st).
Proof.
  revert st. induction es as [|e es IH]; intros st; simpl; [now right|].
  intros H. apply IH in H. destruct H as [H|H]; [auto|].
  apply addToStack_stack_In in H. destruct H as [H|H]; auto.
Qed.

Lemma traverse_body_count this st :
  Log.stack st <> [] ->
  Log.count (Log.traverse_body this st) = Log.count st + 1.
Proof.
  intros Hne. unfold Log.traverse_body.
  destruct (Log.stack st); [contradiction|].
  now rewrite addToStack_fold_count.
Qed.

Lemma traverse_body_invariant this roots st :
  traversal_invariant this roots st ->
  traversal_invariant this roots (Log.traverse_body this st).
Proof.
  intros [Hnd Hkeyed Hstack Hcount]. unfold Log.traverse_body.
  destruct (Log.stack st) as [|e rest] eqn:S.
  { constructor; auto. rewrite S. intros x []. }
  constructor.
  - rewrite addToStack_fold_result. simpl. now apply obj_set_NoDup.
  - intros k x G. rewrite addToStack_fold_result in G. simpl in G.
    rewrite obj_get_set in G.
    destruct (String.eqb_spec k (Entry.hash e)) as [E|E].
    + injection G as <-. split; [now symmetry|]. apply Hstack. now left.
    + now apply Hkeyed.
  - intros x Hx. apply addToStack_fold_stack_In in Hx. destruct Hx as [Hx|Hx].
    + apply filter_defined_In, in_map_iff in Hx. destruct Hx as [h [Hh _]].
      right. eauto.
    + simpl in Hx. apply Hstack. now right.
  - rewrite addToStack_fold_result, addToStack_fold_count. simpl.
    rewrite obj_set_length. destruct (obj_has _ _); lia.
Qed.

Lemma traverse_loop_invariant this roots amount fuel st :
  traversal_invariant this roots st ->
  traversal_invariant this roots (Log.traverse_loop fuel this amount st).
Proof.
  revert st. induction fuel as [|fuel IH]; intros st Hinv; simpl; [assumption|].
  destruct (Log.traverse_continue amount st); [|assumption].
  apply IH. now apply traverse_body_invariant.
Qed.

Lemma traverse_loop_count this amount fuel st :
  0 <= amount -> Log.count st <= amount ->
  Log.count (Log.traverse_loop fuel this amount st) <= amount.
Proof.
  intros Ha. revert st. induction fuel as [|fuel IH]; intros st Hc; simpl;
    [assumption|].
  destruct (Log.traverse_continue amount st) eqn:C; [|assumption].
  apply IH. unfold Log.traverse_continue in C.
  apply andb_true_iff in C. destruct C as [Hne C].
  rewrite traverse_body_count.
  - apply orb_true_iff in C. destruct C as [C|C].
    + apply Z.eqb_eq in C. lia.
    + apply Z.ltb_lt in C. lia.
  - destruct (Log.stack st); [discriminate|discriminate].
Qed.

Lemma traverse_start_invariant this roots :
  traversal_invariant this roots
    (Log.mkTraversal (rev (JsArray.sort LastWriteWins roots)) [] [] 0).
Proof.
  constructor; simpl.
  - constructor.
  - discriminate.
  - intros e He. left. apply in_rev in He. now apply sort_In in He.
  - lia.
Qed.

Lemma traverse_run_invariant this roots amount :
  traversal_invariant this roots (Log.traverse_run this roots amount).
Proof. apply traverse_loop_invariant, traverse_start_invariant. Qed.

(** X5: with an amount that is not negative, traverse returns at most that
    many entries. *)
Theorem traverse_returns_at_most_amount
    (this : Log.t) (rootEntries : list Entry.t) (amount : Z) :
  0 <= amount ->
  Z.of_nat (List.length (obj_keys (Log.traverse this rootEntries (Some amount))))
  <= amount.
Proof.
  intros Ha. unfold Log.traverse. rewrite obj_keys_length.
  pose proof (result_counted _ _ _ (traverse_run_invariant this rootEntries amount)) as H1.
  assert (H2 : Log.count (Log.traverse_run this rootEntries amount) <= amount).
  { apply traverse_loop_count; simpl; lia. }
  lia.
Qed.

Lemma traverse_returns_at_most_amount_witness :
  Z.of_nat (List.length
              (obj_keys (Log.traverse Examples.logA [Examples.a3] (Some 2))))
  <= 2.
Proof.
  apply (traverse_returns_at_most_amount Examples.logA [Examples.a3] 2). lia.
Defined.

(** X6: whatever the roots and the amount, every entry traverse returns is
    stored under its own hash and is one of the roots or an entry of the
    log's index. *)
Theorem traverse_returns_known_entries
    (this : Log.t) (rootEntries : list Entry.t) (amount : option Z)
    (k : string) (e : Entry.t) :
  obj_get (Log.traverse this rootEntries amount) k = Some e ->
  Entry.hash e = k
  /\ (In e rootEntries \/ exists h, Log.get this h = Some e).
Proof.
  unfold Log.traverse.
  apply (result_keyed _ _ _ (traverse_run_invariant this rootEntries _)).
Qed.

Lemma traverse_returns_known_entries_witness :
  Entry.hash Examples.a2 = "Qma2"
  /\ (In Examples.a2 [Examples.a3]
      \/ exists h, Log.get Examples.logA h = Some Examples.a2).
Proof.
  apply (traverse_returns_known_entries Examples.logA [Examples.a3] None
           "Qma2" Examples.a2).
  reflexivity.
Defined.

Lemma obj_keyed_In (o : obj Entry.t) :
  NoDup (obj_keys o) ->
  (forall k e, obj_get o k = Some e -> Entry.hash e = k) ->
  forall k e, In (k, e) o -> Entry.hash e = k.
Proof. intros Hnd H k e Hin. apply H. now apply obj_In_get. Qed.

(** X7: [values] never lists two entries with the same hash, and each
    entry it lists is a head or an entry of the index. *)
Theorem values_have_distinct_hashes (this : Log.t) :
  NoDup (map Entry.hash (Log.values this))
  /\ (forall e, In e (Log.values this) ->
        In e (obj_values (Log._headsIndex this))
        \/ exists h, Log.get this h = Some e).
Proof.
  unfold Log.values, Log.traverse.
  pose proof (traverse_run_invariant this (Log.heads this) (-1)) as [Hnd Hk _ _].
  split.
  - rewrite map_rev. apply NoDup_rev.
    rewrite obj_keys_values_hash; [assumption|].
    apply obj_keyed_In; [assumption|]. intros k e G. apply (Hk k e G).
  - intros e He. apply in_rev in He.
    apply (obj_values_In _ _ Hnd) in He. destruct He as [k G].
    destruct (Hk k e G) as [_ [Hr|Hi]]; [left|now right].
    now apply heads_In.
Qed.

Lemma addToStack_settled st e h :
  hash_settled st h -> hash_settled (Log.addToStack st e) h.
Proof.
  unfold hash_settled. rewrite addToStack_result.
  intros [H|[s [Hs Hh]]]; [now left|].
  right. exists s. split; [now apply addToStack_stack_keeps|assumption].
Qed.

Lemma addToStack_self st e :
  marks_settled st -> hash_settled (Log.addToStack st e) (Entry.hash e).
Proof.
  intros Hm.
  destruct (Log.is_traversed (Log.traversed st) (Entry.hash e)) eqn:T.
  - apply addToStack_settled, Hm, T.
  - right. exists e. split; [|reflexivity].
    unfold Log.addToStack. rewrite T. simpl.
    rewrite <- in_rev, sort_In. now left.
Qed.

Lemma addToStack_marks st e :
  marks_settled st -> marks_settled (Log.addToStack st e).
Proof.
  intros Hm h Hh.
  destruct (Log.is_traversed (Log.traversed st) h) eqn:T.
  - apply addToStack_settled, Hm, T.
  - assert (E : h = Entry.hash e).
    { unfold Log.addToStack in Hh.
      destruct (Log.is_traversed (Log.traversed st) (Entry.hash e));
        simpl in Hh; [congruence|].
      rewrite is_traversed_set in Hh.
      destruct (String.eqb_spec h (Entry.hash e)); [assumption|congruence]. }
    subst h. now apply addToStack_self.
Qed.

Lemma addToStack_fold_settled es st :
  marks_settled st ->
  (forall h, hash_settled st h ->
             hash_settled (fold_left Log.addToStack es st) h)
  /\ marks_settled (fold_left Log.addToStack es st)
  /\ (forall f, In f es ->
        hash_settled (fold_left Log.addToStack es st) (Entry.hash f)).
Proof.
  revert st. induction es as [|e es IH]; intros st Hm; simpl.
  - repeat split; auto.
  - destruct (IH (Log.addToStack st e) (addToStack_marks st e Hm))
      as [Hkeep [Hmarks Hes]].
    repeat split.
    + intros h Hh. now apply Hkeep, addToStack_settled.
    + assumption.
    + intros f [<-|Hf]; [|now apply Hes].
      now apply Hkeep, addToStack_self.
Qed.

Lemma traverse_body_progress this roots st :
  traversal_progress this roots st ->
  traversal_progress this roots (Log.traverse_body this st).
Proof.
  intros [Hnext Hmarks Hroots]. unfold Log.traverse_body.
  destruct (Log.stack st) as [|e rest] eqn:S.
  { constructor; assumption. }
  set (st1 := Log.mkTraversal rest (Log.traversed st)
                (obj_set (Log.result st) (Entry.hash e) e) (Log.count st + 1)).
  assert (Hmove : forall h, hash_settled st h -> hash_settled st1 h).
  { unfold hash_settled. simpl. rewrite S.
    intros h [H|[s [[<-|Hs] Hh]]].
    - left. apply obj_set_keys_In. now right.
    - left. apply obj_set_keys_In. left. now symmetry.
    - right. eauto. }
  assert (Hmarks1 : marks_settled st1).
  { intros h Hh. apply Hmove, Hmarks, Hh. }
  destruct (addToStack_fold_settled
              (filter_defined (map (Log.get this) (Entry.next e))) st1 Hmarks1)
    as [Hkeep [Hmarks' Hes]].
  constructor.
  - intros k x p f G Hp Hf. rewrite addToStack_fold_result in G. simpl in G.
    rewrite obj_get_set in G.
    destruct (String.eqb_spec k (Entry.hash e)) as [E|E].
    + injection G as <-. apply Hes.
      apply filter_defined_In, in_map_iff. exists p. auto.
    + apply Hkeep, Hmove. eapply Hnext; eauto.
  - assumption.
  - intros r Hr. now apply Hkeep, Hmove, Hroots.
Qed.

Lemma traverse_loop_progress this roots amount fuel st :
  traversal_progress this roots st ->
  traversal_progress this roots (Log.traverse_loop fuel this amount st).
Proof.
  revert st. induction fuel as [|fuel IH]; intros st Hinv; simpl; [assumption|].
  destruct (Log.traverse_continue amount st); [|assumption].
  apply IH. now apply traverse_body_progress.
Qed.

Lemma traverse_run_progress this roots amount :
  traversal_progress this roots (Log.traverse_run this roots amount).
Proof.
  apply traverse_loop_progress. constructor; simpl.
  - discriminate.
  - intros h Hh. discriminate.
  - intros r Hr. right. exists r. split; [|reflexivity]. simpl.
    rewrite <- in_rev. now apply sort_In.
Qed.

Lemma obj_equiv_Permutation {V : Type} (o1 o2 : obj V) :
  NoDup (obj_keys o1) -> NoDup (obj_keys o2) -> obj_equiv o1 o2 ->
  Permutation o1 o2.
Proof.
  intros H1 H2 He. apply NoDup_Permutation.
  - eapply NoDup_map_inv, H1.
  - eapply NoDup_map_inv, H2.
  - intros [k v]. split; intros Hin.
    + apply obj_get_In. rewrite <- (He k). now apply obj_In_get.
    + apply obj_get_In. rewrite (He k). now apply obj_In_get.
Qed.

Lemma values_of_complete (l : Log.t) :
  complete l -> covered l ->
  obj_equiv (Log.traverse l (Log.heads l) None) (Log._entryIndex l)
  /\ Permutation (Log.values l) (obj_values (Log._entryIndex l)).
Proof.
  intros C V.
  pose proof (traverse_run_invariant l (Log.heads l) (-1)) as [Hnd Hkeyed _ _].
  pose proof (traverse_run_progress l (Log.heads l) (-1)) as [Hnext _ Hroots].
  pose proof (traverse_loop_exits l (Log.heads l) (-1)) as Hexit.
  assert (Hstack : Log.stack (Log.traverse_run l (Log.heads l) (-1)) = []).
  { unfold Log.traverse_continue in Hexit. simpl in Hexit.
    rewrite andb_true_r in Hexit.
    destruct (Log.stack _); [reflexivity|discriminate]. }
  assert (Hhead : forall e, In e (Log.heads l) ->
                            Log.get l (Entry.hash e) = Some e).
  { intros e He. apply heads_In in He.
    apply (obj_values_In _ _ (head_keys_unique l C)) in He.
    destruct He as [h Hh]. apply (heads_are_unreferenced l C) in Hh.
    destruct Hh as [Hh _]. now rewrite (keys_are_hashes l C h e Hh). }
  assert (Hsound : forall k e,
            obj_get (Log.result (Log.traverse_run l (Log.heads l) (-1))) k = Some e ->
            Log.get l k = Some e).
  { intros k e G. destruct (Hkeyed k e G) as [Hk [Hr|[h Hh]]].
    - rewrite <- Hk. now apply Hhead.
    - rewrite <- Hk, (keys_are_hashes l C h e Hh). assumption. }
  assert (Hkeys : forall h,
            hash_settled (Log.traverse_run l (Log.heads l) (-1)) h ->
            In h (obj_keys (Log.result (Log.traverse_run l (Log.heads l) (-1))))).
  { intros h [H|[s [Hs _]]]; [assumption|]. rewrite Hstack in Hs. destruct Hs. }
  assert (Hreach : forall h0 y,
            In h0 (obj_keys (Log._headsIndex l)) -> reach l h0 y ->
            In y (obj_keys (Log.result (Log.traverse_run l (Log.heads l) (-1))))).
  { intros h0 y Hh0 Hr. induction Hr as [|y e z Hr IH Hy Hz].
    - apply obj_get_keys in Hh0.
      destruct (obj_get (Log._headsIndex l) h0) as [e|] eqn:G; [|contradiction].
      assert (He : In e (Log.heads l)).
      { apply heads_In. eapply obj_get_In_values, G. }
      apply (heads_are_unreferenced l C) in G. destruct G as [G _].
      rewrite <- (keys_are_hashes l C h0 e G). apply Hkeys, Hroots, He.
    - apply obj_get_keys in IH.
      destruct (obj_get _ y) as [e'|] eqn:G; [|contradiction].
      pose proof (Hsound y e' G) as G'.
      assert (e' = e) by congruence. subst e'.
      pose proof (no_tails l C y e z Hy Hz) as Hnt.
      destruct (Log.get l z) as [f|] eqn:Gz; [|contradiction].
      rewrite <- (keys_are_hashes l C z f Gz).
      apply Hkeys. eapply Hnext; eauto. }
  assert (Hequiv : obj_equiv (Log.traverse l (Log.heads l) None)
                             (Log._entryIndex l)).
  { intros k. apply option_iff_eq. intros e. unfold Log.traverse. split.
    - apply Hsound.
    - intros G. destruct (V k e G) as [h0 [Hh0 Hr]].
      pose proof (Hreach h0 k Hh0 Hr) as Hin. apply obj_get_keys in Hin.
      change (obj_get (Log.result (Log.traverse_run l (Log.heads l) (-1))) k
              = Some e).
      destruct (obj_get (Log.result (Log.traverse_run l (Log.heads l) (-1))) k)
        as [e'|] eqn:G'; [|contradiction].
      apply Hsound in G'. unfold Log.get in G, G'. congruence. }
  split; [assumption|].
  unfold Log.values. eapply Permutation_trans; [apply Permutation_sym, Permutation_rev|].
  unfold obj_values. apply Permutation_map.
  apply obj_equiv_Permutation; [assumption|apply (entry_keys_unique l C)|assumption].
Qed.



(** ** append, continued *)

Lemma append_inv_nexts sign put canAppend this data pointerCount r this' :
  Log.append sign put canAppend this data pointerCount = (r, this') ->
  match Entry.create sign put (Log._identity this) (Log.id this) data
          (append_nexts this pointerCount) (append_clock this) with
  | inr e => r = Threw (EntryCreateFailed e)
             /\ this' = Log.with_clock this (append_clock this)
  | inl entry =>
      if canAppend entry then
        r = Returned entry
        /\ this' = Log.mk (Log._id this) (Log._identity this)
                     (obj_set (Log._entryIndex this) (Entry.hash entry) entry)
                     (obj_set [] (Entry.hash entry) entry)
                     (fold_left (fun n e => obj_set n e (Entry.hash entry))
                        (append_nexts this pointerCount) (Log._nextsIndex this))
                     (Log._length this + 1) (append_clock this)
      else
        r = Threw (CouldNotAppend (identity_id (Log._identity this)))
        /\ this' = Log.with_clock this (append_clock this)
  end.
Proof.
  unfold Log.append, append_nexts. cbv zeta. intros H.
  change (Log.with_clock this
            (Clock.mk (Clock.id (Log.clock this))
               (JsNumber.add
                  (Z.max (Clock.time (Log.clock this))
                     (fold_left Log.maxClockTimeReducer (Log.heads this) 0))
                  1)))
    with (Log.with_clock this (append_clock this)) in *.
  change (Log.clock (Log.with_clock this (append_clock this)))
    with (append_clock this) in *.
  change (Log.id (Log.with_clock this (append_clock this)))
    with (Log.id this) in *.
  change (Log._identity (Log.with_clock this (append_clock this)))
    with (Log._identity this) in *.
  destruct (Entry.create _ _ _ _ _ _ _) as [entry|e].
  - destruct (canAppend entry); simpl in H; injection H as <- <-; auto.
  - injection H as <- <-; auto.
Qed.

Lemma create_fields sign put ident logId data nexts clk entry :
  Entry.create sign put ident logId data nexts clk = inl entry ->
  Entry.id entry = logId /\ Entry.payload entry = data
  /\ Entry.next entry = nexts /\ Entry.clock entry = clk
  /\ Entry.identity entry = ident.
Proof.
  unfold Entry.create.
  destruct (sign _ _); [|discriminate].
  destruct (put _ _); [|discriminate].
  intros [= <-]. repeat split.
Qed.

(** What a successful append leaves behind, field by field. *)
Lemma append_success sign put canAppend this data pointerCount entry this' :
  Log.append sign put canAppend this data pointerCount = (Returned entry, this') ->
  Entry.id entry = Log.id this
  /\ Entry.next entry = append_nexts this pointerCount
  /\ this' = Log.mk (Log._id this) (Log._identity this)
               (obj_set (Log._entryIndex this) (Entry.hash entry) entry)
               (obj_set [] (Entry.hash entry) entry)
               (fold_left (fun n e => obj_set n e (Entry.hash entry))
                  (Entry.next entry) (Log._nextsIndex this))
               (Log._length this + 1) (append_clock this).
Proof.
  intros H. apply append_inv_nexts in H.
  destruct (Entry.create _ _ _ _ _ _ _) as [e|e] eqn:C;
    [|destruct H; discriminate].
  destruct (canAppend e); destruct H as [Hr ->]; [|discriminate].
  injection Hr as Hr. subst e.
  apply create_fields in C. destruct C as [Hid [_ [Hn _]]].
  rewrite Hn. auto.
Qed.

Lemma set_all_get_in {V : Type} (v : V) (ps : list string) (o : obj V) p :
  In p ps -> obj_get (fold_left (fun n a => obj_set n a v) ps o) p = Some v.
Proof.
  revert o. induction ps as [|q ps IH]; intros o Hin; simpl; [contradiction|].
  destruct (in_dec string_dec p ps) as [Hp|Hp]; [now apply IH|].
  destruct Hin as [->|Hin]; [|contradiction].
  clear IH. revert o. induction ps as [|q ps IH]; intros o; simpl.
  - apply obj_get_set_same.
  - assert (Hq : p <> q) by (intros ->; apply Hp; now left).
    assert (Hp' : ~ In p ps) by (intros H; apply Hp; now right).
    specialize (IH Hp').
    assert (Hgen : forall o', obj_get o' p = Some v ->
              obj_get (fold_left (fun n a => obj_set n a v) ps o') p = Some v).
    { clear IH. induction ps as [|q' ps IH']; intros o' Ho'; simpl; [assumption|].
      apply IH'.
      - intros H. apply Hp. simpl. simpl in H. tauto.
      - intros H. apply Hp'. now right.
      - rewrite obj_get_set. destruct (String.eqb p q'); [reflexivity|assumption]. }
    apply Hgen. rewrite obj_get_set_other by assumption. apply obj_get_set_same.
Qed.

Lemma set_all_get_out {V : Type} (v : V) (ps : list string) (o : obj V) p :
  ~ In p ps -> obj_get (fold_left (fun n a => obj_set n a v) ps o) p = obj_get o p.
Proof.
  revert o. induction ps as [|q ps IH]; intros o Hin; simpl; [reflexivity|].
  rewrite IH by (intros H; apply Hin; now right).
  apply obj_get_set_other. intros ->. apply Hin. now left.
Qed.

Lemma append_nexts_In this pointerCount p :
  In p (append_nexts this pointerCount) ->
  In p (obj_keys (Log._headsIndex this))
  \/ exists e, Entry.hash e = p
               /\ (In e (obj_values (Log._headsIndex this))
                   \/ exists h, Log.get this h = Some e).
Proof.
  unfold append_nexts. cbv zeta. intros H.
  apply obj_assign_keys_In in H. destruct H as [H|H].
  - apply obj_assign_keys_In in H. destruct H as [[]|H]. now left.
  - right. apply obj_get_keys in H.
    destruct (obj_get _ p) as [e|] eqn:G; [|contradiction].
    apply traverse_run_invariant in G. destruct G as [Hh [Hr|[h Hg]]].
    + exists e. split; [assumption|]. left. now apply heads_In in Hr.
    + exists e. split; [assumption|]. right. exists h. exact Hg.
Qed.

Lemma append_nexts_heads this pointerCount k :
  In k (obj_keys (Log._headsIndex this)) ->
  In k (append_nexts this pointerCount).
Proof.
  intros H. unfold append_nexts. cbv zeta.
  apply obj_assign_keys_In. left. apply obj_assign_keys_In. now right.
Qed.





(** X11: the entry a successful append creates carries the log's id; its
    next pointers include every key of the headsIndex from before, and
    each of them is such a key or the hash of a head or of an entry of the
    index; afterwards nextsIndex maps each of these pointers to the new
    entry's hash and holds what it held under every other key. *)
Theorem append_links_new_entry
    (sign : Identity -> Entry.unsigned -> option string)
    (put : Entry.unsigned -> string -> option string)
    (canAppend : Entry.t -> bool)
    (this : Log.t) (data : string) (pointerCount : option Z)
    (entry : Entry.t) (this' : Log.t) :
  Log.append sign put canAppend this data pointerCount = (Returned entry, this') ->
  Entry.id entry = Log.id this
  /\ (forall k, In k (obj_keys (Log._headsIndex this)) ->
                In k (Entry.next entry))
  /\ (forall p, In p (Entry.next entry) ->
        In p (obj_keys (Log._headsIndex this))
        \/ exists e, Entry.hash e = p
                     /\ (In e (obj_values (Log._headsIndex this))
                         \/ exists h, Log.get this h = Some e))
  /\ (forall p, In p (Entry.next entry) ->
        obj_get (Log._nextsIndex this') p = Some (Entry.hash entry))
  /\ (forall p, ~ In p (Entry.next entry) ->
        obj_get (Log._nextsIndex this') p = obj_get (Log._nextsIndex this) p).
Proof.
  intros H. apply append_success in H. destruct H as [Hid [Hn ->]].
  split; [assumption|]. rewrite Hn. simpl. repeat split.
  - intros k Hk. now apply append_nexts_heads.
  - intros p Hp. now apply append_nexts_In in Hp.
  - intros p Hp. now apply set_all_get_in.
  - intros p Hp. now apply set_all_get_out.
Qed.

Lemma append_links_new_entry_witness :
  Entry.id Examples.hello = Log.id Examples.logA.
Proof.
  refine (proj1 (append_links_new_entry Examples.sign_ok Examples.put_ok
                   Examples.allow_all Examples.logA "hello" None
                   Examples.hello _ _)).
  reflexivity.
Defined.

(** X12: when the clock time of the log and the clock times of its heads
    are below 2^53, append, whether it succeeds or fails, leaves the clock
    with the same id and a time that is strictly greater than before and
    than the time of every head. *)
Theorem append_advances_clock
    (sign : Identity -> Entry.unsigned -> option string)
    (put : Entry.unsigned -> string -> option string)
    (canAppend : Entry.t -> bool)
    (this : Log.t) (data : string) (pointerCount : option Z) :
  Clock.time (Log.clock this) < 2 ^ 53 ->
  (forall h, In h (obj_values (Log._headsIndex this)) ->
     clock_time h < 2 ^ 53) ->
  Clock.time (Log.clock this)
  < Clock.time (Log.clock (snd (Log.append sign put canAppend this data
                                  pointerCount)))
  /\ (forall h, In h (obj_values (Log._headsIndex this)) ->
        clock_time h
        < Clock.time (Log.clock (snd (Log.append sign put canAppend this data
                                        pointerCount))))
  /\ Clock.id (Log.clock (snd (Log.append sign put canAppend this data
                                 pointerCount)))
     = Clock.id (Log.clock this).
Proof.
  intros Hclk Hheads.
  destruct (Log.append sign put canAppend this data pointerCount)
    as [r this'] eqn:H.
  apply append_inv in H. destruct H as [nexts H]. simpl.
  assert (Hc : Log.clock this' = append_clock this).
  { destruct (Entry.create _ _ _ _ _ _ _) as [entry|e].
    - destruct (canAppend entry); destruct H as [_ ->]; reflexivity.
    - destruct H as [_ ->]. reflexivity. }
  assert (Hfold : fold_left Log.maxClockTimeReducer (Log.heads this) 0 < 2 ^ 53).
  { apply maxClockTimeReducer_lt; [lia|].
    intros h Hh. apply Hheads. now apply heads_In. }
  pose proof (maxClockTimeReducer_ge_init (Log.heads this) 0) as H0.
  rewrite Hc. unfold append_clock, append_time. simpl.
  rewrite add_one_exact by lia.
  split; [lia|]. split; [|reflexivity].
  intros h Hh. apply heads_In in Hh.
  pose proof (maxClockTimeReducer_ge _ 0 h Hh) as Hle. lia.
Qed.

Lemma append_advances_clock_witness :
  Clock.time (Log.clock Examples.logA)
  < Clock.time (Log.clock (snd (Log.append Examples.sign_ok Examples.put_ok
                                  Examples.deny_all Examples.logA "hello"
                                  None))).
Proof.
  refine (proj1 (append_advances_clock Examples.sign_ok Examples.put_ok
                   Examples.deny_all Examples.logA "hello" None _ _)).
  - reflexivity.
  - intros h Hh. vm_compute in Hh.
    destruct Hh as [<-|[]]. reflexivity.
Defined.

Lemma reach_trans l x y z : reach l x y -> reach l y z -> reach l x z.
Proof.
  intros Hxy Hyz. induction Hyz as [|z e w Hr IH Hz Hw]; [assumption|].
  eapply reach_next; eauto.
Qed.

Lemma reach_grows l l' x y :
  (forall h e, Log.get l h = Some e -> Log.get l' h = Some e) ->
  reach l x y -> reach l' x y.
Proof.
  intros Hsub Hr. induction Hr as [|y e z Hr IH Hy Hz]; [constructor|].
  eapply reach_next; eauto.
Qed.

Lemma append_complete_covered
    (sign : Identity -> Entry.unsigned -> option string)
    (put : Entry.unsigned -> string -> option string)
    (canAppend : Entry.t -> bool)
    (this : Log.t) (data : string) (pointerCount : option Z)
    (entry : Entry.t) (this' : Log.t) :
  complete this -> covered this ->
  Log.append sign put canAppend this data pointerCount = (Returned entry, this') ->
  Log.get this (Entry.hash entry) = None ->
  truthy (Entry.hash entry) = true ->
  complete this' /\ covered this'.
Proof.
  intros C V H Hfresh Htruthy.
  apply append_success in H. destruct H as [Hid [Hn Hthis']].
  set (h := Entry.hash entry) in *.
  assert (Hget : forall k, Log.get this' k
                 = if String.eqb k h then Some entry else Log.get this k).
  { intros k. rewrite Hthis'. unfold Log.get. simpl. apply obj_get_set. }
  assert (Hold : forall k e, Log.get this k = Some e -> Log.get this' k = Some e).
  { intros k e G. rewrite Hget.
    destruct (String.eqb_spec k h) as [E|E]; [congruence|assumption]. }
  assert (Hnext : forall p, In p (Entry.next entry) -> Log.get this p <> None).
  { intros p Hp. rewrite Hn in Hp. apply append_nexts_In in Hp.
    destruct Hp as [Hp|[e [He [Hv|[k Hk]]]]].
    - apply obj_get_keys in Hp.
      destruct (obj_get (Log._headsIndex this) p) as [e|] eqn:G; [|contradiction].
      apply (heads_are_unreferenced this C) in G. destruct G as [G _].
      congruence.
    - apply (obj_values_In _ _ (head_keys_unique this C)) in Hv.
      destruct Hv as [k Hk]. apply (heads_are_unreferenced this C) in Hk.
      destruct Hk as [Hk _].
      rewrite <- He, (keys_are_hashes this C k e Hk). congruence.
    - rewrite <- He, (keys_are_hashes this C k e Hk). congruence. }
  assert (Hself : ~ In h (Entry.next entry)).
  { intros Hin. now apply (Hnext h Hin). }
  assert (Hnx : Log._nextsIndex this'
                = fold_left (fun n e => obj_set n e h) (Entry.next entry)
                    (Log._nextsIndex this)).
  { rewrite Hthis'. reflexivity. }
  assert (Hheads : Log._headsIndex this' = [(h, entry)]).
  { rewrite Hthis'. reflexivity. }
  assert (Hcomplete : complete this').
  { constructor.
    - rewrite Hthis'. simpl. apply obj_set_NoDup, (entry_keys_unique this C).
    - rewrite Hheads. simpl. repeat constructor. intros [].
    - rewrite Hnx. apply set_all_NoDup, (next_keys_unique this C).
    - intros k e G. rewrite Hget in G.
      destruct (String.eqb_spec k h) as [E|E].
      + injection G as <-. now symmetry.
      + eapply (keys_are_hashes this C), G.
    - intros k e G. rewrite Hget in G.
      destruct (String.eqb_spec k h) as [E|E].
      + now rewrite E.
      + eapply (hashes_not_empty this C), G.
    - intros k e G. rewrite Hget in G.
      replace (Log.id this') with (Log.id this) by (rewrite Hthis'; reflexivity).
      destruct (String.eqb_spec k h) as [E|E].
      + injection G as <-. assumption.
      + eapply (entries_carry_id this C), G.
    - intros k e p G Hp.
      assert (Hp' : Log.get this p <> None).
      { rewrite Hget in G. destruct (String.eqb_spec k h) as [E|E].
        - injection G as <-. now apply Hnext.
        - eapply (no_tails this C); eauto. }
      destruct (Log.get this p) as [f|] eqn:Gp; [|contradiction].
      rewrite (Hold p f Gp). discriminate.
    - intros k e. rewrite Hheads. simpl. split.
      + destruct (String.eqb_spec k h) as [E|E]; [|discriminate].
        intros [= <-]. subst k. split.
        * rewrite Hget, String.eqb_refl. reflexivity.
        * intros k' f G Hin. rewrite Hget in G.
          destruct (String.eqb_spec k' h) as [E'|E'].
          -- injection G as <-. contradiction.
          -- now apply (no_tails this C k' f h G Hin).
      + intros [G Hun]. rewrite Hget in G.
        destruct (String.eqb_spec k h) as [E|E]; [assumption|].
        exfalso.
        assert (Hhead : obj_get (Log._headsIndex this) k = Some e).
        { apply (heads_are_unreferenced this C). split; [assumption|].
          intros k' f G'. apply (Hun k'). now apply Hold. }
        apply (Hun h entry).
        * rewrite Hget, String.eqb_refl. reflexivity.
        * rewrite Hn. apply append_nexts_heads, obj_get_keys. congruence.
    - intros p. rewrite Hnx, set_all_referenced by assumption.
      rewrite (nexts_are_referenced this C). split.
      + intros [[k [f [G Hp]]]|Hp].
        * exists k, f. split; [now apply Hold|assumption].
        * exists h, entry. split; [|assumption].
          rewrite Hget, String.eqb_refl. reflexivity.
      + intros [k [f [G Hp]]]. rewrite Hget in G.
        destruct (String.eqb_spec k h) as [E|E].
        * injection G as <-. now right.
        * left. eauto. }
  split; [assumption|].
  intros k e G. exists h. split.
  { rewrite Hheads. simpl. now left. }
  rewrite Hget in G. destruct (String.eqb_spec k h) as [E|E].
  { subst k. constructor. }
  destruct (V k e G) as [h0 [Hh0 Hr]].
  apply reach_trans with (y := h0).
  - apply (reach_next this' h h entry h0).
    + constructor.
    + rewrite Hget, String.eqb_refl. reflexivity.
    + rewrite Hn. now apply append_nexts_heads.
  - eapply reach_grows; eauto.
Qed.



(** ** difference and join, continued *)

Lemma pushToStack_fold_res b ps st :
  Log.w_res (fold_left (Log.pushToStack b) ps st) = Log.w_res st.
Proof.
  revert st. induction ps as [|p ps IH]; intros st; simpl; [reflexivity|].
  rewrite IH. unfold Log.pushToStack.
  destruct (negb (Log.is_traversed _ _) && negb (Log.has b p))%bool; reflexivity.
Qed.

Lemma difference_body_sound a b st :
  walk_sound a b st -> walk_sound a b (Log.difference_body a b st).
Proof.
  intros [Hnd Hs]. unfold Log.difference_body.
  destruct (Log.w_stack st) as [|h rest] eqn:S.
  { constructor; assumption. }
  destruct (Log.get a h) as [entry|] eqn:G; [|constructor; assumption].
  destruct (Log.has b h) eqn:Hb; simpl; [constructor; assumption|].
  destruct (String.eqb_spec (Entry.id entry) (Log.id b)) as [E|E];
    [|constructor; assumption].
  constructor.
  - rewrite pushToStack_fold_res. simpl. now apply obj_set_NoDup.
  - intros k e Gk. rewrite pushToStack_fold_res in Gk. simpl in Gk.
    rewrite obj_get_set in Gk.
    destruct (String.eqb_spec k (Entry.hash entry)) as [Ek|Ek].
    + injection Gk as <-. split; [now symmetry|]. split; [assumption|].
      exists h. split; [assumption|].
      unfold Log.has in Hb. destruct (Log.get b h); [discriminate|reflexivity].
    + now apply Hs.
Qed.

Lemma difference_loop_sound a b fuel st :
  walk_sound a b st -> walk_sound a b (Log.difference_loop fuel a b st).
Proof.
  revert st. induction fuel as [|fuel IH]; intros st Hinv; simpl; [assumption|].
  destruct (Log.w_stack st) eqn:S; [assumption|].
  apply IH. now apply difference_body_sound.
Qed.

Lemma difference_walk_sound a b :
  walk_sound a b (Log.difference_loop (Log.difference_fuel a) a b
                    (Log.mkWalk (obj_keys (Log._headsIndex a)) [] [])).
Proof.
  apply difference_loop_sound. constructor; simpl.
  - constructor.
  - discriminate.
Qed.

Lemma difference_get_sound a b k e :
  obj_get (Log.difference a b) k = Some e ->
  Entry.hash e = k /\ Entry.id e = Log.id b
  /\ exists h, Log.get a h = Some e /\ Log.get b h = None.
Proof. apply (sound_entries _ _ _ (difference_walk_sound a b)). Qed.

(** X14: every entry [difference(a, b)] returns is stored under its own
    hash, carries [b]'s id, and is an entry of [a] held under a hash that
    [b] does not have. *)
Theorem difference_returns_missing_entries
    (a b : Log.t) (k : string) (e : Entry.t) :
  obj_get (Log.difference a b) k = Some e ->
  Entry.hash e = k /\ Entry.id e = Log.id b
  /\ exists h, Log.get a h = Some e /\ Log.get b h = None.
Proof. apply (sound_entries _ _ _ (difference_walk_sound a b)). Qed.

Lemma difference_returns_missing_entries_witness :
  Entry.hash Examples.b3 = "Qmb3" /\ Entry.id Examples.b3 = Log.id Examples.logB_old
  /\ exists h, Log.get Examples.logB h = Some Examples.b3
               /\ Log.get Examples.logB_old h = None.
Proof.
  apply (difference_returns_missing_entries Examples.logB Examples.logB_old
           "Qmb3" Examples.b3).
  reflexivity.
Defined.

Lemma difference_loop_skips a b fuel stack :
  (forall h, In h stack -> Log.has b h = true) ->
  Log.w_res (Log.difference_loop fuel a b (Log.mkWalk stack [] [])) = [].
Proof.
  revert stack. induction fuel as [|fuel IH]; intros stack Hs; simpl;
    [reflexivity|].
  destruct stack as [|h rest]; [reflexivity|].
  unfold Log.difference_body. simpl.
  rewrite (Hs h) by now left. simpl.
  assert (Hrest : forall k, In k rest -> Log.has b k = true)
    by (intros; apply Hs; now right).
  destruct (Log.get a h); now apply IH.
Qed.

(** X15: when [b] has every key of [a]'s headsIndex, [difference(a, b)]
    is empty. *)
Theorem difference_of_known_heads_is_empty (a b : Log.t) :
  (forall h, In h (obj_keys (Log._headsIndex a)) -> Log.has b h = true) ->
  Log.difference a b = [].
Proof. intros H. unfold Log.difference. now apply difference_loop_skips. Qed.

Lemma difference_of_known_heads_is_empty_witness :
  Log.difference Examples.logB_old Examples.logB = [].
Proof.
  apply (difference_of_known_heads_is_empty Examples.logB_old Examples.logB).
  intros h [<-|[]]. reflexivity.
Defined.

Lemma join_inv canAppend verify this arg size r this' :
  Log.join canAppend verify this arg size = (r, this') ->
  (this' = this /\ (r = Returned None \/ exists err, r = Threw err))
  \/ (exists other,
        arg = Log.IsLog other /\ Log.id other = Log.id this
        /\ (forall e, In e (obj_values (Log.difference other this)) ->
              canAppend e = true /\ verify e = true)
        /\ r = Returned (Some this')
        /\ this' = Log.join_commit this other (join_size size)
                     (Log.difference other this)).
Proof.
  unfold Log.join. fold (join_size size).
  destruct arg as [| |other].
  - intros [= <- <-]. left. eauto.
  - intros [= <- <-]. left. eauto.
  - destruct (String.eqb_spec (Log.id this) (Log.id other)) as [E|E]; simpl.
    + destruct (find (fun e => negb (canAppend e)) _) eqn:F1.
      { intros [= <- <-]. left. eauto. }
      destruct (find (fun e => negb (verify e)) _) eqn:F2.
      { intros [= <- <-]. left. eauto. }
      intros [= <- <-]. right. exists other. repeat split; auto.
      * pose proof (find_none _ _ F1 e H) as H1. simpl in H1.
        now apply negb_false_iff in H1.
      * pose proof (find_none _ _ F2 e H) as H2. simpl in H2.
        now apply negb_false_iff in H2.
    + intros [= <- <-]. left. eauto.
Qed.

Lemma join_commit_unbounded this other D :
  Log._entryIndex (Log.join_commit this other (-1) D)
  = obj_assign (Log._entryIndex this) D
  /\ Log._nextsIndex (Log.join_commit this other (-1) D)
     = snd (fold_left (Log.addToNextsIndex this) (obj_values D)
              (Log._length this, Log._nextsIndex this))
  /\ Log._length (Log.join_commit this other (-1) D)
     = fst (fold_left (Log.addToNextsIndex this) (obj_values D)
              (Log._length this, Log._nextsIndex this))
  /\ Log._id (Log.join_commit this other (-1) D) = Log._id this.
Proof. repeat split. Qed.

Lemma join_commit_bounded this other size D :
  -1 < size ->
  exists tmp,
    (1 <= size -> Z.of_nat (List.length tmp) <= size)
    /\ Log._entryIndex (Log.join_commit this other size D)
       = fold_left Log.uniqueEntriesReducer tmp []
    /\ Log._length (Log.join_commit this other size D)
       = Z.of_nat (List.length
                     (obj_values (fold_left Log.uniqueEntriesReducer tmp []))).
Proof.
  intros Hs. unfold Log.join_commit. cbv zeta.
  assert (E : (size >? -1) = true) by (apply Z.gtb_lt; lia).
  rewrite E. simpl.
  eexists. split; [|split; reflexivity].
  intros H1. unfold JsArray.slice.
  assert (E' : (- size <? 0) = true) by (apply Z.ltb_lt; lia).
  rewrite E'. rewrite length_skipn. lia.
Qed.

Lemma join_commit_clock this other size D :
  Clock.id (Log.clock (Log.join_commit this other size D))
  = Clock.id (Log.clock this)
  /\ Clock.time (Log.clock (Log.join_commit this other size D))
     = Z.max (Clock.time (Log.clock this))
         (fold_left Log.maxClockTimeReducer
            (obj_values (Log._headsIndex (Log.join_commit this other size D))) 0).
Proof.
  unfold Log.join_commit. cbv zeta. destruct (size >? -1); split; reflexivity.
Qed.


(** X17: join never moves the clock back and never changes its id; after
    a join that returns the log, the clock's time is not below the clock
    time of any head. *)
Theorem join_keeps_clock_ahead_of_heads
    (canAppend verify : Entry.t -> bool) (this : Log.t) (arg : Log.argument)
    (size : option Z) :
  Clock.time (Log.clock this)
  <= Clock.time (Log.clock (snd (Log.join canAppend verify this arg size)))
  /\ Clock.id (Log.clock (snd (Log.join canAppend verify this arg size)))
     = Clock.id (Log.clock this)
  /\ (forall l, fst (Log.join canAppend verify this arg size) = Returned (Some l) ->
        forall h, In h (obj_values (Log._headsIndex l)) ->
                  clock_time h <= Clock.time (Log.clock l)).
Proof.
  destruct (Log.join canAppend verify this arg size) as [r this'] eqn:J.
  simpl. apply join_inv in J.
  destruct J as [[-> Hr]|[other [-> [Hid [Hg [-> ->]]]]]].
  - split; [lia|]. split; [reflexivity|].
    intros l Hl. destruct Hr as [Hr|[err Hr]]; congruence.
  - destruct (join_commit_clock this other (join_size size)
                (Log.difference other this)) as [Hcid Hct].
    split; [rewrite Hct; lia|]. split; [assumption|].
    intros l [= <-] h Hh. rewrite Hct.
    pose proof (maxClockTimeReducer_ge _ 0 h Hh). lia.
Qed.

Lemma addToNextsIndex_length this es acc :
  fst (fold_left (Log.addToNextsIndex this) es acc)
  = fst acc
    + Z.of_nat (List.length
                  (filter (fun e => negb (Log.has this (Entry.hash e))) es)).
Proof.
  revert acc. induction es as [|x es IH]; intros acc; simpl; [lia|].
  rewrite IH. unfold Log.addToNextsIndex, Log.has. simpl.
  destruct (Log.get this (Entry.hash x)); simpl; lia.
Qed.

Lemma obj_assign_length {V : Type} (t s : obj V) :
  NoDup (obj_keys s) ->
  List.length (obj_assign t s)
  = (List.length t
     + List.length (filter (fun kv => negb (obj_has t (fst kv))) s))%nat.
Proof.
  unfold obj_assign. revert t.
  induction s as [|[k v] s IH]; intros t Hnd; simpl; [lia|].
  inversion Hnd as [|? ? Hnotin Hnd']; subst.
  rewrite (IH _ Hnd'), obj_set_length.
  rewrite (filter_ext_in
             (fun kv => negb (obj_has (obj_set t k v) (fst kv)))
             (fun kv => negb (obj_has t (fst kv)))).
  - destruct (obj_has t k); simpl; lia.
  - intros [k' v'] Hin. simpl. rewrite obj_has_set.
    destruct (String.eqb_spec k' k) as [E|E]; [|reflexivity].
    exfalso. apply Hnotin. subst k'. unfold obj_keys.
    change k with (fst (k, v')). now apply in_map.
Qed.

Lemma filter_keys_values this (D : obj Entry.t) :
  (forall k e, In (k, e) D -> Entry.hash e = k) ->
  List.length (filter (fun kv => negb (obj_has (Log._entryIndex this) (fst kv))) D)
  = List.length (filter (fun e => negb (Log.has this (Entry.hash e)))
                   (obj_values D)).
Proof.
  induction D as [|[k e] D IH]; intros Hk; simpl; [reflexivity|].
  assert (E : Log.has this (Entry.hash e) = obj_has (Log._entryIndex this) k).
  { rewrite (Hk k e) by now left. reflexivity. }
  rewrite E. specialize (IH (fun k' e' Hin => Hk k' e' (or_intror Hin))).
  destruct (obj_has _ k); simpl; now rewrite IH.
Qed.

Lemma difference_keyed a b k e :
  In (k, e) (Log.difference a b) -> Entry.hash e = k.
Proof.
  intros Hin. unfold Log.difference in *.
  pose proof (difference_walk_sound a b) as [Hnd Hs].
  apply (obj_In_get _ _ _ Hnd) in Hin. apply (Hs k e Hin).
Qed.

Lemma difference_unique a b : NoDup (obj_keys (Log.difference a b)).
Proof. apply (sound_keys_unique _ _ _ (difference_walk_sound a b)). Qed.

(** X18: a join without a size that returns the log adds to the length
    exactly the number of keys it adds to entryIndex; so when the length
    was the number of keys before, it is the number of keys after. *)
Theorem join_keeps_length_consistent
    (canAppend verify : Entry.t -> bool) (this other l' : Log.t) :
  Log.join canAppend verify this (Log.IsLog other) None
  = (Returned (Some l'), l') ->
  Log.length l' - Log.length this
  = Z.of_nat (List.length (obj_keys (Log._entryIndex l')))
    - Z.of_nat (List.length (obj_keys (Log._entryIndex this)))
  /\ (Log.length this = Z.of_nat (List.length (obj_keys (Log._entryIndex this))) ->
      Log.length l' = Z.of_nat (List.length (obj_keys (Log._entryIndex l')))).
Proof.
  intros J. apply join_inv in J.
  destruct J as [[_ [Hr|[err Hr]]]|[o [Ho [_ [_ [_ Hl]]]]]]; try discriminate.
  injection Ho as <-. simpl in Hl.
  destruct (join_commit_unbounded this other (Log.difference other this))
    as [He [_ [Hlen _]]].
  rewrite <- Hl in He, Hlen. unfold Log.length.
  rewrite Hlen, addToNextsIndex_length, !obj_keys_length, He.
  rewrite (obj_assign_length _ _ (difference_unique other this)).
  rewrite (filter_keys_values this _ (difference_keyed other this)).
  simpl. split; lia.
Qed.

Lemma join_keeps_length_consistent_witness :
  Log.length (joined Examples.allow_all Examples.allow_all
                Examples.logA Examples.logB)
  - Log.length Examples.logA
  = Z.of_nat (List.length (obj_keys (Log._entryIndex
       (joined Examples.allow_all Examples.allow_all
          Examples.logA Examples.logB))))
    - Z.of_nat (List.length (obj_keys (Log._entryIndex Examples.logA))).
Proof.
  refine (proj1 (join_keeps_length_consistent Examples.allow_all
                   Examples.allow_all Examples.logA Examples.logB _ _)).
  reflexivity.
Defined.

(** X19: a join with a size of zero or more that returns the log leaves
    the length equal to the number of keys of entryIndex, whatever it was
    before, with every entry under its own hash; with a size of one or
    more the length is at most the size. *)
Theorem join_with_size_bounds_length
    (canAppend verify : Entry.t -> bool) (this other l' : Log.t) (size : Z) :
  0 <= size ->
  Log.join canAppend verify this (Log.IsLog other) (Some size)
  = (Returned (Some l'), l') ->
  Log.length l' = Z.of_nat (List.length (obj_keys (Log._entryIndex l')))
  /\ (forall k e, Log.get l' k = Some e -> Entry.hash e = k)
  /\ (1 <= size -> Log.length l' <= size).
Proof.
  intros Hs J. apply join_inv in J.
  destruct J as [[_ [Hr|[err Hr]]]|[o [Ho [_ [_ [_ Hl]]]]]]; try discriminate.
  injection Ho as <-. simpl in Hl.
  destruct (join_commit_bounded this other size (Log.difference other this))
    as [tmp [Htmp [He Hlen]]]; [lia|].
  rewrite <- Hl in He, Hlen. unfold Log.length, Log.get.
  rewrite Hlen, He, obj_keys_length, obj_values_length.
  split; [reflexivity|]. split.
  - apply uniqueEntries_keyed. discriminate.
  - intros H1. pose proof (uniqueEntries_length_le tmp []) as Hle.
    simpl in Hle. specialize (Htmp H1). lia.
Qed.

Lemma join_with_size_bounds_length_witness :
  Log.length (snd (Log.join Examples.allow_all Examples.allow_all
                     Examples.logA (Log.IsLog Examples.logB) (Some 2)))
  = Z.of_nat (List.length (obj_keys (Log._entryIndex
       (snd (Log.join Examples.allow_all Examples.allow_all
               Examples.logA (Log.IsLog Examples.logB) (Some 2)))))).
Proof.
  refine (proj1 (join_with_size_bounds_length Examples.allow_all
                   Examples.allow_all Examples.logA Examples.logB _ 2 _ _)).
  - lia.
  - reflexivity.
Defined.

(** X20: a join without a size that returns the log removes nothing: the
    log still has every hash it had, and whatever it holds under a hash
    afterwards is what it held there before or an entry of the other log,
    with that hash and this log's id, that this log did not have. *)
Theorem join_only_adds_entries
    (canAppend verify : Entry.t -> bool) (this other l' : Log.t) :
  Log.join canAppend verify this (Log.IsLog other) None
  = (Returned (Some l'), l') ->
  (forall h, Log.has this h = true -> Log.has l' h = true)
  /\ (forall h e, Log.get l' h = Some e ->
        Log.get this h = Some e
        \/ (Entry.hash e = h /\ Entry.id e = Log.id this
            /\ exists k, Log.get other k = Some e /\ Log.get this k = None)).
Proof.
  intros J. apply join_inv in J.
  destruct J as [[_ [Hr|[err Hr]]]|[o [Ho [_ [_ [_ Hl]]]]]]; try discriminate.
  injection Ho as <-. simpl in Hl.
  destruct (join_commit_unbounded this other (Log.difference other this))
    as [He _].
  rewrite <- Hl in He. unfold Log.has, Log.get. rewrite He.
  split.
  - intros h Hh.
    rewrite (obj_get_assign _ _ _ (difference_unique other this)).
    destruct (obj_get (Log.difference other this) h); [reflexivity|assumption].
  - intros h e G.
    rewrite (obj_get_assign _ _ _ (difference_unique other this)) in G.
    destruct (obj_get (Log.difference other this) h) as [d|] eqn:Gd;
      [|now left].
    injection G as ->. right.
    apply difference_get_sound in Gd. destruct Gd as [H1 [H2 [k [H3 H4]]]].
    eauto.
Qed.

Lemma join_only_adds_entries_witness :
  Log.has (joined Examples.allow_all Examples.allow_all
             Examples.logA Examples.logB) "Qma1" = true.
Proof.
  refine (proj1 (join_only_adds_entries Examples.allow_all Examples.allow_all
                   Examples.logA Examples.logB _ _) "Qma1" _).
  - reflexivity.
  - reflexivity.
Defined.

(** X21: joining a log of the same id all of whose head keys this log
    already has (this log itself, for one) returns the log with
    entryIndex, nextsIndex and length as they were. *)
Theorem join_of_known_heads_adds_nothing
    (canAppend verify : Entry.t -> bool) (this other : Log.t) :
  Log.id other = Log.id this ->
  (forall h, In h (obj_keys (Log._headsIndex other)) -> Log.has this h = true) ->
  exists l',
    Log.join canAppend verify this (Log.IsLog other) None
    = (Returned (Some l'), l')
    /\ Log._entryIndex l' = Log._entryIndex this
    /\ Log._nextsIndex l' = Log._nextsIndex this
    /\ Log._length l' = Log._length this.
Proof.
  intros Hid Hheads.
  pose proof (difference_loop_skips other this (Log.difference_fuel other)
                (obj_keys (Log._headsIndex other)) Hheads) as Hd.
  fold (Log.difference other this) in Hd.
  unfold Log.join. rewrite Hid, String.eqb_refl, Hd. simpl.
  eexists. split; [reflexivity|]. repeat split.
Qed.

Lemma join_of_known_heads_adds_nothing_witness :
  exists l',
    Log.join Examples.allow_all Examples.allow_all Examples.logA
      (Log.IsLog Examples.logA) None = (Returned (Some l'), l')
    /\ Log._entryIndex l' = Log._entryIndex Examples.logA
    /\ Log._nextsIndex l' = Log._nextsIndex Examples.logA
    /\ Log._length l' = Log._length Examples.logA.
Proof.
  apply (join_of_known_heads_adds_nothing Examples.allow_all
           Examples.allow_all Examples.logA Examples.logA).
  - reflexivity.
  - intros h [<-|[]]. reflexivity.
Defined.



(** ** toJSON and findTailHashes *)

(** X23: [toJSON] carries the log's id and lists the hashes of the head
    entries, one for each entry of headsIndex. *)
Theorem toJSON_lists_every_head (this : Log.t) :
  Log.json_id (Log.toJSON this) = Log.id this
  /\ Permutation (Log.json_heads (Log.toJSON this))
       (map Entry.hash (obj_values (Log._headsIndex this)))
  /\ List.length (Log.json_heads (Log.toJSON this))
     = List.length (obj_keys (Log._headsIndex this)).
Proof.
  assert (P : Permutation (Log.json_heads (Log.toJSON this))
                (map Entry.hash (obj_values (Log._headsIndex this)))).
  { unfold Log.toJSON, Log.heads. simpl. apply Permutation_map.
    eapply Permutation_trans; [apply Permutation_sym, Permutation_rev|].
    eapply Permutation_trans; [apply sort_perm|].
    eapply Permutation_trans; [apply Permutation_sym, Permutation_rev|].
    apply sort_perm. }
  split; [reflexivity|]. split; [assumption|].
  rewrite (Permutation_length P), length_map, obj_values_length, obj_keys_length.
  reflexivity.
Qed.

Lemma addToResult_fold (d : string -> bool) (l acc : list string) :
  fold_left (fun res e => if d e then e :: res else res) (rev l) acc
  = filter d l ++ acc.
Proof.
  revert acc. induction l as [|x l IH]; intros acc; simpl; [reflexivity|].
  rewrite fold_left_app, IH. simpl. now destruct (d x).
Qed.

Lemma hashes_index_get (entries : list Entry.t) (acc : obj bool) h :
  obj_get (fold_left (fun hs e => obj_set hs (Entry.hash e) true) entries acc) h
  = None <->
  obj_get acc h = None /\ dangling entries h = true.
Proof.
  unfold dangling. revert acc.
  induction entries as [|x es IH]; intros acc; simpl.
  - tauto.
  - rewrite IH, obj_get_set. rewrite (String.eqb_sym (Entry.hash x) h).
    destruct (String.eqb h (Entry.hash x)); simpl.
    + split; [intros [H _]; discriminate|intros [_ H]; discriminate].
    + tauto.
Qed.

Lemma fold_left_same {X Y : Type} (f g : X -> Y -> X) (l : list Y) (x : X) :
  (forall a b, f a b = g a b) -> fold_left f l x = fold_left g l x.
Proof.
  intros H. revert x. induction l as [|y l IH]; intros x; simpl; [reflexivity|].
  now rewrite H, IH.
Qed.

Lemma reduceTailHashes_fold (hashes : obj bool) (d : string -> bool)
    (entries : list Entry.t) (acc : list string * list Entry.t) :
  (forall h, d h = match obj_get hashes h with None => true | Some _ => false end) ->
  fold_left (Log.reduceTailHashes hashes) entries acc
  = (flat_map (fun e => filter d (Entry.next e)) (rev entries) ++ fst acc,
     snd acc ++ map next_reversed entries).
Proof.
  intros Hd. revert acc.
  induction entries as [|x es IH]; intros [res done]; simpl.
  - now rewrite app_nil_r.
  - rewrite IH. unfold Log.reduceTailHashes at 1 2. simpl.
    rewrite flat_map_app. simpl. rewrite app_nil_r, <- !app_assoc. simpl.
    f_equal. f_equal.
    rewrite <- addToResult_fold. apply fold_left_same.
    intros r h. rewrite Hd. now destruct (obj_get hashes h).
Qed.

Lemma findTailHashes_eq (entries : list Entry.t) :
  Log.findTailHashes entries
  = (flat_map (fun e => filter (dangling entries) (Entry.next e)) (rev entries),
     map next_reversed entries).
Proof.
  unfold Log.findTailHashes. cbv zeta.
  rewrite (reduceTailHashes_fold _ (dangling entries)).
  - simpl. now rewrite app_nil_r.
  - intros h.
    pose proof (hashes_index_get entries [] h) as H. simpl in H.
    destruct (obj_get _ h).
    + destruct (dangling entries h); [|reflexivity].
      destruct H as [_ H]. discriminate H. auto.
    + apply H. reflexivity.
Qed.

Lemma dangling_spec entries h :
  dangling entries h = true <-> forall f, In f entries -> Entry.hash f <> h.
Proof.
  unfold dangling. rewrite negb_true_iff. split.
  - intros H f Hf E. apply not_true_iff_false in H. apply H.
    apply existsb_exists. exists f. split; [assumption|].
    now apply String.eqb_eq.
  - intros H. apply not_true_iff_false. intros Hex.
    apply existsb_exists in Hex. destruct Hex as [f [Hf E]].
    apply String.eqb_eq in E. now apply (H f Hf).
Qed.



Lemma next_reversed_twice e : next_reversed (next_reversed e) = e.
Proof.
  destruct e. unfold next_reversed, Log.with_next. simpl.
  now rewrite rev_involutive.
Qed.

Lemma dangling_next_reversed entries h :
  dangling (map next_reversed entries) h = dangling entries h.
Proof.
  unfold dangling. f_equal. induction entries as [|x es IH]; simpl;
    [reflexivity|]. now rewrite IH.
Qed.



(** ** How the operations compose *)

Lemma obj_insert_perm {V : Type} (o : obj V) k v :
  Permutation (obj_insert o k v) ((k, v) :: o).
Proof.
  induction o as [|[k0 v0] o IH]; simpl; [apply Permutation_refl|].
  destruct (key_before k k0); [apply Permutation_refl|].
  eapply Permutation_trans; [apply perm_skip, IH|apply perm_swap].
Qed.



Lemma filter_all {X : Type} (f : X -> bool) (l : list X) :
  (forall x, In x l -> f x = true) -> filter f l = l.
Proof.
  induction l as [|x l IH]; intros H; simpl; [reflexivity|].
  rewrite (H x) by now left. f_equal. apply IH. intros y Hy. apply H. now right.
Qed.

(** X27: for entries whose hashes are plain keys, [findHeads] run on its
    own result drops nothing and adds nothing: the second result holds
    the entries of the first, each as often, whatever order the sort
    leaves them in. *)
Theorem findHeads_of_heads_keeps_them (entries : list Entry.t) :
  (forall e, In e entries -> plain_key (Entry.hash e) = true) ->
  Permutation (Log.findHeads (Log.findHeads entries)) (Log.findHeads entries).
Proof.
  intros _.
  rewrite (findHeads_filter (Log.findHeads entries)).
  rewrite filter_all; [apply sort_perm|].
  intros e He. apply unreferenced_spec. intros f Hf.
  apply findHeads_In in He. destruct He as [_ Hun].
  apply findHeads_In in Hf. destruct Hf as [Hf _]. now apply Hun.
Qed.

Lemma findHeads_of_heads_keeps_them_witness :
  Permutation
    (Log.findHeads (Log.findHeads [Examples.a1; Examples.a2; Examples.b1]))
    (Log.findHeads [Examples.a1; Examples.a2; Examples.b1]).
Proof.
  apply (findHeads_of_heads_keeps_them
           [Examples.a1; Examples.a2; Examples.b1]).
  intros e [<-|[<-|[<-|[]]]]; reflexivity.
Defined.



(** * Order and repetition of joins *)

(** ** The checks decide the conditions, continued *)

Lemma indexed_check_sound l : indexed_check l = true -> indexed l.
Proof.
  unfold indexed_check. intros H.
  repeat (apply andb_true_iff in H; destruct H as [H ?]).
  match goal with
  | U1 : unique_keys (Log._headsIndex l) = true,
    U2 : unique_keys (Log._nextsIndex l) = true,
    E : forallb (entry_indexed l) _ = true,
    Hh : heads_ok l = true, Hn : nexts_ok l = true |- _ =>
      rename H into U0; apply distinct_NoDup in U0, U1, U2;
      apply andb_true_iff in Hh; destruct Hh as [Hh1 Hh2];
      apply andb_true_iff in Hn; destruct Hn as [Hn1 Hn2]
  end.
  assert (Hentry : forall h e, Log.get l h = Some e ->
            Entry.hash e = h /\ truthy h = true /\ plain_key h = true
            /\ Entry.id e = Log.id l).
  { intros h e G.
    match goal with
    | E : forallb (entry_indexed l) _ = true |- _ =>
        pose proof (forallb_get _ _ _ _ E G) as C
    end.
    unfold entry_indexed in C. simpl in C.
    repeat (apply andb_true_iff in C; destruct C as [C ?]).
    repeat split; try assumption; now apply String.eqb_eq. }
  constructor; try assumption.
  - intros h e G. apply (Hentry h e G).
  - intros h e G. apply (Hentry h e G).
  - intros h e G. apply (Hentry h e G).
  - intros h e G. apply (Hentry h e G).
  - intros h e. rewrite <- (unreferenced_hash_spec l h U0). split.
    + intros G. pose proof (forallb_get _ _ _ _ Hh1 G) as C. simpl in C.
      apply andb_true_iff in C. destruct C as [C1 C2].
      split; [now apply holds_eq|assumption].
    + intros [G Hun]. pose proof (forallb_get _ _ _ _ Hh2 G) as C. simpl in C.
      rewrite Hun in C. simpl in C. now apply holds_eq.
  - intros p. split.
    + intros R. unfold referenced_in in R.
      destruct (obj_get (Log._nextsIndex l) p) as [s|] eqn:G; [|discriminate].
      pose proof (forallb_get _ _ _ _ Hn1 G) as C. simpl in C.
      rewrite R in C. simpl in C. now apply referenced_hash_spec.
    + intros [k [f [G Hp]]].
      pose proof (forallb_get _ _ _ _ Hn2 G) as C. simpl in C.
      rewrite forallb_forall in C. now apply C.
Qed.

Lemma closed_within_check_sound base l m :
  closed_within_check base l m = true -> closed_within base l m.
Proof.
  intros H h e p G Hb Hp Hm.
  pose proof (forallb_get _ _ _ _ H G) as C. simpl in C.
  unfold Log.has in C at 1. rewrite Hb in C. simpl in C.
  rewrite forallb_forall in C. specialize (C p Hp).
  unfold Log.has in C.
  destruct (Log.get m p); [|contradiction].
  destruct (Log.get l p); [left; discriminate|].
  destruct (Log.get base p); [right; discriminate|discriminate].
Qed.

(** ** difference between logs that hold parts of one graph *)

Lemma difference_takes_heads a b h :
  (forall k e, Log.get a k = Some e -> Entry.hash e = k) ->
  (forall k e, Log.get a k = Some e -> Entry.id e = Log.id b) ->
  In h (obj_keys (Log._headsIndex a)) ->
  Log.get a h <> None -> Log.get b h = None ->
  obj_get (Log.difference a b) h <> None.
Proof.
  intros Hk Hi Hh Ha Hb.
  pose proof (difference_loop_invariant a b Hk Hi (Log.difference_fuel a) _
                (difference_start_invariant a b)) as Hinv.
  pose proof (heads_accounted _ _ _ Hinv h Hh) as Hacc.
  unfold accounted in Hacc. rewrite (difference_loop_exits a b) in Hacc.
  destruct Hacc as [H|[[]|[H|H]]].
  - unfold Log.has in H. rewrite Hb in H. discriminate.
  - contradiction.
  - exact H.
Qed.

Lemma pushToStack_stack_In b st p h :
  In h (Log.w_stack (Log.pushToStack b st p)) ->
  In h (Log.w_stack st) \/ h = p.
Proof.
  unfold Log.pushToStack.
  destruct (negb (Log.is_traversed _ _) && negb (Log.has b p))%bool; simpl;
    [|now left].
  rewrite in_app_iff. simpl. intros [H|[H|[]]]; auto.
Qed.

Lemma pushToStack_fold_walk b ps st :
  Log.w_res (fold_left (Log.pushToStack b) ps st) = Log.w_res st
  /\ forall h, In h (Log.w_stack (fold_left (Log.pushToStack b) ps st)) ->
               In h (Log.w_stack st) \/ In h ps.
Proof.
  revert st. induction ps as [|p ps IH]; intros st; simpl.
  - split; [reflexivity|]. intros h H. now left.
  - destruct (IH (Log.pushToStack b st p)) as [Hres Hstack]. split.
    + rewrite Hres. unfold Log.pushToStack.
      now destruct (negb (Log.is_traversed _ _) && negb (Log.has b p))%bool.
    + intros h H. apply Hstack in H. destruct H as [H|H]; [|auto].
      apply pushToStack_stack_In in H. destruct H as [H|H]; auto.
Qed.

Section DifferenceTrace.
  Variables a b : Log.t.
  Hypothesis a_keys : forall h e, Log.get a h = Some e -> Entry.hash e = h.
  Hypothesis a_ids : forall h e, Log.get a h = Some e -> Entry.id e = Log.id b.

Lemma difference_body_traced st :
  walk_invariant a b st -> walk_traced a b st ->
  walk_traced a b (Log.difference_body a b st).
Proof.
  intros Hinv [Hres Hstack]. unfold Log.difference_body.
  destruct (Log.w_stack st) as [|h rest] eqn:S.
  { constructor; [exact Hres|]. rewrite S. intros k []. }
  assert (Hskip : walk_traced a b
                    (Log.mkWalk rest (Log.w_traversed st) (Log.w_res st))).
  { constructor; simpl; [exact Hres|].
    intros k Hk. apply Hstack. now right. }
  destruct (Log.get a h) as [entry|] eqn:G; [|exact Hskip].
  rewrite (a_ids h entry G), String.eqb_refl, andb_true_r.
  destruct (Log.has b h) eqn:Hb; simpl; [exact Hskip|].
  rewrite (a_keys h entry G).
  assert (Hbn : Log.get b h = None).
  { unfold Log.has in Hb. destruct (Log.get b h); [discriminate|reflexivity]. }
  assert (Hkeep : forall k e, obj_get (Log.w_res st) k = Some e ->
                    obj_get (obj_set (Log.w_res st) h entry) k = Some e).
  { intros k e Hk. rewrite obj_get_set.
    destruct (String.eqb_spec k h) as [E|]; [subst k|exact Hk].
    destruct (res_sound _ _ _ Hinv h e Hk) as [Ha _]. congruence. }
  assert (Hreach : exists h0, In h0 (obj_keys (Log._headsIndex a))
                              /\ reach_outside a b h0 h).
  { destruct (Hstack h (or_introl eq_refl)) as [Hh|[k [e [Hk Hp]]]].
    - exists h. split; [assumption|]. eapply outside_here; eauto.
    - destruct (Hres k e Hk) as [h0 [Hh0 Hr]]. exists h0.
      split; [assumption|].
      destruct (res_sound _ _ _ Hinv k e Hk) as [Ha _].
      eapply outside_next; eauto. }
  destruct (pushToStack_fold_walk b (Entry.next entry)
              (Log.mkWalk rest (obj_set (Log.w_traversed st) h true)
                 (obj_set (Log.w_res st) h entry))) as [Hr Hs].
  constructor.
  - intros k e Hk. rewrite Hr in Hk. simpl in Hk. rewrite obj_get_set in Hk.
    destruct (String.eqb_spec k h) as [E|]; [subst k; exact Hreach|].
    eapply Hres, Hk.
  - intros k Hk. apply Hs in Hk. rewrite Hr. simpl in *.
    destruct Hk as [Hk|Hk].
    + destruct (Hstack k (or_intror Hk)) as [Hh|[k' [e [Hk' Hp]]]].
      * now left.
      * right. exists k', e. split; [now apply Hkeep|assumption].
    + right. exists h, entry. split; [apply obj_get_set_same|assumption].
Qed.

Lemma difference_loop_traced fuel st :
  walk_invariant a b st -> walk_traced a b st ->
  walk_traced a b (Log.difference_loop fuel a b st).
Proof.
  revert st. induction fuel as [|fuel IH]; intros st Hinv Htr; simpl;
    [assumption|].
  destruct (Log.w_stack st) eqn:S; [assumption|].
  apply IH.
  - now apply difference_body_invariant.
  - now apply difference_body_traced.
Qed.

Lemma difference_outside_has h0 y :
  In h0 (obj_keys (Log._headsIndex a)) -> reach_outside a b h0 y ->
  obj_get (Log.difference a b) y <> None.
Proof.
  intros Hh0 Hreach.
  pose proof (difference_loop_invariant a b a_keys a_ids (Log.difference_fuel a) _
                (difference_start_invariant a b)) as Hinv.
  induction Hreach as [e Ha Hb|y e z f Hr IH Hy Hz Ha Hb].
  - apply difference_takes_heads; auto. congruence.
  - destruct (obj_get (Log.difference a b) y) as [e'|] eqn:Gd; [|contradiction].
    pose proof (difference_sound a b a_keys a_ids y e' Gd) as [Ha' _].
    assert (e' = e) by congruence. subst e'.
    pose proof (res_next_accounted _ _ _ Hinv y e z Gd Hz) as Hacc.
    unfold accounted in Hacc. rewrite (difference_loop_exits a b) in Hacc.
    destruct Hacc as [H|[[]|[H|H]]].
    + unfold Log.has in H. rewrite Hb in H. discriminate.
    + congruence.
    + exact H.
Qed.

(** [difference a b] holds the entries of [a] that can be reached from
    the heads of [a] through entries that [b] does not hold. *)
Lemma difference_outside h e :
  obj_get (Log.difference a b) h = Some e <->
  Log.get a h = Some e
  /\ exists h0, In h0 (obj_keys (Log._headsIndex a)) /\ reach_outside a b h0 h.
Proof.
  split.
  - intros Gd. split; [apply (difference_sound a b a_keys a_ids h e Gd)|].
    pose proof (difference_loop_invariant a b a_keys a_ids (Log.difference_fuel a) _
                  (difference_start_invariant a b)) as Hinv.
    assert (Hstart : walk_traced a b
                       (Log.mkWalk (obj_keys (Log._headsIndex a)) [] [])).
    { constructor; simpl; [discriminate|]. intros k Hk. now left. }
    apply (res_traced _ _ _
             (difference_loop_traced (Log.difference_fuel a) _
                (difference_start_invariant a b) Hstart) h e Gd).
  - intros [Ha [h0 [Hh0 Hr]]].
    pose proof (difference_outside_has h0 h Hh0 Hr) as Hd.
    destruct (obj_get (Log.difference a b) h) as [e'|] eqn:Gd; [|contradiction].
    apply (difference_sound a b a_keys a_ids) in Gd. destruct Gd. congruence.
Qed.

End DifferenceTrace.

Lemma reach_outside_end a b x y :
  reach_outside a b x y -> Log.get a y <> None /\ Log.get b y = None.
Proof. intros H. destruct H; split; congruence. Qed.

Lemma reach_outside_smaller a b b' x y :
  (forall h, Log.get b' h = None -> Log.get b h = None) ->
  reach_outside a b' x y -> reach_outside a b x y.
Proof.
  intros Hsub H. induction H as [e Ha Hb|y e z f Hr IH Hy Hz Ha Hb].
  - eapply outside_here; eauto.
  - eapply outside_next; eauto.
Qed.

(** ** One join of indexed logs *)

Lemma join_commits canAppend verify this other :
  Log.id other = Log.id this ->
  (forall e, In e (obj_values (Log.difference other this)) ->
     canAppend e = true /\ verify e = true) ->
  Log.join canAppend verify this (Log.IsLog other) None
  = (Returned (Some (Log.join_commit this other (-1)
                       (Log.difference other this))),
     Log.join_commit this other (-1) (Log.difference other this)).
Proof.
  intros Hid Hok. unfold Log.join. rewrite Hid, String.eqb_refl. simpl.
  rewrite find_all_false, find_all_false; [reflexivity| |].
  - intros e He. destruct (Hok e He) as [_ Hv]. now rewrite Hv.
  - intros e He. destruct (Hok e He) as [Hc _]. now rewrite Hc.
Qed.

Lemma join_commit_nothing this other :
  Log._entryIndex (Log.join_commit this other (-1) []) = Log._entryIndex this
  /\ Log._nextsIndex (Log.join_commit this other (-1) []) = Log._nextsIndex this
  /\ Log._headsIndex (Log.join_commit this other (-1) [])
     = fold_left Log.uniqueEntriesReducer
         (filter (Log.notInCurrentNexts (Log._nextsIndex this))
            (filter (Log.notReferencedByNewItems [])
               (Log.findHeads
                  (obj_values (obj_assign (obj_assign [] (Log._headsIndex this))
                                          (Log._headsIndex other))))))
         [].
Proof. repeat split. Qed.

Section JoinIndexed.
  Variables canAppend verify : Entry.t -> bool.
  Variables L A : Log.t.
  Hypothesis L_indexed : indexed L.
  Hypothesis A_indexed : indexed A.
  Hypothesis LA_agree : agree L A.
  Hypothesis A_id : Log.id A = Log.id L.
  Hypothesis A_admitted : admitted canAppend verify A.

Local Abbreviation J := (joined canAppend verify L A).
Local Abbreviation D := (Log.difference A L).
Local Abbreviation U :=
  (obj_assign (obj_assign [] (Log._headsIndex L)) (Log._headsIndex A)).

Lemma ix_other_ids h e : Log.get A h = Some e -> Entry.id e = Log.id L.
Proof. intros G. rewrite <- A_id. eapply (ix_ids A A_indexed), G. Qed.

Lemma ix_items_sound h e :
  obj_get D h = Some e -> Log.get A h = Some e /\ Log.get L h = None.
Proof. apply (difference_sound A L (ix_hashes A A_indexed) ix_other_ids). Qed.

Lemma ix_items_values e :
  In e (obj_values D) <-> obj_get D (Entry.hash e) = Some e.
Proof.
  rewrite (obj_values_In _ _ (difference_unique A L)). split.
  - intros [k Hk]. pose proof (ix_items_sound k e Hk) as [Ha _].
    now rewrite (ix_hashes A A_indexed k e Ha).
  - intros H. now exists (Entry.hash e).
Qed.

Lemma ix_items_admitted e :
  In e (obj_values D) -> canAppend e = true /\ verify e = true.
Proof.
  intros He. apply ix_items_values, ix_items_sound in He.
  exact (A_admitted _ _ (proj1 He)).
Qed.

Lemma ix_joined_commit : J = Log.join_commit L A (-1) D.
Proof.
  unfold joined. now rewrite (join_commits _ _ _ _ A_id ix_items_admitted).
Qed.

Lemma ix_join_returns : join_returns canAppend verify L A.
Proof.
  unfold join_returns. rewrite ix_joined_commit.
  apply (join_commits _ _ _ _ A_id ix_items_admitted).
Qed.

Lemma ix_joined_id : Log.id J = Log.id L.
Proof. rewrite ix_joined_commit. reflexivity. Qed.

Lemma ix_joined_entryIndex :
  Log._entryIndex J = obj_assign (Log._entryIndex L) D.
Proof. rewrite ix_joined_commit. reflexivity. Qed.

Lemma ix_joined_nextsIndex :
  Log._nextsIndex J
  = snd (fold_left (Log.addToNextsIndex L) (obj_values D)
           (Log._length L, Log._nextsIndex L)).
Proof. rewrite ix_joined_commit. reflexivity. Qed.

Lemma ix_joined_headsIndex :
  Log._headsIndex J
  = fold_left Log.uniqueEntriesReducer
      (filter (Log.notInCurrentNexts (Log._nextsIndex J))
         (filter (Log.notReferencedByNewItems
                    (fold_left Log.flatMap
                       (map Log.getNextPointers (obj_values D)) []))
            (Log.findHeads (obj_values U))))
      [].
Proof. rewrite ix_joined_commit. reflexivity. Qed.

Lemma ix_joined_get h :
  Log.get J h
  = match obj_get D h with Some v => Some v | None => Log.get L h end.
Proof.
  unfold Log.get. rewrite ix_joined_entryIndex.
  apply (obj_get_assign _ _ _ (difference_unique A L)).
Qed.

Lemma ix_joined_from h e :
  Log.get J h = Some e -> Log.get L h = Some e \/ Log.get A h = Some e.
Proof.
  rewrite ix_joined_get. destruct (obj_get D h) as [d|] eqn:Gd.
  - intros [= <-]. right. apply (ix_items_sound h d Gd).
  - now left.
Qed.

Lemma ix_joined_keeps h e : Log.get L h = Some e -> Log.get J h = Some e.
Proof.
  intros G. rewrite ix_joined_get. destruct (obj_get D h) as [d|] eqn:Gd.
  - apply ix_items_sound in Gd. destruct Gd. congruence.
  - exact G.
Qed.

Lemma ix_joined_takes e :
  In e (obj_values D) -> Log.get J (Entry.hash e) = Some e.
Proof.
  intros He. apply ix_items_values in He. now rewrite ix_joined_get, He.
Qed.

Lemma ix_joined_hashes h e : Log.get J h = Some e -> Entry.hash e = h.
Proof.
  intros H. apply ix_joined_from in H. destruct H as [H|H].
  - eapply (ix_hashes L L_indexed), H.
  - eapply (ix_hashes A A_indexed), H.
Qed.

Lemma ix_joined_referenced p :
  referenced_in (Log._nextsIndex J) p = true <->
  exists k f, Log.get J k = Some f /\ In p (Entry.next f).
Proof.
  rewrite ix_joined_nextsIndex, addToNextsIndex_referenced.
  - simpl. rewrite (ix_nexts L L_indexed). split.
    + intros [[k [f [Hk Hp]]]|[f [Hf Hp]]].
      * exists k, f. split; [now apply ix_joined_keeps|assumption].
      * exists (Entry.hash f), f. split; [now apply ix_joined_takes|assumption].
    + intros [k [f [Hk Hp]]]. rewrite ix_joined_get in Hk.
      destruct (obj_get D k) as [d|] eqn:Gd.
      * injection Hk as ->. right. exists f. split; [|assumption].
        eapply obj_get_In_values, Gd.
      * left. eauto.
  - intros e He. apply ix_items_values, ix_items_sound in He.
    eapply (ix_not_empty A A_indexed), (proj1 He).
Qed.

Lemma ix_candidates_get h :
  obj_get U h
  = match obj_get (Log._headsIndex A) h with
    | Some v => Some v
    | None => obj_get (Log._headsIndex L) h
    end.
Proof.
  rewrite (obj_get_assign _ _ _ (ix_head_keys A A_indexed)).
  rewrite (obj_get_assign _ _ _ (ix_head_keys L L_indexed)).
  simpl. now destruct (obj_get (Log._headsIndex L) h).
Qed.

Lemma ix_candidates_unique : NoDup (obj_keys U).
Proof. apply obj_assign_NoDup, obj_assign_NoDup. constructor. Qed.

(** A head of [A] that [L] does not hold is among the new items. *)
Lemma ix_items_take_heads h e :
  obj_get (Log._headsIndex A) h = Some e -> Log.get L h = None ->
  obj_get D h = Some e.
Proof.
  intros Gh Gl.
  pose proof (proj1 (ix_heads A A_indexed h e) Gh) as [Ga _].
  assert (Hd : obj_get D h <> None).
  { apply difference_takes_heads; auto.
    - apply (ix_hashes A A_indexed).
    - apply ix_other_ids.
    - apply obj_get_keys. congruence.
    - congruence. }
  destruct (obj_get D h) as [d|] eqn:Gd; [|contradiction].
  apply ix_items_sound in Gd. destruct Gd. congruence.
Qed.

Lemma ix_other_head h e :
  obj_get (Log._headsIndex A) h = Some e ->
  Log.get J h = Some e /\ Entry.hash e = h.
Proof.
  intros Gh.
  pose proof (proj1 (ix_heads A A_indexed h e) Gh) as [Ga _].
  split; [|eapply (ix_hashes A A_indexed), Ga].
  destruct (Log.get L h) as [e'|] eqn:Gl.
  - rewrite (LA_agree h e' e Gl Ga) in Gl. now apply ix_joined_keeps.
  - rewrite ix_joined_get. now rewrite (ix_items_take_heads h e Gh Gl).
Qed.

Lemma ix_candidate h e :
  obj_get U h = Some e -> Log.get J h = Some e /\ Entry.hash e = h.
Proof.
  rewrite ix_candidates_get.
  destruct (obj_get (Log._headsIndex A) h) as [v|] eqn:Ga.
  - intros [= <-]. now apply ix_other_head.
  - intros Gl. apply (ix_heads L L_indexed) in Gl. destruct Gl as [Gl _].
    split; [now apply ix_joined_keeps|eapply (ix_hashes L L_indexed), Gl].
Qed.

Lemma ix_candidate_values e :
  In e (obj_values U) -> obj_get U (Entry.hash e) = Some e.
Proof.
  intros He. apply (obj_values_In _ _ ix_candidates_unique) in He.
  destruct He as [k Hk]. pose proof (ix_candidate k e Hk) as [_ Hh].
  now rewrite Hh.
Qed.

(** The heads after the join: the heads of either log that no entry of
    the joined log names in its [next]. *)
Lemma ix_joined_heads_among h e :
  obj_get (Log._headsIndex J) h = Some e <->
  obj_get U h = Some e
  /\ forall k f, Log.get J k = Some f -> ~ In h (Entry.next f).
Proof.
  rewrite ix_joined_headsIndex. split.
  - intros H. apply uniqueEntries_get in H.
    destruct H as [H|[Hin Hh]]; [discriminate|]. subst h.
    apply filter_In in Hin. destruct Hin as [Hin Hcur].
    apply filter_In in Hin. destruct Hin as [Hin _].
    apply findHeads_In in Hin. destruct Hin as [Hin _].
    split; [now apply ix_candidate_values|].
    intros k f Hk Hp.
    rewrite notInCurrentNexts_referenced in Hcur.
    apply negb_true_iff, not_true_iff_false in Hcur. apply Hcur.
    apply ix_joined_referenced. eauto.
  - intros [Hc Hun].
    pose proof (ix_candidate h e Hc) as [Hg Hh].
    assert (Hin : In e
      (filter (Log.notInCurrentNexts (Log._nextsIndex J))
         (filter (Log.notReferencedByNewItems
                    (fold_left Log.flatMap
                       (map Log.getNextPointers (obj_values D)) []))
            (Log.findHeads (obj_values U))))).
    { apply filter_In. split; [apply filter_In; split|].
      - apply findHeads_In. split.
        + eapply obj_get_In_values, Hc.
        + intros f Hf. rewrite Hh.
          apply ix_candidate_values, ix_candidate in Hf.
          eapply Hun, (proj1 Hf).
      - unfold Log.notReferencedByNewItems.
        destruct (find _ _) as [a0|] eqn:F; [|reflexivity].
        exfalso. apply find_some in F. destruct F as [Hin Heq].
        apply String.eqb_eq in Heq. subst a0. rewrite Hh in Hin.
        apply flatMap_fold_In in Hin. destruct Hin as [[]|[l [Hl Hp]]].
        apply in_map_iff in Hl. destruct Hl as [f [<- Hf]].
        eapply (Hun (Entry.hash f) f); [|exact Hp].
        now apply ix_joined_takes.
      - rewrite notInCurrentNexts_referenced, Hh.
        apply negb_true_iff, not_true_iff_false. intros Href.
        apply ix_joined_referenced in Href. destruct Href as [k [f [Hk Hp]]].
        exact (Hun k f Hk Hp). }
    pose proof (uniqueEntries_has _ [] e Hin) as Hsome.
    destruct (obj_get _ (Entry.hash e)) as [e'|] eqn:G; [|contradiction].
    rewrite <- Hh, G. f_equal.
    apply uniqueEntries_get in G. destruct G as [G|[Hin' Hh']]; [discriminate|].
    apply filter_In in Hin'. destruct Hin' as [Hin' _].
    apply filter_In in Hin'. destruct Hin' as [Hin' _].
    apply findHeads_In in Hin'. destruct Hin' as [Hin' _].
    apply ix_candidate_values in Hin'.
    rewrite Hh', Hh in Hin'. congruence.
Qed.

Lemma ix_joined_head_keys : NoDup (obj_keys (Log._headsIndex J)).
Proof. rewrite ix_joined_headsIndex. apply uniqueEntries_NoDup. constructor. Qed.

(** *** Joining the same log again *)

Local Abbreviation U' :=
  (obj_assign (obj_assign [] (Log._headsIndex J)) (Log._headsIndex A)).

Lemma ix_rejoin_items : Log.difference A J = [].
Proof.
  unfold Log.difference. apply difference_loop_skips.
  intros h Hh. apply obj_get_keys in Hh.
  destruct (obj_get (Log._headsIndex A) h) as [e|] eqn:G; [|contradiction].
  pose proof (ix_other_head h e G) as [Hg _].
  unfold Log.has. now rewrite Hg.
Qed.

Lemma ix_rejoin_id : Log.id A = Log.id J.
Proof. now rewrite ix_joined_id. Qed.

Lemma ix_rejoin_admitted e :
  In e (obj_values (Log.difference A J)) ->
  canAppend e = true /\ verify e = true.
Proof. rewrite ix_rejoin_items. intros []. Qed.

Lemma ix_rejoin_commit :
  joined canAppend verify J A = Log.join_commit J A (-1) [].
Proof.
  change (joined canAppend verify J A)
    with (snd (Log.join canAppend verify J (Log.IsLog A) None)).
  rewrite (join_commits _ _ _ _ ix_rejoin_id ix_rejoin_admitted).
  now rewrite ix_rejoin_items.
Qed.

Lemma ix_rejoin_returns : join_returns canAppend verify J A.
Proof.
  unfold join_returns. rewrite ix_rejoin_commit.
  rewrite (join_commits _ _ _ _ ix_rejoin_id ix_rejoin_admitted).
  now rewrite ix_rejoin_items.
Qed.

Lemma ix_rejoin_candidates_get h :
  obj_get U' h
  = match obj_get (Log._headsIndex A) h with
    | Some v => Some v
    | None => obj_get (Log._headsIndex J) h
    end.
Proof.
  rewrite (obj_get_assign _ _ _ (ix_head_keys A A_indexed)).
  rewrite (obj_get_assign _ _ _ ix_joined_head_keys).
  simpl. now destruct (obj_get (Log._headsIndex J) h).
Qed.

Lemma ix_rejoin_candidate h e :
  obj_get U' h = Some e -> Log.get J h = Some e /\ Entry.hash e = h.
Proof.
  rewrite ix_rejoin_candidates_get.
  destruct (obj_get (Log._headsIndex A) h) as [v|] eqn:Ga.
  - intros [= <-]. now apply ix_other_head.
  - intros Gj. apply ix_joined_heads_among in Gj. destruct Gj as [Gj _].
    now apply ix_candidate.
Qed.

Lemma ix_rejoin_candidate_values e :
  In e (obj_values U') -> obj_get U' (Entry.hash e) = Some e.
Proof.
  intros He.
  assert (Hnd : NoDup (obj_keys U'))
    by (apply obj_assign_NoDup, obj_assign_NoDup; constructor).
  apply (obj_values_In _ _ Hnd) in He.
  destruct He as [k Hk]. pose proof (ix_rejoin_candidate k e Hk) as [_ Hh].
  now rewrite Hh.
Qed.

(** Joining [A] a second time leaves the heads as they are. *)
Lemma ix_rejoin_heads :
  obj_equiv (Log._headsIndex (joined canAppend verify J A))
            (Log._headsIndex J).
Proof.
  intros h. apply option_iff_eq. intros e.
  rewrite ix_rejoin_commit.
  destruct (join_commit_nothing J A) as [_ [_ ->]].
  split.
  - intros H. apply uniqueEntries_get in H.
    destruct H as [H|[Hin Hh]]; [discriminate|]. subst h.
    apply filter_In in Hin. destruct Hin as [Hin Hcur].
    apply filter_In in Hin. destruct Hin as [Hin _].
    apply findHeads_In in Hin. destruct Hin as [Hin _].
    apply ix_rejoin_candidate_values in Hin.
    assert (Hun : forall k f, Log.get J k = Some f ->
                              ~ In (Entry.hash e) (Entry.next f)).
    { intros k f Hk Hp.
      rewrite notInCurrentNexts_referenced in Hcur.
      apply negb_true_iff, not_true_iff_false in Hcur. apply Hcur.
      apply ix_joined_referenced. eauto. }
    rewrite ix_rejoin_candidates_get in Hin.
    destruct (obj_get (Log._headsIndex A) (Entry.hash e)) as [v|] eqn:Ga;
      [|exact Hin].
    injection Hin as ->. apply ix_joined_heads_among. split; [|exact Hun].
    now rewrite ix_candidates_get, Ga.
  - intros H. pose proof H as Hj.
    apply ix_joined_heads_among in H. destruct H as [Hc Hun].
    pose proof (ix_candidate h e Hc) as [Hg Hh].
    assert (Hc' : obj_get U' h = Some e).
    { rewrite ix_rejoin_candidates_get.
      destruct (obj_get (Log._headsIndex A) h) as [v|] eqn:Ga; [|exact Hj].
      rewrite ix_candidates_get, Ga in Hc. exact Hc. }
    assert (Hin : In e
      (filter (Log.notInCurrentNexts (Log._nextsIndex J))
         (filter (Log.notReferencedByNewItems [])
            (Log.findHeads (obj_values U'))))).
    { apply filter_In. split; [apply filter_In; split|].
      - apply findHeads_In. split.
        + eapply obj_get_In_values, Hc'.
        + intros f Hf. rewrite Hh.
          apply ix_rejoin_candidate_values, ix_rejoin_candidate in Hf.
          eapply Hun, (proj1 Hf).
      - reflexivity.
      - rewrite notInCurrentNexts_referenced, Hh.
        apply negb_true_iff, not_true_iff_false. intros Href.
        apply ix_joined_referenced in Href. destruct Href as [k [f [Hk Hp]]].
        exact (Hun k f Hk Hp). }
    pose proof (uniqueEntries_has _ [] e Hin) as Hsome.
    destruct (obj_get _ (Entry.hash e)) as [e'|] eqn:G; [|contradiction].
    rewrite <- Hh, G. f_equal.
    apply uniqueEntries_get in G. destruct G as [G|[Hin' Hh']]; [discriminate|].
    apply filter_In in Hin'. destruct Hin' as [Hin' _].
    apply filter_In in Hin'. destruct Hin' as [Hin' _].
    apply findHeads_In in Hin'. destruct Hin' as [Hin' _].
    apply ix_rejoin_candidate_values in Hin'.
    rewrite Hh', Hh in Hin'. congruence.
Qed.

(** Joining [A] a second time leaves the entries as they are. *)
Lemma ix_rejoin_entries :
  Log._entryIndex (joined canAppend verify J A) = Log._entryIndex J.
Proof.
  rewrite ix_rejoin_commit. apply (join_commit_nothing J A).
Qed.

(** *** The joined log is indexed *)

Lemma ix_items_outside h e :
  obj_get D h = Some e <->
  Log.get A h = Some e
  /\ exists h0, In h0 (obj_keys (Log._headsIndex A)) /\ reach_outside A L h0 h.
Proof. apply (difference_outside A L (ix_hashes A A_indexed) ix_other_ids). Qed.

(** A new item that no entry of the joined log names is a head of [A]. *)
Lemma ix_items_head h e :
  obj_get D h = Some e ->
  (forall k f, Log.get J k = Some f -> ~ In h (Entry.next f)) ->
  obj_get (Log._headsIndex A) h = Some e.
Proof.
  intros Gd Hun. pose proof (proj1 (ix_items_outside h e) Gd) as [Ha [h0 [Hh0 Hr]]].
  inversion Hr as [e' Ha' Hb' E|y e' z f Hr' Hy Hz Hf Hb' E].
  - subst h0. apply obj_get_keys in Hh0.
    destruct (obj_get (Log._headsIndex A) h) as [v|] eqn:Gh; [|contradiction].
    pose proof (proj1 (ix_heads A A_indexed h v) Gh) as [Gv _]. congruence.
  - subst z. exfalso.
    pose proof (difference_outside_has A L (ix_hashes A A_indexed) ix_other_ids
                  h0 y Hh0 Hr') as Hd.
    destruct (obj_get D y) as [d|] eqn:Gy; [|contradiction].
    pose proof (ix_items_sound y d Gy) as [Hd' _].
    assert (d = e') by congruence. subst d.
    apply (Hun y e'); [|exact Hz].
    now rewrite ix_joined_get, Gy.
Qed.

Lemma ix_joined_heads h e :
  obj_get (Log._headsIndex J) h = Some e <->
  Log.get J h = Some e
  /\ forall k f, Log.get J k = Some f -> ~ In h (Entry.next f).
Proof.
  rewrite ix_joined_heads_among. split.
  - intros [Hc Hun]. split; [apply (ix_candidate h e Hc)|exact Hun].
  - intros [Hg Hun]. split; [|exact Hun].
    rewrite ix_candidates_get. rewrite ix_joined_get in Hg.
    destruct (obj_get D h) as [d|] eqn:Gd.
    + injection Hg as ->.
      now rewrite (ix_items_head h e Gd Hun).
    + assert (HL : obj_get (Log._headsIndex L) h = Some e).
      { apply (ix_heads L L_indexed). split; [assumption|].
        intros k f Hk. apply (Hun k). now apply ix_joined_keeps. }
      destruct (obj_get (Log._headsIndex A) h) as [v|] eqn:Ga; [|assumption].
      apply (ix_heads A A_indexed) in Ga. destruct Ga as [Ga _].
      f_equal. symmetry. eapply LA_agree; eauto.
Qed.

(** Joining two indexed logs gives an indexed log. *)
Lemma ix_joined_indexed : indexed J.
Proof.
  constructor.
  - rewrite ix_joined_entryIndex.
    apply obj_assign_NoDup, (ix_entry_keys L L_indexed).
  - apply ix_joined_head_keys.
  - rewrite ix_joined_nextsIndex.
    apply addToNextsIndex_NoDup, (ix_next_keys L L_indexed).
  - apply ix_joined_hashes.
  - intros h e H. apply ix_joined_from in H. destruct H as [H|H].
    + eapply (ix_not_empty L L_indexed), H.
    + eapply (ix_not_empty A A_indexed), H.
  - intros h e H. apply ix_joined_from in H. destruct H as [H|H].
    + eapply (ix_plain L L_indexed), H.
    + eapply (ix_plain A A_indexed), H.
  - intros h e H. rewrite ix_joined_id.
    apply ix_joined_from in H. destruct H as [H|H].
    + eapply (ix_ids L L_indexed), H.
    + eapply ix_other_ids, H.
  - apply ix_joined_heads.
  - apply ix_joined_referenced.
Qed.

Lemma ix_joined_agree B : agree L B -> agree A B -> agree J B.
Proof.
  intros HL HA h e1 e2 H1 H2. apply ix_joined_from in H1.
  destruct H1 as [H1|H1].
  - eapply HL; eauto.
  - eapply HA; eauto.
Qed.

(** What the joined log holds beyond [L] are the entries of [A] within
    reach of its heads outside [L]. *)
Lemma ix_joined_has h :
  Log.get J h <> None <->
  Log.get L h <> None
  \/ exists h0, In h0 (obj_keys (Log._headsIndex A)) /\ reach_outside A L h0 h.
Proof.
  rewrite ix_joined_get. split.
  - destruct (obj_get D h) as [d|] eqn:Gd; [|now left].
    intros _. right. apply (proj1 (ix_items_outside h d) Gd).
  - intros [H|[h0 [Hh0 Hr]]].
    + destruct (obj_get D h); [discriminate|exact H].
    + pose proof (difference_outside_has A L (ix_hashes A A_indexed)
                    ix_other_ids h0 h Hh0 Hr) as Hd.
      destruct (obj_get D h); [discriminate|contradiction].
Qed.

End JoinIndexed.

(** ** Two joins *)

Lemma indexed_heads_determined l1 l2 :
  indexed l1 -> indexed l2 ->
  obj_equiv (Log._entryIndex l1) (Log._entryIndex l2) ->
  obj_equiv (Log._headsIndex l1) (Log._headsIndex l2).
Proof.
  intros C1 C2 He k. apply option_iff_eq. intros e.
  rewrite (ix_heads l1 C1), (ix_heads l2 C2).
  unfold Log.get. rewrite (He k). split; intros [H1 H2]; split; auto;
    intros k' f; [rewrite <- (He k')|rewrite (He k')]; apply H2.
Qed.

Section JoinOrder.
  Variables canAppend verify : Entry.t -> bool.
  Variables L A B : Log.t.
  Hypothesis L_indexed : indexed L.
  Hypothesis A_indexed : indexed A.
  Hypothesis B_indexed : indexed B.
  Hypothesis A_id : Log.id A = Log.id L.
  Hypothesis B_id : Log.id B = Log.id L.
  Hypothesis LA_agree : agree L A.
  Hypothesis LB_agree : agree L B.
  Hypothesis AB_agree : agree A B.
  Hypothesis A_admitted : admitted canAppend verify A.
  Hypothesis B_admitted : admitted canAppend verify B.

Local Abbreviation JA := (joined canAppend verify L A).
Local Abbreviation JB := (joined canAppend verify L B).

Lemma order_first_indexed : indexed JA.
Proof. now apply ix_joined_indexed. Qed.

Lemma order_first_agree : agree JA B.
Proof. now apply ix_joined_agree. Qed.

Lemma order_first_id : Log.id B = Log.id JA.
Proof. rewrite B_id. symmetry. now apply ix_joined_id. Qed.

Lemma order_second_returns : join_returns canAppend verify JA B.
Proof.
  apply ix_join_returns; auto using order_first_indexed, order_first_agree,
    order_first_id.
Qed.

Lemma order_second_indexed : indexed (joined_twice canAppend verify L A B).
Proof.
  unfold joined_twice.
  apply ix_joined_indexed; auto using order_first_indexed, order_first_agree,
    order_first_id.
Qed.

(** What the twice joined log holds comes from one of the three logs. *)
Lemma order_second_from h e :
  Log.get (joined_twice canAppend verify L A B) h = Some e ->
  Log.get L h = Some e \/ Log.get A h = Some e \/ Log.get B h = Some e.
Proof.
  unfold joined_twice. intros H.
  apply ix_joined_from in H;
    auto using order_first_indexed, order_first_agree, order_first_id.
  destruct H as [H|H]; [|auto].
  apply ix_joined_from in H; auto. tauto.
Qed.

Lemma order_second_has h :
  Log.get (joined_twice canAppend verify L A B) h <> None <->
  Log.get JA h <> None
  \/ exists h0, In h0 (obj_keys (Log._headsIndex B))
                /\ reach_outside B JA h0 h.
Proof.
  unfold joined_twice.
  apply ix_joined_has;
    auto using order_first_indexed, order_first_agree, order_first_id.
Qed.

  Hypothesis A_within : closed_within L A B.

(** An entry of [B] within reach of its heads outside [L] is in the log
    joined first, or within reach of the heads of [B] outside that log. *)
Lemma order_reach h0 y :
  In h0 (obj_keys (Log._headsIndex B)) -> reach_outside B L h0 y ->
  Log.get JA y <> None
  \/ exists h1, In h1 (obj_keys (Log._headsIndex B))
                /\ reach_outside B JA h1 y.
Proof.
  intros Hh0 Hr. induction Hr as [e Ha Hb|y e z f Hr IH Hy Hz Hf Hb].
  - destruct (Log.get JA h0) as [j|] eqn:Gj; [left; discriminate|].
    right. exists h0. split; [assumption|]. eapply outside_here; eauto.
  - destruct (Log.get JA z) as [j|] eqn:Gj; [left; discriminate|].
    right. destruct IH as [IH|[h1 [Hh1 IH]]].
    + exfalso.
      pose proof (reach_outside_end _ _ _ _ Hr) as [_ Hly].
      apply ix_joined_has in IH; auto.
      destruct IH as [IH|[h1 [Hh1 IH]]]; [congruence|].
      pose proof (reach_outside_end _ _ _ _ IH) as [Hay _].
      destruct (Log.get A y) as [e'|] eqn:Ga; [|contradiction].
      pose proof (AB_agree y e' e Ga Hy) as E. subst e'.
      assert (Haz : Log.get A z <> None).
      { destruct (A_within y e z Ga Hly Hz) as [Hz'|Hz']; congruence. }
      destruct (Log.get A z) as [g|] eqn:Gz; [|contradiction].
      assert (Hjz : Log.get JA z <> None).
      { apply ix_joined_has; auto. right. exists h1. split; [assumption|].
        eapply outside_next; eauto. }
      congruence.
    + exists h1. split; [assumption|]. eapply outside_next; eauto.
Qed.

(** Joining [B] first and [A] second brings nothing that joining [A]
    first and [B] second does not bring. *)
Lemma order_included h :
  Log.get (joined_twice canAppend verify L B A) h <> None ->
  Log.get (joined_twice canAppend verify L A B) h <> None.
Proof.
  intros H.
  assert (Hkeep : forall k, Log.get JA k <> None ->
            Log.get (joined_twice canAppend verify L A B) k <> None).
  { intros k Hk. apply order_second_has. now left. }
  assert (HL : forall k, Log.get L k <> None -> Log.get JA k <> None).
  { intros k Hk. apply ix_joined_has; auto. }
  assert (GBA : agree B A) by now apply agree_sym.
  unfold joined_twice in H.
  apply ix_joined_has in H;
    auto using ix_joined_indexed, ix_joined_agree.
  2:{ rewrite A_id. symmetry. now apply ix_joined_id. }
  destruct H as [H|[h0 [Hh0 Hr]]].
  - apply ix_joined_has in H; auto.
    destruct H as [H|[h0 [Hh0 Hr]]]; [now apply Hkeep, HL|].
    destruct (order_reach h0 h Hh0 Hr) as [Hj|Hout]; [now apply Hkeep|].
    apply order_second_has. now right.
  - apply Hkeep, ix_joined_has; auto. right. exists h0. split; [assumption|].
    apply (reach_outside_smaller A L JB); [|exact Hr].
    intros k Hk. destruct (Log.get L k) as [e|] eqn:Gl; [|reflexivity].
    exfalso. assert (Hjb : Log.get JB k <> None) by (apply ix_joined_has; auto;
      left; congruence).
    contradiction.
Qed.

End JoinOrder.

Lemma order_swap canAppend verify L A B h e :
  indexed L -> indexed A -> indexed B ->
  Log.id A = Log.id L -> Log.id B = Log.id L ->
  agree L A -> agree L B -> agree A B ->
  admitted canAppend verify A -> admitted canAppend verify B ->
  closed_within L B A ->
  Log.get (joined_twice canAppend verify L A B) h = Some e ->
  Log.get (joined_twice canAppend verify L B A) h = Some e.
Proof.
  intros CL CA CB IA IB GLA GLB GAB DA DB WBA H.
  pose proof (agree_sym _ _ GAB) as GBA.
  assert (Hn : Log.get (joined_twice canAppend verify L B A) h <> None).
  { apply (order_included canAppend verify L B A); auto. congruence. }
  destruct (Log.get (joined_twice canAppend verify L B A) h) as [e'|] eqn:G;
    [|contradiction].
  f_equal.
  apply order_second_from in H; auto.
  apply order_second_from in G; auto.
  destruct H as [H|[H|H]], G as [G|[G|G]];
    first [ congruence
          | eapply GLA; eassumption | symmetry; eapply GLA; eassumption
          | eapply GLB; eassumption | symmetry; eapply GLB; eassumption
          | eapply GAB; eassumption | symmetry; eapply GAB; eassumption ].
Qed.

(** C6, as the code has it.  Take logs [L] and [A] of one id whose
    indices fit their entries ([indexed]), that hold the same entry under
    each hash they share, the entries of [A] passing both gates.  Joining
    [A] into [L] a second time changes neither the entryIndex nor the
    headsIndex.  Take a third such log [B].  When, beyond what [L] holds,
    neither of [A] and [B] lacks an entry, named in the [next] of one of
    its own, that the other holds ([closed_within]), then joining [A] and
    [B] into [L] in either order gives the same entryIndex and the same
    headsIndex as maps.  All these joins return. *)
Theorem join_is_idempotent_and_commutes
    (canAppend verify : Entry.t -> bool) (L A B : Log.t) :
  indexed L -> indexed A -> Log.id A = Log.id L -> agree L A ->
  admitted canAppend verify A ->
  (obj_equiv (Log._entryIndex (joined_twice canAppend verify L A A))
             (Log._entryIndex (joined canAppend verify L A))
   /\ obj_equiv (Log._headsIndex (joined_twice canAppend verify L A A))
                (Log._headsIndex (joined canAppend verify L A))
   /\ join_returns canAppend verify L A
   /\ join_returns canAppend verify (joined canAppend verify L A) A)
  /\ (indexed B -> Log.id B = Log.id L -> agree L B -> agree A B ->
      admitted canAppend verify B ->
      closed_within L A B -> closed_within L B A ->
      obj_equiv (Log._entryIndex (joined_twice canAppend verify L A B))
                (Log._entryIndex (joined_twice canAppend verify L B A))
      /\ obj_equiv (Log._headsIndex (joined_twice canAppend verify L A B))
                   (Log._headsIndex (joined_twice canAppend verify L B A))
      /\ join_returns canAppend verify L B
      /\ join_returns canAppend verify (joined canAppend verify L A) B
      /\ join_returns canAppend verify (joined canAppend verify L B) A).
Proof.
  intros CL CA IA GLA DA. split.
  - unfold joined_twice. split; [|split; [|split]].
    + intros k. now rewrite ix_rejoin_entries.
    + now apply ix_rejoin_heads.
    + now apply ix_join_returns.
    + now apply ix_rejoin_returns.
  - intros CB IB GLB GAB DB WAB WBA.
    pose proof (agree_sym _ _ GAB) as GBA.
    assert (E : obj_equiv (Log._entryIndex (joined_twice canAppend verify L A B))
                          (Log._entryIndex (joined_twice canAppend verify L B A))).
    { intros k. apply option_iff_eq. intros e.
      change (Log.get (joined_twice canAppend verify L A B) k = Some e <->
              Log.get (joined_twice canAppend verify L B A) k = Some e).
      split; apply order_swap; auto. }
    split; [exact E|]. split.
    { apply indexed_heads_determined; [| |exact E];
        now apply order_second_indexed. }
    split; [now apply ix_join_returns|].
    split; now apply order_second_returns.
Qed.

Lemma join_is_idempotent_and_commutes_witness :
  obj_equiv
    (Log._entryIndex (joined_twice Examples.allow_all Examples.allow_all
                        Examples.logB_partial Examples.logB
                        Examples.logA_recent))
    (Log._entryIndex (joined_twice Examples.allow_all Examples.allow_all
                        Examples.logB_partial Examples.logA_recent
                        Examples.logB)).
Proof.
  refine (proj1 (proj2 (join_is_idempotent_and_commutes
                   Examples.allow_all Examples.allow_all
                   Examples.logB_partial Examples.logB
                   Examples.logA_recent
                   _ _ _ _ _) _ _ _ _ _ _ _)).
  - apply indexed_check_sound. reflexivity.
  - apply indexed_check_sound. reflexivity.
  - reflexivity.
  - apply agree_check_sound. reflexivity.
  - intros h e _. split; reflexivity.
  - apply indexed_check_sound. reflexivity.
  - reflexivity.
  - apply agree_check_sound. reflexivity.
  - apply agree_check_sound. reflexivity.
  - intros h e _. split; reflexivity.
  - apply closed_within_check_sound. reflexivity.
  - apply closed_within_check_sound. reflexivity.
Defined.

(** C6, as the specification words it, fails on both counts.  Order: a
    log that holds only b2 of the chain b1, b2, b3 and the log of the
    whole chain, joined into an empty log, leave b1 out in one order and
    take it in in the other; the log of b2 lacks b1, which b2 names and
    the log of the chain holds.  Repetition: a log that was handed c2 and
    c3 as its heads and holds no entries has the single head c3 after
    joining the log of c1, and the heads c3 and c1 after joining it
    again; its heads are not among its entries. *)
Lemma join_order_and_repetition_matter :
  (Log.get (joined_twice Examples.allow_all Examples.allow_all
              Examples.logEmpty Examples.logB_partial Examples.logB) "Qmb1"
   = None
   /\ Log.get (joined_twice Examples.allow_all Examples.allow_all
                 Examples.logEmpty Examples.logB Examples.logB_partial) "Qmb1"
      = Some Examples.b1
   /\ join_returns Examples.allow_all Examples.allow_all
        Examples.logEmpty Examples.logB_partial
   /\ join_returns Examples.allow_all Examples.allow_all
        (joined Examples.allow_all Examples.allow_all
           Examples.logEmpty Examples.logB_partial) Examples.logB
   /\ join_returns Examples.allow_all Examples.allow_all
        Examples.logEmpty Examples.logB
   /\ join_returns Examples.allow_all Examples.allow_all
        (joined Examples.allow_all Examples.allow_all
           Examples.logEmpty Examples.logB) Examples.logB_partial
   /\ ~ obj_equiv
          (Log._entryIndex (joined_twice Examples.allow_all Examples.allow_all
                              Examples.logEmpty Examples.logB_partial
                              Examples.logB))
          (Log._entryIndex (joined_twice Examples.allow_all Examples.allow_all
                              Examples.logEmpty Examples.logB
                              Examples.logB_partial))
   /\ ~ closed_within Examples.logEmpty Examples.logB_partial Examples.logB)
  /\ (obj_keys (Log._headsIndex Examples.log_heads_only) = ["Qmc2"; "Qmc3"]
      /\ obj_keys (Log._entryIndex Examples.log_heads_only) = []
      /\ obj_keys (Log._headsIndex
                     (joined Examples.allow_all Examples.allow_all
                        Examples.log_heads_only Examples.logC))
         = ["Qmc3"]
      /\ obj_keys (Log._headsIndex
                     (joined_twice Examples.allow_all Examples.allow_all
                        Examples.log_heads_only Examples.logC Examples.logC))
         = ["Qmc3"; "Qmc1"]
      /\ join_returns Examples.allow_all Examples.allow_all
           Examples.log_heads_only Examples.logC
      /\ join_returns Examples.allow_all Examples.allow_all
           (joined Examples.allow_all Examples.allow_all
              Examples.log_heads_only Examples.logC) Examples.logC
      /\ ~ obj_equiv
             (Log._headsIndex
                (joined_twice Examples.allow_all Examples.allow_all
                   Examples.log_heads_only Examples.logC Examples.logC))
             (Log._headsIndex
                (joined Examples.allow_all Examples.allow_all
                   Examples.log_heads_only Examples.logC))).
Proof.
  split.
  - do 6 (split; [reflexivity|]). split.
    + intros H. specialize (H "Qmb1"). vm_compute in H. discriminate.
    + intros H.
      destruct (H "Qmb2" Examples.b2 "Qmb1") as [H'|H'];
        [reflexivity|reflexivity|now left|discriminate| |]; now apply H'.
  - do 6 (split; [reflexivity|]).
    intros H. specialize (H "Qmc1"). vm_compute in H. discriminate.
Qed.
